(** * world-hex-miner: the zone classifier, the coastal safety buffer and the
    mining ownership engine of the API server, as a shallow embedding.

    The server keeps its state in module-level globals ([usersById],
    [hexCache], [coastBufferHexes], [treasury], [miningEvents]) and mutates
    them from the request handlers.  Here the globals are the fields of one
    record, [Server], and every handler is a function from the request and
    the state to a response and the next state.

    Conventions of the embedding:
    - a JS [Set<string>] is a [gset string], a [Map<string, _>] or a plain
      object used as a dictionary is a [gmap string _];
    - GHX balances are integers ([Z]): every mutation of the mining engine
      adds or subtracts an integer, and [Math.floor(0.1 * N)] equals the
      integer quotient [N / 10] for every count a request can produce
      (the double nearest to 0.1 exceeds 0.1 by 0.1 * 2^-54, too little to
      carry a product over the next integer or to leave a multiple of ten);
    - a call that may throw returns [throws A]: [inl msg] is a thrown
      [Error] with that message, [inr a] a normal return;
    - h3-js, the Overpass service, [Date.now()], [crypto.randomUUID()] and
      [bcrypt.hashSync] are outside the program; their results are inputs
      (one clock value per request);
    - the persistence helpers ([saveUsers], [saveCoastBuffer], ...) swallow
      every file-system error, so what the program itself decides is whether
      a write is attempted and with which value: the state carries the log of
      attempted writes;
    - a handler runs from request to response without interleaving (the two
      drive handlers and the classification handlers suspend on the network
      in the source; the embedding takes each as one step);
    - the routes that only read one account or the Treasury (login,
      balances, the caller's own cells, statistics, treasury) and the market
      stub, which touches balances and trades only, are left out: a sequence
      of requests, below, is a sequence of requests to the other routes. *)

From Stdlib Require Import ZArith QArith Qround SpecFloat.
From stdpp Require Import gmap strings list fin_maps pretty.

Local Open Scope Z_scope.
#[local] Set Warnings "-clear-no-such-hyp".

(** ** Thrown errors *)

Definition throws (A : Type) : Type := (string + A)%type.

(** ** Data model *)

Inductive ZoneType :=
  | SEA | MAIN_ROAD | URBAN | INTERURBAN | MILITARY | HOSPITAL
  | CLIFF | COAST | NATURE_RESERVE | RIVER | PRISON | GOVERNMENT.

Global Instance ZoneType_eq_dec : EqDecision ZoneType.
Proof. solve_decision. Defined.

Record User := mkUser {
  id : string;
  email : string;
  passwordHash : string;
  balance : Z;
  usdtBalance : Z;
  ownedHexes : gset string;
}.

Record HexCacheEntry := mkHexCacheEntry {
  ce_zoneType : ZoneType;
  ce_debug : list string;
}.

Record MiningEvent := mkMiningEvent {
  timestamp : Z;
  userId : string;
  h3Index : string;
}.

(** One attempted write of a persistence helper, with the value handed to
    [JSON.stringify]. *)
Inductive FsWrite :=
  | FsUsers (users : gmap string User)
  | FsHexCache (cache : gmap string HexCacheEntry)
  | FsCoastBuffer (hexes : gset string)
  | FsTreasury (ghxBalance : Z)
  | FsMiningEvents (events : list MiningEvent).

(** The module-level globals. *)
Record Server := mkServer {
  usersById : gmap string User;
  hexCache : gmap string HexCacheEntry;
  coastBufferHexes : gset string;
  treasury : Z;
  miningEvents : list MiningEvent;
  fsLog : list FsWrite;
}.

Definition emptyServer : Server :=
  mkServer ∅ ∅ ∅ 0 [] [].

(** ** Constants *)

Definition DEFAULT_START_HEX : string := "8b3f4dc1e26dfff".
Definition SPAWN_COST_GHX : Z := 5.
Definition DRIVE_COST_GHX : Z := 5.
Definition DRIVE_DISK_K : nat := 3.
Definition GPS_MINE_ACCURACY_THRESHOLD_M : Q := 35.
Definition GPS_MINE_MAX_AGE_MS : Q := 15000.

(** ** Field updates of the globals *)

Definition with_users (f : gmap string User -> gmap string User) (s : Server) : Server :=
  mkServer (f (usersById s)) (hexCache s) (coastBufferHexes s) (treasury s)
           (miningEvents s) (fsLog s).

Definition with_hexCache (f : gmap string HexCacheEntry -> gmap string HexCacheEntry)
    (s : Server) : Server :=
  mkServer (usersById s) (f (hexCache s)) (coastBufferHexes s) (treasury s)
           (miningEvents s) (fsLog s).

Definition with_coastBuffer (f : gset string -> gset string) (s : Server) : Server :=
  mkServer (usersById s) (hexCache s) (f (coastBufferHexes s)) (treasury s)
           (miningEvents s) (fsLog s).

Definition with_treasury (f : Z -> Z) (s : Server) : Server :=
  mkServer (usersById s) (hexCache s) (coastBufferHexes s) (f (treasury s))
           (miningEvents s) (fsLog s).

Definition with_miningEvents (f : list MiningEvent -> list MiningEvent) (s : Server) : Server :=
  mkServer (usersById s) (hexCache s) (coastBufferHexes s) (treasury s)
           (f (miningEvents s)) (fsLog s).

Definition fs_write (w : FsWrite) (s : Server) : Server :=
  mkServer (usersById s) (hexCache s) (coastBufferHexes s) (treasury s)
           (miningEvents s) (fsLog s ++ [w]).

(** Mutation of one user object.  The handlers hold a reference to the
    object stored in [usersById]; assigning to its fields changes the entry
    of the map. *)
Definition set_balance (b : Z) (u : User) : User :=
  mkUser (id u) (email u) (passwordHash u) b (usdtBalance u) (ownedHexes u).

Definition set_ownedHexes (o : gset string) (u : User) : User :=
  mkUser (id u) (email u) (passwordHash u) (balance u) (usdtBalance u) o.

Definition put_user (uid : string) (u : User) (s : Server) : Server :=
  with_users (fun m => <[uid := u]> m) s.

(** ** Persistence helpers *)

Definition saveUsers (s : Server) : Server := fs_write (FsUsers (usersById s)) s.
Definition saveHexCache (s : Server) : Server := fs_write (FsHexCache (hexCache s)) s.
Definition saveCoastBuffer (s : Server) : Server :=
  fs_write (FsCoastBuffer (coastBufferHexes s)) s.
Definition saveTreasury (s : Server) : Server := fs_write (FsTreasury (treasury s)) s.
Definition saveMiningEvents (s : Server) : Server :=
  fs_write (FsMiningEvents (miningEvents s)) s.

(** ** The global ownership index *)

(** [buildGlobalOwnedHexesSet]: the union of the owned sets of all users,
    the caller included. *)
Definition buildGlobalOwnedHexesSet (s : Server) : gset string :=
  map_fold (fun _ u all => ownedHexes u ∪ all) ∅ (usersById s).

(** The owned set of the account [uid], empty when there is none. *)
Definition ownedBy (s : Server) (uid : string) : gset string :=
  default ∅ (ownedHexes <$> usersById s !! uid).

(** ** Treasury *)

(** [collectTreasuryFee]: amounts that are not positive are ignored. *)
Definition collectTreasuryFee (amount : Z) (s : Server) : Server :=
  if amount <=? 0 then s
  else saveTreasury (with_treasury (fun t => t + amount) s).

(** ** The numbers of the source *)

(** A JavaScript number is an IEEE 754 binary64 value: [spec_float] of the
    Standard Library with a 53-bit significand and infinities at exponent
    1024, rounded to nearest, ties to even.  The handlers that run
    without a wait are embedded with integer balances and exact integer
    arithmetic; the operations here are the ones the source runs, and the
    two agree as long as every balance is an integer of magnitude below
    2^53. *)
Definition Double : Type := spec_float.

Definition jsAdd : Double -> Double -> Double := SFadd 53 1024.
Definition jsSub : Double -> Double -> Double := SFsub 53 1024.
Definition jsMul : Double -> Double -> Double := SFmul 53 1024.
Definition jsDiv : Double -> Double -> Double := SFdiv 53 1024.
Definition jsLt : Double -> Double -> bool := SFltb.
Definition jsLe : Double -> Double -> bool := SFleb.

(** [Number.isFinite] *)
Definition jsIsFinite (x : Double) : bool :=
  match x with
  | S754_zero _ | S754_finite _ _ _ => true
  | S754_infinity _ | S754_nan => false
  end.

(** The number an integer literal or an array length stands for. *)
Definition ofZ (z : Z) : Double := binary_normalize 53 1024 z 0 false.

(** The literal [0.1]: the double nearest to one tenth. *)
Definition tenth : Double := jsDiv (ofZ 1) (ofZ 10).

(** [Math.floor] *)
Definition jsFloor (x : Double) : Double :=
  match x with
  | S754_finite sign m e =>
      if 0 <=? e then x
      else ofZ ((if sign then Z.neg m else Z.pos m) / 2 ^ (- e))
  | _ => x
  end.

(** An integer that binary64 holds along with both of its neighbours. *)
Definition safeInt (z : Z) : Prop := - 2 ^ 53 < z < 2 ^ 53.

(** The accounts and the Treasury are held as integers.  [toZ] is the
    integer a finite number stands for (its floor when it has a fraction),
    and 0 for a NaN or an infinity, which integer balances reach only
    beyond 2^1023. *)
Definition toZ (x : Double) : Z :=
  match x with
  | S754_finite sign m e =>
      let v := if sign then Z.neg m else Z.pos m in
      if 0 <=? e then v * 2 ^ e else v / 2 ^ (- e)
  | _ => 0
  end.

(** [a + b], [a - b] and [a < b] as the source computes them on two stored
    integers: on their doubles, rounded. *)
Definition numAdd (a b : Z) : Z := toZ (jsAdd (ofZ a) (ofZ b)).
Definition numSub (a b : Z) : Z := toZ (jsSub (ofZ a) (ofZ b)).
Definition numLt (a b : Z) : bool := jsLt (ofZ a) (ofZ b).

(** [Math.floor(0.1 * N)] *)
Definition numFee (N : Z) : Z := toZ (jsFloor (jsMul tenth (ofZ N))).

(** [collectTreasuryFee] on doubles:
    [if (!Number.isFinite(amount) || amount <= 0) return]. *)
Definition collectTreasuryFeeNum (amount : Z) (s : Server) : Server :=
  if negb (jsIsFinite (ofZ amount)) || jsLe (ofZ amount) (ofZ 0) then s
  else saveTreasury (with_treasury (fun t => numAdd t amount) s).

(** ** Requests and responses *)

(** A numeric field of a JSON request body, as the handlers test it:
    [typeof x !== 'number'] and [!Number.isFinite(x)]. *)
Inductive JsNumber :=
  | NotNumber             (* the field is absent or is not a number *)
  | NonFinite             (* NaN, Infinity or -Infinity *)
  | Num (q : Q).          (* a finite number *)

(** The body of [POST /api/mine] and [POST /api/spawn].  [b_h3Index] is
    [None] when the field is absent or is not a string. *)
Record ClaimBody := mkClaimBody {
  b_h3Index : option string;
  b_lat : JsNumber;
  b_lon : JsNumber;
  b_accuracyM : JsNumber;
  b_gpsAt : JsNumber;
}.

Inductive Reason :=
  | ALREADY_MINED | OWNED_BY_OTHER | FORBIDDEN_ZONE
  | GPS_REQUIRED | GPS_STALE | GPS_ACCURACY_LOW | GPS_MISMATCH
  | ALREADY_OWNED | INSUFFICIENT_GHX | NO_ROAD_HEXES | SAME_HEX.

Inductive HttpError :=
  | UNAUTHENTICATED | INVALID_H3_INDEX
  | INVALID_EMAIL | INVALID_PASSWORD | EMAIL_IN_USE.

Inductive Response :=
  (* res.status(code).json({ ok: false, error }) *)
  | RespError (status : nat) (error : HttpError)
  (* res.json({ ok: false, reason, balance, owned }); [owned] is absent in
     the drive handlers *)
  | RespFail (reason : Reason) (bal : Z) (owned : option bool)
  (* res.json({ ok: true, balance, owned: true }) of /api/mine *)
  | RespMined (bal : Z)
  (* res.json({ ok: true, balance, owned: true, spawnCost }) of /api/spawn *)
  | RespSpawned (bal : Z) (spawnCost : Z)
  (* res.json of /api/drive/simulate *)
  | RespDriveSimulate (addedHexes : nat) (ghxCost : Z) (newBalance : Z)
                      (claimedHexes : list string)
  (* res.json of /api/drive/step *)
  | RespDriveStep (minedHexes : list string) (count grossReward fee netDelta newBalance : Z)
  (* res.json of /api/auth/register, without the token *)
  | RespRegistered (user : User)
  (* res.json of the three classification routes *)
  | RespHex (h : string) (zone : ZoneType) (debug : list string)
            (hasRoad : option bool) (roadClass : option string)
  (* res.json({ h3Index }) of /api/hex/:h3Index when the entry it read has
     neither a zoneType nor a debug field: JSON.stringify drops both *)
  | RespHexBare (h : string)
  (* res.json of /api/admin/reset-hexes *)
  | RespReset (usersReset : nat)
  (* an exception that leaves an async handler: no response is written *)
  | RespUnhandled (message : string).

(** [requireAuth]: [auth] is the [userId] of the verified token, [None]
    when the header is missing or the token does not verify. *)
Definition requireAuth (auth : option string) (s : Server) : option (string * User) :=
  match auth with
  | None => None
  | Some uid =>
      match usersById s !! uid with
      | None => None
      | Some u => Some (uid, u)
      end
  end.

(** [!h3Index || typeof h3Index !== 'string']: the string must be present
    and not empty. *)
Definition validIndex (o : option string) : option string :=
  match o with
  | Some h => if decide (h = "") then None else Some h
  | None => None
  end.

(** ** Mine *)

(** [POST /api/mine].  The handler reads [lat], [lon], [accuracyM] and
    [gpsAt] from the body and does not look at them again ("GPS verification
    temporarily disabled for testing"). *)
Definition mine (auth : option string) (body : ClaimBody) (now : Z) (s : Server)
    : Response * Server :=
  match requireAuth auth s with
  | None => (RespError 401 UNAUTHENTICATED, s)
  | Some (uid, user) =>
      match validIndex (b_h3Index body) with
      | None => (RespError 400 INVALID_H3_INDEX, s)
      | Some h =>
          if decide (h ∈ ownedHexes user) then
            (RespFail ALREADY_MINED (balance user) (Some true), s)
          else if decide (h ∈ buildGlobalOwnedHexesSet s) then
            (RespFail OWNED_BY_OTHER (balance user) (Some false), s)
          else if decide (h ∈ coastBufferHexes s) then
            (RespFail FORBIDDEN_ZONE (balance user) (Some false), s)
          else
            let user' := set_balance (balance user + 1)
                           (set_ownedHexes (ownedHexes user ∪ {[ h ]}) user) in
            let s1 := put_user uid user' s in
            let s2 := with_miningEvents (fun l => l ++ [mkMiningEvent now uid h]) s1 in
            let s3 := saveMiningEvents s2 in
            let s4 := saveUsers s3 in
            (RespMined (balance user'), s4)
      end
  end.

(** ** External collaborators *)

(** The functions of h3-js the server calls.  Each of them throws on an
    index it does not accept. *)
Record H3Lib := mkH3Lib {
  cellToLatLng : string -> throws (Q * Q);
  cellToBoundary : string -> throws (list (Q * Q));
  gridDisk : string -> nat -> throws (list string);
  gridPathCells : string -> string -> throws (list string);
  latLngToCell : Q -> Q -> nat -> throws string;
}.

Record OverpassElement := mkElement {
  el_type : string;
  el_tags : option (gmap string string);
}.

(** What one [fetch] of [overpassFetch] comes to. *)
Inductive FetchOutcome :=
  (* response.ok, with the [elements] field of the parsed body *)
  | FetchOk (elements : option (list OverpassElement))
  (* a response whose status is not 2xx *)
  | FetchStatus (status : Z)
  (* [fetch] or [response.json()] threw *)
  | FetchThrows (message : string).

(** The Overpass service as one query sees it: the outcome of the request
    sent to [endpoint] at attempt number [attempt]. *)
Definition Upstream : Type := string -> nat -> FetchOutcome.

Definition OVERPASS_ENDPOINTS : list string :=
  [ "https://overpass-api.de/api/interpreter";
    "https://overpass.kumi.systems/api/interpreter";
    "https://overpass.nchc.org.tw/api/interpreter" ].

Definition maxAttempts : nat := 4.

(** [overpassFetch]: the [for] loop, [remaining] iterations from [attempt]
    on.  The [throw] for a status that is not retried sits inside the [try],
    so the [catch] below it retries it like a network error. *)
Fixpoint overpassFetch_from (net : Upstream) (remaining attempt : nat)
    : throws (list OverpassElement) :=
  match remaining with
  | O => inl "Overpass error: exhausted retries"
  | S remaining' =>
      let endpoint :=
        default "" (OVERPASS_ENDPOINTS !! (attempt mod length OVERPASS_ENDPOINTS)%nat) in
      let next := overpassFetch_from net remaining' (S attempt) in
      let caught (message : string) :=
        if (attempt <? maxAttempts - 1)%nat then next else inl message in
      match net endpoint attempt with
      | FetchOk elements => inr (default [] elements)
      | FetchStatus status =>
          if (status =? 429) || ((500 <=? status) && (status <=? 599)) then next
          else caught ("Overpass error: " +:+ pretty status)
      | FetchThrows message => caught message
      end
  end.

Definition overpassFetch (net : Upstream) : throws (list OverpassElement) :=
  overpassFetch_from net maxAttempts 0.

(** ** Tag scanning *)

(** [tags.k === v] *)
Definition tagIs (tags : gmap string string) (k v : string) : bool :=
  bool_decide (tags !! k = Some v).

(** [tags.k] in a condition: present and not the empty string. *)
Definition tagSet (tags : gmap string string) (k : string) : bool :=
  match tags !! k with
  | Some v => negb (String.eqb v "")
  | None => false
  end.

(** The local variables of the scanning loop. *)
Record Flags := mkFlags {
  hasMainRoad : bool;
  hasSea : bool;
  hasNature : bool;
  hasUrban : bool;
  hasMilitary : bool;
  hasHospital : bool;
  hasPrisonOrGovernment : bool;
  hasCoast : bool;
  hasCliff : bool;
  hasRoad : bool;
  roadClass : option string;
}.

Definition noFlags : Flags :=
  mkFlags false false false false false false false false false false None.

(** [roadPriority[k] ?? 0] *)
Definition roadPriority (k : string) : Z :=
  if String.eqb k "motorway" then 4
  else if String.eqb k "trunk" then 3
  else if String.eqb k "primary" then 2
  else if String.eqb k "secondary" then 1
  else 0.

(** [mainRoads.has(k)] *)
Definition mainRoads (k : string) : bool :=
  String.eqb k "motorway" || String.eqb k "trunk".

(** The strongest road class seen so far. *)
Definition strongerRoadClass (seen : option string) (highway : string) : option string :=
  let current := match seen with Some rc => roadPriority rc | None => 0 end in
  let next := roadPriority highway in
  if current <? next then Some highway else seen.

(** The conditions of the [if] statements of the loop body. *)
Definition militaryTag (tags : gmap string string) : bool :=
  tagIs tags "landuse" "military" || tagSet tags "military".

Definition hospitalTag (tags : gmap string string) : bool :=
  tagIs tags "amenity" "hospital".

Definition prisonOrGovernmentTag (tags : gmap string string) : bool :=
  tagIs tags "amenity" "prison" || tagIs tags "building" "government".

Definition highwayTag (tags : gmap string string) : bool := tagSet tags "highway".

Definition mainRoadTag (tags : gmap string string) : bool :=
  highwayTag tags && mainRoads (default "" (tags !! "highway")).

Definition seaTag (tags : gmap string string) : bool :=
  tagIs tags "natural" "sea" || tagIs tags "natural" "water"
  || tagIs tags "place" "sea" || tagSet tags "water".

Definition coastTag (tags : gmap string string) : bool :=
  tagIs tags "natural" "coastline" || tagIs tags "natural" "beach"
  || tagIs tags "leisure" "beach".

Definition cliffTag (tags : gmap string string) : bool :=
  tagIs tags "natural" "cliff".

Definition natureTag (tags : gmap string string) : bool :=
  tagIs tags "leisure" "park" || tagIs tags "landuse" "forest"
  || tagIs tags "natural" "wood".

Definition urbanTag (tags : gmap string string) : bool :=
  tagSet tags "building"
  || tagIs tags "landuse" "residential" || tagIs tags "landuse" "commercial"
  || tagIs tags "landuse" "industrial"
  || tagIs tags "place" "city" || tagIs tags "place" "town"
  || tagIs tags "place" "village".

(** One iteration of the loop of [inferZoneTypeFromOverpass]. *)
Definition scanBBox (f : Flags) (el : OverpassElement) : Flags :=
  let tags := default ∅ (el_tags el) in
  {| hasMilitary := hasMilitary f || militaryTag tags;
     hasHospital := hasHospital f || hospitalTag tags;
     hasPrisonOrGovernment := hasPrisonOrGovernment f || prisonOrGovernmentTag tags;
     hasRoad := hasRoad f || highwayTag tags;
     roadClass :=
       if highwayTag tags
       then strongerRoadClass (roadClass f) (default "" (tags !! "highway"))
       else roadClass f;
     hasMainRoad := hasMainRoad f || mainRoadTag tags;
     hasSea := hasSea f || seaTag tags;
     hasCoast := hasCoast f || coastTag tags;
     hasCliff := hasCliff f || cliffTag tags;
     hasNature := hasNature f || natureTag tags;
     hasUrban := hasUrban f || urbanTag tags |}.

(** One iteration of the loop of [inferZoneTypeAtCentroid], which has no
    coast and no cliff variable. *)
Definition scanCentroid (f : Flags) (el : OverpassElement) : Flags :=
  let tags := default ∅ (el_tags el) in
  {| hasMilitary := hasMilitary f || militaryTag tags;
     hasHospital := hasHospital f || hospitalTag tags;
     hasPrisonOrGovernment := hasPrisonOrGovernment f || prisonOrGovernmentTag tags;
     hasRoad := hasRoad f || highwayTag tags;
     roadClass :=
       if highwayTag tags
       then strongerRoadClass (roadClass f) (default "" (tags !! "highway"))
       else roadClass f;
     hasMainRoad := hasMainRoad f || mainRoadTag tags;
     hasSea := hasSea f || seaTag tags;
     hasCoast := hasCoast f;
     hasCliff := hasCliff f;
     hasNature := hasNature f || natureTag tags;
     hasUrban := hasUrban f || urbanTag tags |}.

Record InferredZone := mkInferredZone {
  zoneType : ZoneType;
  debug : list string;
  z_hasRoad : option bool;
  z_roadClass : option string;
}.

(** [a > b] on finite numbers. *)
Definition Qgtb (a b : Q) : bool := negb (Qle_bool a b).

(** ** The requests that overlap an async handler *)

(** The handlers of the classification routes and of drive mode are [async]:
    while one of them waits for the map service, the event loop runs the
    other requests, and the handler goes on in the state they leave.  An
    [Interference] is what they do to the globals during one such wait;
    [alone] is no request in between. *)
Definition Interference : Type := Server -> Server.

Definition alone : Interference := fun s => s.

Section Engine.

Context (h3 : H3Lib).
(** [String.prototype.trim] and [String.prototype.toLowerCase]. *)
Context (trim toLowerCase : string -> string).

(** ** Coastal safety buffer *)

(** The loop of [markCoastAndBuffer]: the set and the [changed] variable. *)
Definition addMissing (acc : gset string * bool) (idx : string) : gset string * bool :=
  if decide (idx ∈ acc.1) then acc else (acc.1 ∪ {[ idx ]}, true).

(** [markCoastAndBuffer]: a [gridDisk] that throws is ignored. *)
Definition markCoastAndBuffer (h : string) (s : Server) : Server :=
  match gridDisk h3 h 4 with
  | inl _ => s
  | inr disk =>
      let '(hexes, changed) := foldl addMissing (coastBufferHexes s, false) disk in
      let s1 := with_coastBuffer (fun _ => hexes) s in
      if changed then saveCoastBuffer s1 else s1
  end.

(** [nonOverridable.has(z)] of [applyCoastBufferFromCache]. *)
Definition nonOverridable (z : ZoneType) : bool :=
  match z with
  | MILITARY | PRISON | HOSPITAL | MAIN_ROAD | CLIFF => true
  | _ => false
  end.

(** [hexCache[idx]?.zoneType === 'COAST'] *)
Definition cachedCoast (s : Server) (idx : string) : bool :=
  match hexCache s !! idx with
  | Some entry => bool_decide (ce_zoneType entry = COAST)
  | None => false
  end.

(** [applyCoastBufferFromCache]: reads the cache, writes nothing. *)
Definition applyCoastBufferFromCache (h : string) (base : InferredZone) (s : Server)
    : InferredZone :=
  if nonOverridable (zoneType base) then base
  else
    match gridDisk h3 h 3 with
    | inl _ => base
    | inr disk =>
        if existsb (cachedCoast s) disk then
          mkInferredZone COAST
            (debug base ++ ["Coast buffer: within 3 hexes of cached coastline"])
            (z_hasRoad base) (z_roadClass base)
        else base
    end.

(** ** Zone classifier *)

(** [fallbackZoneType]: latitude only. *)
Definition fallbackZoneType (h : string) : throws ZoneType :=
  match cellToLatLng h3 h with
  | inl e => inl e
  | inr (lat, _) =>
      if Qgtb lat 73 || Qgtb (-73) lat then inr SEA else inr INTERURBAN
  end.

(** [inferZoneTypeFromOverpass], the bounding-box ("area") classifier.  The
    only write is the one of [markCoastAndBuffer]. *)
Definition inferZoneTypeFromOverpass (h : string) (net : Upstream) (s : Server)
    : throws InferredZone * Server :=
  match cellToBoundary h3 h with
  | inl e => (inl e, s)
  | inr _ =>
      match overpassFetch net with
      | inl e => (inl e, s)
      | inr elements =>
          let f := foldl scanBBox noFlags elements in
          let result (z : ZoneType) (line : string) : throws InferredZone :=
            inr (mkInferredZone z [line] (Some (hasRoad f)) (roadClass f)) in
          if hasMilitary f || hasPrisonOrGovernment f then
            if hasMilitary f then (result MILITARY "OSM: military tag detected", s)
            else (result PRISON "OSM: prison/government tag detected", s)
          else if hasHospital f then
            (result HOSPITAL "OSM: hospital tag detected", s)
          else if hasMainRoad f then
            (result MAIN_ROAD "OSM: main road detected (motorway/trunk)", s)
          else if hasCliff f then
            (result CLIFF "OSM: cliff tag detected", s)
          else if hasCoast f then
            (result COAST "OSM: coastline/beach tag detected", markCoastAndBuffer h s)
          else if hasUrban f then
            (result URBAN "OSM: urban fabric tag detected", s)
          else if hasSea f then
            (result SEA "OSM: water/sea tag detected", s)
          else if hasNature f then
            (result NATURE_RESERVE "OSM: park / forest / wood detected", s)
          else
            (result INTERURBAN
               "OSM: no matching tags found, defaulting to INTERURBAN (global fallback)", s)
      end
  end.

(** [inferZoneTypeAtCentroid], the centroid ("local") classifier.  It writes
    nothing. *)
Definition inferZoneTypeAtCentroid (h : string) (net : Upstream) : throws InferredZone :=
  match cellToLatLng h3 h with
  | inl e => inl e
  | inr _ =>
      match overpassFetch net with
      | inl e => inl e
      | inr elements =>
          let f := foldl scanCentroid noFlags elements in
          let result (z : ZoneType) (line : string) : throws InferredZone :=
            inr (mkInferredZone z [line] (Some (hasRoad f)) (roadClass f)) in
          if hasMilitary f || hasPrisonOrGovernment f then
            if hasMilitary f then result MILITARY "Centroid: military tag detected"
            else result PRISON "Centroid: prison/government tag detected"
          else if hasHospital f then
            result HOSPITAL "Centroid: hospital tag detected"
          else if hasMainRoad f then
            result MAIN_ROAD "Centroid: main road detected (motorway/trunk)"
          else if hasUrban f then
            result URBAN "Centroid: urban fabric tag detected"
          else if hasSea f then
            result SEA "Centroid: water/sea tag detected"
          else if hasNature f then
            result NATURE_RESERVE "Centroid: park / forest / wood detected"
          else
            result SEA "Centroid: no matching tags found, defaulting to SEA (global fallback)"
      end
  end.

(** ** Classification routes *)

(** [hexCache] is a plain object, and [hexCache[h3Index]] also finds the
    properties it inherits from [Object.prototype].  The route never stores
    an entry under one of these names (the lookup is truthy, so the
    assignment is not reached); an own entry under such a name, from the
    cache file, is found first. *)
Definition inheritedKey (k : string) : bool :=
  bool_decide
    (k ∈ [ "constructor"; "__proto__"; "hasOwnProperty"; "isPrototypeOf";
           "propertyIsEnumerable"; "toLocaleString"; "toString"; "valueOf";
           "__defineGetter__"; "__defineSetter__"; "__lookupGetter__";
           "__lookupSetter__" ]).

(** The end of [GET /api/hex/:h3Index]: the read-time coast widening of the
    entry, and the answer. *)
Definition getHexRespond (h : string) (entry : HexCacheEntry) (s : Server)
    : Response * Server :=
  let coastAware :=
    applyCoastBufferFromCache h
      (mkInferredZone (ce_zoneType entry) (ce_debug entry) None None) s in
  (RespHex h (zoneType coastAware) (debug coastAware) None None, s).

(** [GET /api/hex/:h3Index] from the [await] on: the area classifier, then
    the cache write or the fallback.  Only the branch of a successful
    classification assigns to [hexCache]. *)
Definition getHexMiss (h : string) (net : Upstream) (s : Server) : Response * Server :=
  match inferZoneTypeFromOverpass h net s with
  | (inr inferred, s1) =>
      let entry := mkHexCacheEntry (zoneType inferred) (debug inferred) in
      let s2 := with_hexCache (fun c => <[h := entry]> c) s1 in
      getHexRespond h entry (saveHexCache s2)
  | (inl message, s1) =>
      match fallbackZoneType h with
      | inl e => (RespUnhandled e, s1)
      | inr z =>
          getHexRespond h
            (mkHexCacheEntry z
               [ "Overpass failed in /api/hex: " +:+ message;
                 "Using hash-based zoneType fallback for this hex" ])
            s1
      end
  end.

(** What [let entry = hexCache[h3Index]] followed by [if (!entry)] finds. *)
Inductive CacheLookup :=
  | CacheHit (entry : HexCacheEntry)   (* an own entry *)
  | CacheInherited                     (* a property of [Object.prototype] *)
  | CacheMiss.                         (* [undefined] *)

Definition lookupHexCache (h : string) (s : Server) : CacheLookup :=
  match hexCache s !! h with
  | Some entry => CacheHit entry
  | None => if inheritedKey h then CacheInherited else CacheMiss
  end.

(** [GET /api/hex/:h3Index], run without another request in between: cache
    first, then the area classifier, then the fallback.  An inherited
    property is taken for an entry; its [zoneType] and [debug] are
    [undefined], the widening returns them as they are (its spread of
    [base.debug] throws inside its own [try]), and the answer carries the
    index alone. *)
Definition getHex (h : string) (net : Upstream) (s : Server) : Response * Server :=
  if decide (h = "") then (RespError 400 INVALID_H3_INDEX, s)
  else
    match lookupHexCache h s with
    | CacheHit entry => getHexRespond h entry s
    | CacheInherited => (RespHexBare h, s)
    | CacheMiss => getHexMiss h net s
    end.

(** [GET /api/hex/:h3Index] with the requests that overlap it: the cache is
    read before the [await], and everything after it, the cache write
    included, runs in the state [others] leaves.  The other two
    classification routes read no global before their [await]: an
    overlapped call of theirs is the call on the state the others leave. *)
Definition getHexAwait (others : Interference) (h : string) (net : Upstream)
    (s : Server) : Response * Server :=
  if decide (h = "") then (RespError 400 INVALID_H3_INDEX, s)
  else
    match lookupHexCache h s with
    | CacheHit entry => getHexRespond h entry s
    | CacheInherited => (RespHexBare h, s)
    | CacheMiss => getHexMiss h net (others s)
    end.

(** [GET /api/hex/:h3Index/classify-centroid] *)
Definition getHexClassifyCentroid (h : string) (net : Upstream) (s : Server)
    : Response * Server :=
  match inferZoneTypeAtCentroid h net with
  | inr inferred =>
      (RespHex h (zoneType inferred) (debug inferred)
         (z_hasRoad inferred) (z_roadClass inferred), s)
  | inl message =>
      match fallbackZoneType h with
      | inl e => (RespUnhandled e, s)
      | inr z =>
          (RespHex h z ["Centroid Overpass failed: " +:+ message; "Using fallback"]
             None None, s)
      end
  end.

(** [GET /api/hex/:h3Index/osm] *)
Definition getHexOsm (h : string) (net : Upstream) (s : Server) : Response * Server :=
  match inferZoneTypeFromOverpass h net s with
  | (inr inferred, s1) =>
      let coastAware := applyCoastBufferFromCache h inferred s1 in
      (RespHex h (zoneType coastAware) (debug coastAware)
         (z_hasRoad inferred) (z_roadClass inferred), s1)
  | (inl message, s1) =>
      match fallbackZoneType h with
      | inl e => (RespUnhandled e, s1)
      | inr z =>
          (RespHex h z ["Overpass failed: " +:+ message; "Using hash-based fallback"]
             None None, s1)
      end
  end.

(** ** Spawn *)

(** The four [typeof]/[Number.isFinite] tests on the geolocation proof. *)
Definition gpsProof (body : ClaimBody) : option (Q * Q * Q * Q) :=
  match b_lat body, b_lon body, b_accuracyM body, b_gpsAt body with
  | Num lat, Num lon, Num accuracyM, Num gpsAt => Some (lat, lon, accuracyM, gpsAt)
  | _, _, _, _ => None
  end.

(** [POST /api/spawn].  After the geolocation checks the only ownership
    test is the one against the caller's own set. *)
Definition spawn (auth : option string) (body : ClaimBody) (now : Z) (s : Server)
    : Response * Server :=
  match requireAuth auth s with
  | None => (RespError 401 UNAUTHENTICATED, s)
  | Some (uid, user) =>
      match validIndex (b_h3Index body) with
      | None => (RespError 400 INVALID_H3_INDEX, s)
      | Some h =>
          match gpsProof body with
          | None => (RespFail GPS_REQUIRED (balance user) (Some false), s)
          | Some (lat, lon, accuracyM, gpsAt) =>
              if Qgtb (inject_Z now - gpsAt) GPS_MINE_MAX_AGE_MS then
                (RespFail GPS_STALE (balance user) (Some false), s)
              else if Qgtb accuracyM GPS_MINE_ACCURACY_THRESHOLD_M then
                (RespFail GPS_ACCURACY_LOW (balance user) (Some false), s)
              else
                match latLngToCell h3 lat lon 11 with
                | inl _ => (RespFail GPS_REQUIRED (balance user) (Some false), s)
                | inr gpsHex =>
                    if decide (gpsHex = "") then
                      (RespFail GPS_REQUIRED (balance user) (Some false), s)
                    else if decide (gpsHex = h) then
                      if decide (h ∈ ownedHexes user) then
                        (RespFail ALREADY_OWNED (balance user) (Some true), s)
                      else if balance user <? SPAWN_COST_GHX then
                        (RespFail INSUFFICIENT_GHX (balance user) (Some false), s)
                      else
                        let user1 := set_balance (balance user - SPAWN_COST_GHX) user in
                        let s1 := collectTreasuryFee SPAWN_COST_GHX (put_user uid user1 s) in
                        let user2 := set_ownedHexes (ownedHexes user1 ∪ {[ h ]}) user1 in
                        let s2 := put_user uid user2 s1 in
                        let s3 :=
                          with_miningEvents (fun l => l ++ [mkMiningEvent now uid h]) s2 in
                        let s4 := saveUsers (saveMiningEvents s3) in
                        (RespSpawned (balance user2) SPAWN_COST_GHX, s4)
                    else
                      (RespFail GPS_MISMATCH (balance user) (Some false), s)
                end
          end
      end
  end.

(** ** Drive mode *)

(** [inferred.zoneType === 'MAIN_ROAD' || inferred.hasRoad] *)
Definition isRoadHex (inferred : InferredZone) : bool :=
  bool_decide (zoneType inferred = MAIN_ROAD) || default false (z_hasRoad inferred).

(** The body of the candidate loop shared by the two drive handlers: a cell
    is kept when the caller does not own it and the local classifier finds a
    road; a classification that throws skips the cell.  [nets idx] is the
    Overpass service as the query for [idx] sees it. *)
Definition claimable (user : User) (nets : string -> Upstream) (idx : string) : bool :=
  if decide (idx ∈ ownedHexes user) then false
  else
    match inferZoneTypeAtCentroid idx (nets idx) with
    | inr inferred => isRoadHex inferred
    | inl _ => false
    end.

(** The claiming loop of [/api/drive/simulate]: one unit and one event per
    element of [newlyClaimed]. *)
Definition claimOne (uid : string) (now : Z) (s : Server) (idx : string) : Server :=
  match usersById s !! uid with
  | None => s
  | Some u =>
      let u' := set_balance (balance u + 1) (set_ownedHexes (ownedHexes u ∪ {[ idx ]}) u) in
      with_miningEvents (fun l => l ++ [mkMiningEvent now uid idx]) (put_user uid u' s)
  end.

(** [POST /api/drive/simulate] *)
Definition driveSimulate (auth : option string) (centerH3Index : option string)
    (nets : string -> Upstream) (now : Z) (s : Server) : Response * Server :=
  match requireAuth auth s with
  | None => (RespError 401 UNAUTHENTICATED, s)
  | Some (uid, user) =>
      match validIndex centerH3Index with
      | None => (RespError 400 INVALID_H3_INDEX, s)
      | Some center =>
          match cellToLatLng h3 center with
          | inl _ => (RespError 400 INVALID_H3_INDEX, s)
          | inr _ =>
              if balance user <? DRIVE_COST_GHX then
                (RespFail INSUFFICIENT_GHX (balance user) None, s)
              else
                match gridDisk h3 center DRIVE_DISK_K with
                | inl e => (RespUnhandled e, s)
                | inr candidates =>
                    let newlyClaimed := filter (fun idx => claimable user nets idx) candidates in
                    match newlyClaimed with
                    | [] => (RespFail NO_ROAD_HEXES (balance user) None, s)
                    | _ =>
                        let user1 := set_balance (balance user - DRIVE_COST_GHX) user in
                        let s1 := collectTreasuryFee DRIVE_COST_GHX (put_user uid user1 s) in
                        let s2 := foldl (claimOne uid now) s1 newlyClaimed in
                        let s3 := saveUsers (saveMiningEvents s2) in
                        (RespDriveSimulate (length newlyClaimed) DRIVE_COST_GHX
                           (default 0 (balance <$> usersById s3 !! uid)) newlyClaimed, s3)
                    end
                end
          end
      end
  end.

(** The claiming loop of [/api/drive/step]: the set grows and an event is
    pushed; the balance was credited before the loop. *)
Definition stepOne (uid : string) (now : Z) (s : Server) (idx : string) : Server :=
  match usersById s !! uid with
  | None => s
  | Some u =>
      let u' := set_ownedHexes (ownedHexes u ∪ {[ idx ]}) u in
      with_miningEvents (fun l => l ++ [mkMiningEvent now uid idx]) (put_user uid u' s)
  end.

(** The cells [/api/drive/step] is about to claim: the road cells of the
    path the caller does not own, or the target alone when there is none and
    the caller does not own it. *)
Definition newlyMinedOf (user : User) (nets : string -> Upstream) (path : list string)
    (toH3 : string) : list string :=
  let onPath := filter (fun idx => claimable user nets idx) path in
  match onPath with
  | [] => if decide (toH3 ∈ ownedHexes user) then [] else [toH3]
  | _ => onPath
  end.

(** [POST /api/drive/step] *)
Definition driveStep (auth : option string) (fromField toField : option string)
    (nets : string -> Upstream) (now : Z) (s : Server) : Response * Server :=
  match requireAuth auth s with
  | None => (RespError 401 UNAUTHENTICATED, s)
  | Some (uid, user) =>
      match validIndex fromField, validIndex toField with
      | Some fromH3, Some toH3 =>
          if decide (fromH3 = toH3) then (RespFail SAME_HEX (balance user) None, s)
          else
            match cellToLatLng h3 fromH3, cellToLatLng h3 toH3 with
            | inr _, inr _ =>
                let path :=
                  match gridPathCells h3 fromH3 toH3 with
                  | inr p => p
                  | inl _ => [toH3]
                  end in
                let newlyMined := newlyMinedOf user nets path toH3 in
                let N := Z.of_nat (length newlyMined) in
                if N =? 0 then (RespFail NO_ROAD_HEXES (balance user) None, s)
                else
                  let grossReward := N in
                  let fee := N / 10 in
                  let netDelta := grossReward - fee in
                  let user1 := set_balance (balance user + netDelta) user in
                  let s1 := collectTreasuryFee fee (put_user uid user1 s) in
                  let s2 := foldl (stepOne uid now) s1 newlyMined in
                  let s3 := saveUsers (saveMiningEvents s2) in
                  (RespDriveStep newlyMined N grossReward fee netDelta (balance user1), s3)
            | _, _ => (RespError 400 INVALID_H3_INDEX, s)
            end
      | _, _ => (RespError 400 INVALID_H3_INDEX, s)
      end
  end.

(** *** Drive mode with the requests that overlap it *)

(** The classification half of the loop body: the local classifier finds a
    road at the centroid of [idx]; a classification that throws finds
    none. *)
Definition roadAt (nets : string -> Upstream) (idx : string) : bool :=
  match inferZoneTypeAtCentroid idx (nets idx) with
  | inr inferred => isRoadHex inferred
  | inl _ => false
  end.

(** The candidate loop of the two drive handlers.  [user.ownedHexes.has(idx)]
    is read in the state as it is when the loop reaches [idx]; a cell that
    passes is classified, and during that [await], the [k]-th of the call,
    the other requests do [others k]; a cell the caller owns is skipped
    without a wait.  The handler holds the account object [requireAuth]
    found, which is the record stored under [uid]: no handler stores another
    object under an identifier in use. *)
Fixpoint scanCandidates (others : nat -> Interference) (uid : string)
    (nets : string -> Upstream) (k : nat) (candidates : list string) (s : Server)
    : list string * Server :=
  match candidates with
  | [] => ([], s)
  | idx :: rest =>
      if decide (idx ∈ ownedBy s uid) then scanCandidates others uid nets k rest s
      else
        let '(kept, s') := scanCandidates others uid nets (S k) rest (others k s) in
        (if roadAt nets idx then idx :: kept else kept, s')
  end.

(** The claiming loop of [/api/drive/simulate] on doubles:
    [user.ownedHexes.add(idx)], [user.balance += 1] and one event. *)
Definition claimOneNum (uid : string) (now : Z) (s : Server) (idx : string) : Server :=
  match usersById s !! uid with
  | None => s
  | Some u =>
      let u' := set_balance (numAdd (balance u) 1)
                  (set_ownedHexes (ownedHexes u ∪ {[ idx ]}) u) in
      with_miningEvents (fun l => l ++ [mkMiningEvent now uid idx]) (put_user uid u' s)
  end.

(** The caller's account object as it is in [s]; [user] is the record
    [requireAuth] found. *)
Definition accountNow (uid : string) (user : User) (s : Server) : User :=
  default user (usersById s !! uid).

(** [POST /api/drive/simulate] with the requests that overlap it and with
    the arithmetic of doubles: the balance is tested before the loop, the
    cells are claimed and paid for in the state the loop ends in. *)
Definition driveSimulateAwait (others : nat -> Interference) (auth : option string)
    (centerH3Index : option string) (nets : string -> Upstream) (now : Z) (s : Server)
    : Response * Server :=
  match requireAuth auth s with
  | None => (RespError 401 UNAUTHENTICATED, s)
  | Some (uid, user) =>
      match validIndex centerH3Index with
      | None => (RespError 400 INVALID_H3_INDEX, s)
      | Some center =>
          match cellToLatLng h3 center with
          | inl _ => (RespError 400 INVALID_H3_INDEX, s)
          | inr _ =>
              if numLt (balance user) DRIVE_COST_GHX then
                (RespFail INSUFFICIENT_GHX (balance user) None, s)
              else
                match gridDisk h3 center DRIVE_DISK_K with
                | inl e => (RespUnhandled e, s)
                | inr candidates =>
                    let '(newlyClaimed, s0) :=
                      scanCandidates others uid nets 0 candidates s in
                    let user0 := accountNow uid user s0 in
                    match newlyClaimed with
                    | [] => (RespFail NO_ROAD_HEXES (balance user0) None, s0)
                    | _ =>
                        let user1 := set_balance (numSub (balance user0) DRIVE_COST_GHX) user0 in
                        let s1 := collectTreasuryFeeNum DRIVE_COST_GHX (put_user uid user1 s0) in
                        let s2 := foldl (claimOneNum uid now) s1 newlyClaimed in
                        let s3 := saveUsers (saveMiningEvents s2) in
                        (RespDriveSimulate (length newlyClaimed) DRIVE_COST_GHX
                           (default 0 (balance <$> usersById s3 !! uid)) newlyClaimed, s3)
                    end
                end
          end
      end
  end.

(** [POST /api/drive/step] with the requests that overlap it and with the
    arithmetic of doubles: the fallback to the target cell, the reward and
    the fee are computed in the state the loop ends in. *)
Definition driveStepAwait (others : nat -> Interference) (auth : option string)
    (fromField toField : option string) (nets : string -> Upstream) (now : Z)
    (s : Server) : Response * Server :=
  match requireAuth auth s with
  | None => (RespError 401 UNAUTHENTICATED, s)
  | Some (uid, user) =>
      match validIndex fromField, validIndex toField with
      | Some fromH3, Some toH3 =>
          if decide (fromH3 = toH3) then (RespFail SAME_HEX (balance user) None, s)
          else
            match cellToLatLng h3 fromH3, cellToLatLng h3 toH3 with
            | inr _, inr _ =>
                let path :=
                  match gridPathCells h3 fromH3 toH3 with
                  | inr p => p
                  | inl _ => [toH3]
                  end in
                let '(onPath, s0) := scanCandidates others uid nets 0 path s in
                let user0 := accountNow uid user s0 in
                let newlyMined :=
                  match onPath with
                  | [] => if decide (toH3 ∈ ownedHexes user0) then [] else [toH3]
                  | _ => onPath
                  end in
                let N := Z.of_nat (length newlyMined) in
                if N =? 0 then (RespFail NO_ROAD_HEXES (balance user0) None, s0)
                else
                  let grossReward := N in
                  let fee := numFee N in
                  let netDelta := numSub grossReward fee in
                  let user1 := set_balance (numAdd (balance user0) netDelta) user0 in
                  let s1 := collectTreasuryFeeNum fee (put_user uid user1 s0) in
                  let s2 := foldl (stepOne uid now) s1 newlyMined in
                  let s3 := saveUsers (saveMiningEvents s2) in
                  (RespDriveStep newlyMined N grossReward fee netDelta (balance user1), s3)
            | _, _ => (RespError 400 INVALID_H3_INDEX, s)
            end
      | _, _ => (RespError 400 INVALID_H3_INDEX, s)
      end
  end.

(** ** Users *)

(** [s.includes(c)] for a one-character needle; character 64 is the at sign. *)
Fixpoint includes (c : Ascii.ascii) (str : string) : bool :=
  match str with
  | EmptyString => false
  | String a rest => if Ascii.eqb a c then true else includes c rest
  end.

(** [s.length]: the number of UTF-16 code units of a string, which is held
    here as its UTF-8 bytes.  A byte below 128 or the lead byte of a two- or
    three-byte sequence stands for one unit, a continuation byte for none,
    and the lead byte of a four-byte sequence for the two units of a
    surrogate pair. *)
Fixpoint jsLength (str : string) : nat :=
  match str with
  | EmptyString => 0
  | String a rest =>
      let b := Ascii.nat_of_ascii a in
      ((if (b <? 128) then 1
        else if (b <? 192) then 0
        else if (b <? 240) then 1
        else 2) + jsLength rest)%nat
  end.

(** [findUserByEmail] as a test: some user's lower-cased address equals the
    trimmed, lower-cased argument. *)
Definition findUserByEmail (emailRaw : string) (s : Server) : bool :=
  let wanted := toLowerCase (trim emailRaw) in
  existsb (fun kv : string * User => String.eqb (toLowerCase (email kv.2)) wanted)
          (map_to_list (usersById s)).

(** [createUser].  [newId] is the value of [crypto.randomUUID()] and [hash]
    the value of [bcrypt.hashSync(passwordRaw, 10)]. *)
Definition createUser (emailRaw : string) (newId hash : string) (s : Server) : User * Server :=
  let user :=
    mkUser newId (toLowerCase (trim emailRaw)) hash 10 1000 {[ DEFAULT_START_HEX ]} in
  (user, saveUsers (put_user newId user s)).

(** [POST /api/auth/register] *)
Definition register (emailField passwordField : option string) (newId hash : string)
    (s : Server) : Response * Server :=
  match emailField with
  | None => (RespError 400 INVALID_EMAIL, s)
  | Some emailRaw =>
      if negb (includes (Ascii.ascii_of_nat 64) emailRaw) then (RespError 400 INVALID_EMAIL, s)
      else
        match passwordField with
        | None => (RespError 400 INVALID_PASSWORD, s)
        | Some password =>
            if (jsLength password <? 6)%nat then (RespError 400 INVALID_PASSWORD, s)
            else if findUserByEmail emailRaw s then (RespError 400 EMAIL_IN_USE, s)
            else
              let '(user, s1) := createUser emailRaw newId hash s in
              (RespRegistered user, s1)
        end
  end.

(** [POST /api/admin/reset-hexes]: every user is left with the default start
    cell alone. *)
Definition adminReset (auth : option string) (s : Server) : Response * Server :=
  match requireAuth auth s with
  | None => (RespError 401 UNAUTHENTICATED, s)
  | Some _ =>
      let resetCount :=
        length (filter (fun kv : string * User => (1 <? size (ownedHexes kv.2))%nat)
                       (map_to_list (usersById s))) in
      let s1 := with_users (fmap (set_ownedHexes {[ DEFAULT_START_HEX ]})) s in
      (RespReset resetCount, saveUsers s1)
  end.

(** ** The server as a transition system *)

(** One request, with the results of the external calls it makes. *)
Inductive Op :=
  | OpRegister (emailField passwordField : option string) (newId hash : string)
  | OpMine (auth : option string) (body : ClaimBody) (now : Z)
  | OpSpawn (auth : option string) (body : ClaimBody) (now : Z)
  | OpDriveSimulate (auth : option string) (centerH3Index : option string)
                    (nets : string -> Upstream) (now : Z)
  | OpDriveStep (auth : option string) (fromH3 toH3 : option string)
                (nets : string -> Upstream) (now : Z)
  | OpGetHex (h : string) (net : Upstream)
  | OpGetHexOsm (h : string) (net : Upstream)
  | OpClassifyCentroid (h : string) (net : Upstream)
  | OpAdminReset (auth : option string).

Definition handle (op : Op) (s : Server) : Response * Server :=
  match op with
  | OpRegister e p newId hash => register e p newId hash s
  | OpMine auth body now => mine auth body now s
  | OpSpawn auth body now => spawn auth body now s
  | OpDriveSimulate auth center nets now => driveSimulate auth center nets now s
  | OpDriveStep auth fromH3 toH3 nets now => driveStep auth fromH3 toH3 nets now s
  | OpGetHex h net => getHex h net s
  | OpGetHexOsm h net => getHexOsm h net s
  | OpClassifyCentroid h net => getHexClassifyCentroid h net s
  | OpAdminReset auth => adminReset auth s
  end.

(** The state after a sequence of requests served one after the other. *)
Definition serve (ops : list Op) (s : Server) : Server :=
  foldl (fun st op => (handle op st).2) s ops.

End Engine.


(** ** The listing of owned cells *)

(** [GET /api/owned-hexes/global]: the caller's cells, and the cells of the
    accounts with another [id] that the caller does not hold.  [None] is the
    401 answer of [requireAuth]. *)
Definition ownedHexesGlobal (auth : option string) (s : Server)
    : option (gset string * gset string) :=
  match requireAuth auth s with
  | None => None
  | Some (_, user) =>
      let mineSet := ownedHexes user in
      let othersSet :=
        map_fold (fun _ other acc =>
                    if decide (id other = id user) then acc
                    else (ownedHexes other ∖ mineSet) ∪ acc)
                 ∅ (usersById s) in
      Some (mineSet, othersSet)
  end.

(** ** Start-up: the files and the loaders *)

(** A data file as a loader finds it: absent, present but not readable as
    JSON (the [try] block throws), or parsed. *)
Inductive File (A : Type) :=
  | Missing
  | Unreadable
  | Parsed (content : A).
Arguments Missing {A}.
Arguments Unreadable {A}.
Arguments Parsed {A} content.

(** An entry of [users.json] that passed the three [typeof ... === 'string']
    tests of [loadUsers].  The other fields are [None] when they fail the
    test [coerceStoredUserToUser] makes ([typeof] number, [Array.isArray]). *)
Record StoredUser := mkStoredUser {
  st_id : string;
  st_email : string;
  st_passwordHash : string;
  st_balance : option Z;
  st_usdtBalance : option Z;
  st_ownedHexes : option (list string);
}.

Definition coerceStoredUserToUser (stored : StoredUser) : User :=
  mkUser (st_id stored) (st_email stored) (st_passwordHash stored)
         (default 0 (st_balance stored))
         (default 1000 (st_usdtBalance stored))
         (list_to_set (default [] (st_ownedHexes stored))).


(** The legacy [demoUser.json]; a field is [None] when it fails the test
    the migration makes on it. *)
Record LegacyUser := mkLegacyUser {
  lg_id : option string;
  lg_balance : option Z;
  lg_ownedHexes : option (list string);
}.

(** An element of [miningEvents.json]; a field is [None] when it is absent
    or of another type (a [null] element has no field). *)
Record RawEvent := mkRawEvent {
  raw_timestamp : option Z;
  raw_h3Index : option string;
  raw_userId : option string;
}.

(** The data directory.  Inside [Parsed], an [option] is [None] when the
    parsed value does not have the shape the loader asks for (an array, an
    object, a number); an element of a list is [None] when the loader's
    test on the element fails. *)
Record Disk := mkDisk {
  usersFile : File (option (list (option StoredUser)));
  legacyDemoUserFile : File LegacyUser;
  hexCacheFile : File (option (gmap string HexCacheEntry));
  coastBufferFile : File (option (list (option string)));
  treasuryFile : File (option Z);
  miningEventsFile : File (option (list RawEvent));
}.


(** [loadUsers]: the map and the write its migration branch attempts.  A
    users file that exists and cannot be read gives the empty map without a
    look at the legacy file.  [demoHash] is [bcrypt.hashSync('demo', 10)]. *)
Definition loadUsers (d : Disk) (demoHash : string) : gmap string User * list FsWrite :=
  match usersFile d with
  | Parsed users =>
      (foldl (fun (m : gmap string User) (entry : option StoredUser) =>
                match entry with
                | Some u => <[st_id u := coerceStoredUserToUser u]> m
                | None => m
                end)
             ∅ (default [] users),
       [])
  | Unreadable => (∅, [])
  | Missing =>
      match legacyDemoUserFile d with
      | Parsed legacy =>
          let ownedHexes := default [] (lg_ownedHexes legacy) in
          let demo :=
            mkUser (default "demo-user" (lg_id legacy)) "demo@local" demoHash
                   (default 0 (lg_balance legacy)) 1000
                   (list_to_set (match ownedHexes with
                                 | [] => [DEFAULT_START_HEX]
                                 | _ => ownedHexes
                                 end)) in
          let map : gmap string User := {[ id demo := demo ]} in
          (map, [FsUsers map])
      | _ => (∅, [])
      end
  end.

Definition loadHexCache (d : Disk) : gmap string HexCacheEntry :=
  match hexCacheFile d with
  | Parsed (Some cache) => cache
  | _ => ∅
  end.

Definition loadCoastBuffer (d : Disk) : gset string :=
  match coastBufferFile d with
  | Parsed (Some hexes) => list_to_set (omap (fun x => x) hexes)
  | _ => ∅
  end.

Definition loadTreasury (d : Disk) : Z :=
  match treasuryFile d with
  | Parsed (Some ghxBalance) => ghxBalance
  | _ => 0
  end.

Definition loadMiningEvents (d : Disk) : list MiningEvent :=
  match miningEventsFile d with
  | Parsed (Some parsed) =>
      omap (fun e =>
              match raw_timestamp e, raw_h3Index e with
              | Some t, Some h => Some (mkMiningEvent t (default "demo-user" (raw_userId e)) h)
              | _, _ => None
              end)
           parsed
  | _ => []
  end.

(** The globals as the module initialises them. *)
Definition startup (d : Disk) (demoHash : string) : Server :=
  let '(users, writes) := loadUsers d demoHash in
  mkServer users (loadHexCache d) (loadCoastBuffer d) (loadTreasury d)
           (loadMiningEvents d) writes.


(** ** A fragment of the grid and of the map service for worked examples *)

(** The centre child of the parent of the default start cell (the index of
    the start cell with its last digit set to 0), taken as its neighbour in
    the fragment below. *)
Definition NEAR_HEX : string := "8b3f4dc1e268fff".

Definition knownCell (h : string) : bool :=
  String.eqb h DEFAULT_START_HEX || String.eqb h NEAR_HEX.

(** h3-js restricted to the two cells: every disk and every path within the
    fragment is the pair of them, coordinates north of latitude 32.0005
    resolve to [NEAR_HEX] and the others to the start cell; any other index
    is refused. *)
Definition fragmentH3 : H3Lib :=
  let guard {A : Type} (h : string) (a : A) : throws A :=
    if knownCell h then inr a else inl "Cell argument was not valid" in
  {| cellToLatLng h :=
       guard h (if String.eqb h NEAR_HEX then (320006 # 10000, 348 # 10)
                else (32 # 1, 348 # 10))%Q;
     cellToBoundary h := guard h [];
     gridDisk h k :=
       guard h (match k with
                | O => [h]
                | S _ => if String.eqb h NEAR_HEX then [NEAR_HEX; DEFAULT_START_HEX]
                         else [DEFAULT_START_HEX; NEAR_HEX]
                end);
     gridPathCells a b :=
       if knownCell a && knownCell b
       then inr (if String.eqb a b then [a] else [a; b])
       else inl "Cell argument was not valid";
     latLngToCell lat lon res :=
       if Qgtb lat (320005 # 10000)%Q then inr NEAR_HEX else inr DEFAULT_START_HEX |}.

(** An Overpass service that is down: every request fails at the network. *)
Definition upstreamDown : Upstream := fun _ _ => FetchThrows "ECONNREFUSED".

(** An Overpass service that answers every request with [elements]. *)
Definition upstreamAnswers (elements : list OverpassElement) : Upstream :=
  fun _ _ => FetchOk (Some elements).

Definition way (tags : list (string * string)) : OverpassElement :=
  mkElement "way" (Some (list_to_map tags)).

(** Two registrations on an empty server ([trim] and [toLowerCase] leave
    these addresses as they are). *)
Definition twoUsers : Server :=
  serve fragmentH3 (fun e => e) (fun e => e)
    [ OpRegister (Some "ann@example.org") (Some "secret1") "user-1" "hash-1";
      OpRegister (Some "bob@example.org") (Some "secret2") "user-2" "hash-2" ]
    emptyServer.

(** A claim body that names a cell and carries no geolocation proof. *)
Definition bareBody (h : string) : ClaimBody :=
  mkClaimBody (Some h) NotNumber NotNumber NotNumber NotNumber.

(** A claim body with a fresh, accurate geolocation proof at ([lat], 34.8),
    taken at clock 1000. *)
Definition gpsBody (h : string) (lat : Q) : ClaimBody :=
  mkClaimBody (Some h) (Num lat) (Num (348 # 10)) (Num 10) (Num 1000).


(** The second account has mined [NEAR_HEX], and the cell has since been put
    in the coastal buffer. *)
Definition contested : Server :=
  with_coastBuffer (fun _ => {[ NEAR_HEX ]})
    (mine (Some "user-2") (bareBody NEAR_HEX) 1 twoUsers).2.

(** Every centroid query finds one residential street. *)
Definition streetsEverywhere : string -> Upstream :=
  fun _ => upstreamAnswers [way [("highway", "residential")]].

(** A server whose cache holds the neighbour cell as COAST. *)
Definition coastCached : Server :=
  with_hexCache
    (fun _ => {[ NEAR_HEX := mkHexCacheEntry COAST ["OSM: coastline/beach tag detected"] ]})
    emptyServer.

(** A data directory whose users file holds one account with a balance of
    2^53. *)
Definition largeBalanceDisk : Disk :=
  mkDisk (Parsed (Some [ Some (mkStoredUser "user-1" "ann@example.org" "hash-1"
                                 (Some (2 ^ 53)) None (Some [DEFAULT_START_HEX])) ]))
         Missing Missing Missing Missing Missing.

(** The first account as registration leaves it. *)
Definition ann : User :=
  mkUser "user-1" "ann@example.org" "hash-1" 10 1000 {[ DEFAULT_START_HEX ]}.

(** * Statements *)

(** ** Ownership *)

(** The cell [c] is in the owned set of at most one user. *)
Definition singleOwner (s : Server) (c : string) : Prop :=
  ∀ uid1 uid2 u1 u2,
    usersById s !! uid1 = Some u1 → usersById s !! uid2 = Some u2 →
    c ∈ ownedHexes u1 → c ∈ ownedHexes u2 → uid1 = uid2.

(** A registration or a Mine call. *)
Definition registerOrMine (op : Op) : bool :=
  match op with
  | OpRegister _ _ _ _ | OpMine _ _ _ => true
  | _ => false
  end.



(** Every account holds the default start cell. *)
Definition everyoneHoldsStart (s : Server) : Prop :=
  ∀ uid u, usersById s !! uid = Some u → DEFAULT_START_HEX ∈ ownedHexes u.

(** ** Coastal buffer *)

(** The set handed to the most recent write of the coastal buffer file. *)
Definition lastCoastWrite (log : list FsWrite) : option (gset string) :=
  foldl (fun acc w => match w with FsCoastBuffer b => Some b | _ => acc end) None log.

(** The coastal buffer from one state to a later one: nothing is removed,
    a set that changed is the one handed to the latest write of the buffer
    file, and a set that did not change left the latest write as it was. *)
Definition bufferGrowth (s s' : Server) : Prop :=
  coastBufferHexes s ⊆ coastBufferHexes s' ∧
  (coastBufferHexes s' ≠ coastBufferHexes s →
   lastCoastWrite (fsLog s') = Some (coastBufferHexes s')) ∧
  (coastBufferHexes s' = coastBufferHexes s →
   lastCoastWrite (fsLog s') = lastCoastWrite (fsLog s)).

(** A request that leaves the classification state alone: the cache, the
    buffer and the latest write of the buffer file. *)
Definition sameClassification (s s' : Server) : Prop :=
  hexCache s' = hexCache s ∧
  coastBufferHexes s' = coastBufferHexes s ∧
  lastCoastWrite (fsLog s') = lastCoastWrite (fsLog s).

(** ** Drive mode *)

(** [floor(0.1 × N)] *)
Definition floorTenth (N : Z) : Z := Qfloor ((1 # 10) * inject_Z N).

(** The candidate filter of the two drive handlers, as a test on one cell:
    the caller does not own it and its centroid query finds a road. *)
Definition keptBy (h3 : H3Lib) (own : gset string) (nets : string -> Upstream)
    (idx : string) : bool :=
  bool_decide (idx ∉ own) && roadAt h3 nets idx.

(** The overlapping requests never change the owned set of [uid]. *)
Definition leavesOwnSet (others : nat -> Interference) (uid : string) : Prop :=
  ∀ k s, ownedBy (others k s) uid = ownedBy s uid.

(** ** Numbers *)

(** The double of sign [sign] and magnitude [q], for [q] below 2^53: the
    significand is shifted up to 53 bits. *)
Definition canon (sign : bool) (q : positive) : Double :=
  let d := Z.pos (digits2_pos q) in
  S754_finite sign (Nat.iter (Z.to_nat (53 - d)) xO q) (d - 53).

(** ** Classification *)

(** Some returned feature carries a tag of the category [p]. *)
Definition anyTag (p : gmap string string -> bool) (elements : list OverpassElement) : bool :=
  existsb (fun el => p (default ∅ (el_tags el))) elements.

(** The priority order as the specification words it: an ordered list of
    rules, a tag category and the zone category it yields, read top-down;
    the first rule whose tag category is present decides. *)
Definition Rule : Type := (gmap string string -> bool) * ZoneType.

Definition areaPriority : list Rule :=
  [ (militaryTag, MILITARY); (prisonOrGovernmentTag, PRISON);
    (hospitalTag, HOSPITAL); (mainRoadTag, MAIN_ROAD);
    (cliffTag, CLIFF); (coastTag, COAST);
    (urbanTag, URBAN); (seaTag, SEA); (natureTag, NATURE_RESERVE) ].

Definition localPriority : list Rule :=
  [ (militaryTag, MILITARY); (prisonOrGovernmentTag, PRISON);
    (hospitalTag, HOSPITAL); (mainRoadTag, MAIN_ROAD);
    (urbanTag, URBAN); (seaTag, SEA); (natureTag, NATURE_RESERVE) ].

Fixpoint firstMatch (rules : list Rule) (dflt : ZoneType)
    (elements : list OverpassElement) : ZoneType :=
  match rules with
  | [] => dflt
  | (present, z) :: rest =>
      if anyTag present elements then z else firstMatch rest dflt elements
  end.

(** ** Upstream queries *)

(** The endpoint attempt number [k] is sent to. *)
Definition endpointOf (k : nat) : string :=
  default "" (OVERPASS_ENDPOINTS !! (k mod length OVERPASS_ENDPOINTS)%nat).

(** The elements an attempt delivers, when it delivers any. *)
Definition answered (o : FetchOutcome) : option (list OverpassElement) :=
  match o with
  | FetchOk elements => Some (default [] elements)
  | _ => None
  end.

(** The message of the error the fourth attempt ends in. *)
Definition lastWords (o : FetchOutcome) : string :=
  match o with
  | FetchOk _ => ""
  | FetchStatus status =>
      if (status =? 429) || ((500 <=? status) && (status <=? 599))
      then "Overpass error: exhausted retries"
      else "Overpass error: " +:+ pretty status
  | FetchThrows message => message
  end.

(** The highest road priority among the highway tags of the elements. *)
Definition bestRoadPriority (elements : list OverpassElement) : Z :=
  foldr (fun el best =>
           let tags := default ∅ (el_tags el) in
           if highwayTag tags
           then Z.max (roadPriority (default "" (tags !! "highway"))) best
           else best)
        0 elements.

(** ** Accounts *)

(** Every account is stored under its own [id]. *)
Definition wellKeyed (users : gmap string User) : Prop :=
  ∀ k u, users !! k = Some u → id u = k.


(** ** Persistence *)

(** Two states hold the same globals (the log of writes aside). *)
Definition sameGlobals (s s' : Server) : Prop :=
  usersById s = usersById s' ∧ hexCache s = hexCache s' ∧
  coastBufferHexes s = coastBufferHexes s' ∧ treasury s = treasury s' ∧
  miningEvents s = miningEvents s'.

(** The globals a restart would find after the write [w], when every write
    reaches the file and every file is read back as written. *)
Definition applyFs (s : Server) (w : FsWrite) : Server :=
  match w with
  | FsUsers users => with_users (fun _ => users) s
  | FsHexCache cache => with_hexCache (fun _ => cache) s
  | FsCoastBuffer hexes => with_coastBuffer (fun _ => hexes) s
  | FsTreasury ghxBalance => with_treasury (fun _ => ghxBalance) s
  | FsMiningEvents events => with_miningEvents (fun _ => events) s
  end.

(** The globals on file after the writes of [log], starting from [init]. *)
Definition onFile (init : Server) (log : list FsWrite) : Server :=
  foldl applyFs init log.

(** The priority of the road class kept so far. *)
Definition priorityOf (rc : option string) : Z :=
  match rc with Some k => roadPriority k | None => 0 end.

(** The road class variable of either scanning loop after one more
    element. *)
Definition roadClassStep (seen : option string) (el : OverpassElement) : option string :=
  let tags := default ∅ (el_tags el) in
  if highwayTag tags then strongerRoadClass seen (default "" (tags !! "highway"))
  else seen.

(** ** Effects of the claim requests *)

(** The caller's account after a claim: the balance moved by [amount], the
    cells added, everything else as it was. *)
Definition credited (amount : Z) (cells : list string) (u : User) : User :=
  mkUser (id u) (email u) (passwordHash u) (balance u + amount) (usdtBalance u)
         (ownedHexes u ∪ list_to_set cells).

(** A successful claim by the account [uid], whose record was [user]: the
    record is replaced by the credited one, the Treasury receives [paid],
    one event per cell is appended, and the cache and the buffer stay. *)
Definition claimEffect (uid : string) (user : User) (amount paid : Z)
    (cells : list string) (now : Z) (s s' : Server) : Prop :=
  usersById s' = <[uid := credited amount cells user]> (usersById s) ∧
  treasury s' = treasury s + paid ∧
  miningEvents s' = miningEvents s ++ (mkMiningEvent now uid <$> cells) ∧
  hexCache s' = hexCache s ∧
  coastBufferHexes s' = coastBufferHexes s.

(** The path [/api/drive/step] walks. *)
Definition drivePath (h3 : H3Lib) (fromH3 toH3 : string) : list string :=
  match gridPathCells h3 fromH3 toH3 with
  | inr p => p
  | inl _ => [toH3]
  end.

(** The globals stay on file: when the files held the globals before the
    request, they hold them after it. *)
Definition writesThrough (s s' : Server) : Prop :=
  ∀ init, sameGlobals (onFile init (fsLog s)) s →
          sameGlobals (onFile init (fsLog s')) s'.

(** The writes of a successful claim: the treasury file when the Treasury
    received something, then the events file and the users file, each with
    the value the global has after the request. *)
Definition claimWrites (s s' : Server) : Prop :=
  ∃ treasuryWrite,
    fsLog s' = fsLog s ++ treasuryWrite
                 ++ [FsMiningEvents (miningEvents s'); FsUsers (usersById s')] ∧
    (treasuryWrite = [FsTreasury (treasury s')] ∨
     (treasuryWrite = [] ∧ treasury s' = treasury s)).

(** A request that leaves the accounts, the Treasury and the events as they
    were. *)
Definition accountsUntouched (s s' : Server) : Prop :=
  usersById s' = usersById s ∧ treasury s' = treasury s ∧
  miningEvents s' = miningEvents s.

(** Every users map handed to a write of the users file is keyed by [id]. *)
Definition logKeyed (log : list FsWrite) : Prop :=
  ∀ users, FsUsers users ∈ log → wellKeyed users.


(** One pass of the loop of [loadUsers]. *)
Definition loadStep (m : gmap string User) (entry : option StoredUser) : gmap string User :=
  match entry with
  | Some u => <[st_id u := coerceStoredUserToUser u]> m
  | None => m
  end.

(** * Properties *)

(** ** Ownership *)

(** Unfolding of the field updates down to the record projections. *)
Ltac state_simpl :=
  unfold saveUsers, saveMiningEvents, saveTreasury, saveHexCache, saveCoastBuffer,
    fs_write, put_user, with_users, with_miningEvents, with_treasury,
    with_hexCache, with_coastBuffer in *;
  cbn [usersById hexCache coastBufferHexes treasury miningEvents fsLog fst snd
       balance ownedHexes set_balance set_ownedHexes] in *.

Section Ownership.

Implicit Types (s : Server) (c h uid : string) (u user : User).

Lemma elem_of_buildGlobalOwnedHexesSet s c :
  c ∈ buildGlobalOwnedHexesSet s ↔
  ∃ uid u, usersById s !! uid = Some u ∧ c ∈ ownedHexes u.
Proof.
  unfold buildGlobalOwnedHexesSet.
  apply (map_fold_weak_ind
           (fun r (m : gmap string User) =>
              c ∈ r ↔ ∃ uid u, m !! uid = Some u ∧ c ∈ ownedHexes u)).
  - split; [set_solver|]. intros (uid & u & Hu & _). by rewrite lookup_empty in Hu.
  - intros i x m r Hi IH. rewrite elem_of_union, IH. split.
    + intros [Hx | (uid & u & Hu & Hc)].
      * exists i, x. by rewrite lookup_insert_eq.
      * exists uid, u. split; [|done].
        rewrite lookup_insert_ne; [done|]. intros ->. congruence.
    + intros (uid & u & Hu & Hc). destruct (decide (i = uid)) as [->|Hne].
      * rewrite lookup_insert_eq in Hu. left. congruence.
      * rewrite lookup_insert_ne in Hu by done. right. eauto.
Qed.


(** What a Mine call does: it either leaves the state as it is, or it claims
    a cell nobody owned. *)
Lemma mine_cases auth body now s :
  (∃ r, mine auth body now s = (r, s) ∧ ∀ bal, r ≠ RespMined bal) ∨
  (∃ uid user h,
     usersById s !! uid = Some user ∧ (auth = Some uid) ∧
     validIndex (b_h3Index body) = Some h ∧
     (h ∉ buildGlobalOwnedHexesSet s) ∧ (h ∉ coastBufferHexes s) ∧
     mine auth body now s =
       (RespMined (balance user + 1),
        saveUsers (saveMiningEvents
          (with_miningEvents (fun l => l ++ [mkMiningEvent now uid h])
             (put_user uid
                (set_balance (balance user + 1)
                   (set_ownedHexes (ownedHexes user ∪ {[ h ]}) user)) s))))).
Proof.
  unfold mine, requireAuth. destruct auth as [uid|]; [|left; eauto].
  destruct (usersById s !! uid) as [user|] eqn:Hu; [|left; eauto].
  destruct (validIndex (b_h3Index body)) as [h|] eqn:Hh; [|left; eauto].
  repeat case_decide; try (left; eauto; fail).
  right. exists uid, user, h. eauto 10.
Qed.





End Ownership.

(** ** Frame lemmas: which globals the helpers leave alone *)

Section Frames.

Implicit Types (s : Server) (uid idx : string) (now amount : Z).

Lemma collectTreasuryFee_frame amount s :
  usersById (collectTreasuryFee amount s) = usersById s ∧
  hexCache (collectTreasuryFee amount s) = hexCache s ∧
  coastBufferHexes (collectTreasuryFee amount s) = coastBufferHexes s ∧
  miningEvents (collectTreasuryFee amount s) = miningEvents s.
Proof. unfold collectTreasuryFee. by destruct (amount <=? 0). Qed.


Lemma claimOne_frame uid now s idx :
  hexCache (claimOne uid now s idx) = hexCache s ∧
  coastBufferHexes (claimOne uid now s idx) = coastBufferHexes s ∧
  treasury (claimOne uid now s idx) = treasury s ∧
  fsLog (claimOne uid now s idx) = fsLog s.
Proof. unfold claimOne. by destruct (usersById s !! uid). Qed.

Lemma stepOne_frame uid now s idx :
  hexCache (stepOne uid now s idx) = hexCache s ∧
  coastBufferHexes (stepOne uid now s idx) = coastBufferHexes s ∧
  treasury (stepOne uid now s idx) = treasury s ∧
  fsLog (stepOne uid now s idx) = fsLog s.
Proof. unfold stepOne. by destruct (usersById s !! uid). Qed.

Lemma foldl_claimOne_frame uid now l s :
  hexCache (foldl (claimOne uid now) s l) = hexCache s ∧
  coastBufferHexes (foldl (claimOne uid now) s l) = coastBufferHexes s ∧
  treasury (foldl (claimOne uid now) s l) = treasury s ∧
  fsLog (foldl (claimOne uid now) s l) = fsLog s.
Proof.
  revert s. induction l as [|idx l IH]; intros s; [done|]. cbn [foldl].
  destruct (IH (claimOne uid now s idx)) as (-> & -> & -> & ->).
  apply claimOne_frame.
Qed.

Lemma foldl_stepOne_frame uid now l s :
  hexCache (foldl (stepOne uid now) s l) = hexCache s ∧
  coastBufferHexes (foldl (stepOne uid now) s l) = coastBufferHexes s ∧
  treasury (foldl (stepOne uid now) s l) = treasury s ∧
  fsLog (foldl (stepOne uid now) s l) = fsLog s.
Proof.
  revert s. induction l as [|idx l IH]; intros s; [done|]. cbn [foldl].
  destruct (IH (stepOne uid now s idx)) as (-> & -> & -> & ->).
  apply stepOne_frame.
Qed.

End Frames.

(** ** Coastal buffer *)

Section Buffer.

Context (h3 : H3Lib).

Implicit Types (s : Server) (h idx : string) (disk : list string).

Lemma addMissing_fst acc disk :
  (foldl addMissing acc disk).1 = acc.1 ∪ list_to_set disk.
Proof.
  revert acc. induction disk as [|idx disk IH]; intros [b ch]; cbn [foldl].
  - cbn. set_solver.
  - rewrite IH. unfold addMissing. cbn [fst snd].
    case_decide; cbn [fst]; set_solver.
Qed.

Lemma addMissing_changed_stays b disk :
  (foldl addMissing (b, true) disk).2 = true.
Proof.
  revert b. induction disk as [|idx disk IH]; intros b; cbn [foldl]; [done|].
  unfold addMissing at 2. cbn [fst]. case_decide; apply IH.
Qed.

(** [changed] is set exactly when the loop added a cell. *)
Lemma addMissing_changed b disk :
  (foldl addMissing (b, false) disk).2 = true ↔
  (foldl addMissing (b, false) disk).1 ≠ b.
Proof.
  revert b. induction disk as [|idx disk IH]; intros b; cbn [foldl].
  - cbn. split; [discriminate|congruence].
  - unfold addMissing at 2 4. cbn [fst]. case_decide as Hin; [apply IH|].
    rewrite addMissing_changed_stays, addMissing_fst. cbn [fst].
    split; [|done]. intros _ Heq. apply Hin. rewrite <- Heq. set_solver.
Qed.

(** [markCoastAndBuffer] in one equation. *)
Lemma markCoastAndBuffer_spec h s :
  let s' := markCoastAndBuffer h3 h s in
  usersById s' = usersById s ∧ hexCache s' = hexCache s ∧
  treasury s' = treasury s ∧ miningEvents s' = miningEvents s ∧
  coastBufferHexes s' =
    match gridDisk h3 h 4 with
    | inr disk => coastBufferHexes s ∪ list_to_set disk
    | inl _ => coastBufferHexes s
    end ∧
  fsLog s' =
    if decide (coastBufferHexes s' = coastBufferHexes s) then fsLog s
    else fsLog s ++ [FsCoastBuffer (coastBufferHexes s')].
Proof.
  cbv zeta. unfold markCoastAndBuffer.
  destruct (gridDisk h3 h 4) as [e|disk]; [by rewrite decide_True|].
  pose proof (addMissing_fst (coastBufferHexes s, false) disk) as Hfst.
  pose proof (addMissing_changed (coastBufferHexes s) disk) as Hch.
  destruct (foldl addMissing (coastBufferHexes s, false) disk) as [hexes changed].
  cbn [fst snd] in *. subst hexes.
  destruct changed; state_simpl.
  - rewrite decide_False by (by apply Hch). done.
  - rewrite decide_True; [done|].
    destruct (decide (coastBufferHexes s ∪ list_to_set disk = coastBufferHexes s))
      as [|Hne]; [done|].
    apply Hch in Hne. discriminate.
Qed.

Lemma markCoastAndBuffer_grows h s :
  coastBufferHexes s ⊆ coastBufferHexes (markCoastAndBuffer h3 h s).
Proof.
  destruct (markCoastAndBuffer_spec h s) as (_ & _ & _ & _ & -> & _).
  destruct (gridDisk h3 h 4); set_solver.
Qed.

Lemma lastCoastWrite_snoc log w :
  lastCoastWrite (log ++ [w]) =
  match w with FsCoastBuffer b => Some b | _ => lastCoastWrite log end.
Proof. unfold lastCoastWrite. by rewrite foldl_snoc. Qed.

End Buffer.

(** ** Zone classifier *)

Section Classifier.

Context (h3 : H3Lib).

Implicit Types (s : Server) (h : string) (net : Upstream)
  (elements : list OverpassElement) (f : Flags).

(** Closes a branch of the priority cascade: the result is the record the
    branch returns. *)
Local Ltac resolved :=
  match goal with
  | |- ∃ iz, (inr ?r, _) = _ ∧ _ => exists r
  | |- ∃ iz, inr ?r = _ ∧ _ => exists r
  end; split; [reflexivity|]; split; reflexivity.

(** Each flag of the area loop is the disjunction of its condition over the
    elements scanned. *)
Lemma scanBBox_flags elements f :
  let f' := foldl scanBBox f elements in
  hasMilitary f' = hasMilitary f || anyTag militaryTag elements ∧
  hasPrisonOrGovernment f' =
    hasPrisonOrGovernment f || anyTag prisonOrGovernmentTag elements ∧
  hasHospital f' = hasHospital f || anyTag hospitalTag elements ∧
  hasMainRoad f' = hasMainRoad f || anyTag mainRoadTag elements ∧
  hasCliff f' = hasCliff f || anyTag cliffTag elements ∧
  hasCoast f' = hasCoast f || anyTag coastTag elements ∧
  hasUrban f' = hasUrban f || anyTag urbanTag elements ∧
  hasSea f' = hasSea f || anyTag seaTag elements ∧
  hasNature f' = hasNature f || anyTag natureTag elements ∧
  hasRoad f' = hasRoad f || anyTag highwayTag elements.
Proof.
  cbv zeta. revert f. induction elements as [|el elements IH]; intros f.
  - cbn. by rewrite !orb_false_r.
  - cbn [foldl]. destruct (IH (scanBBox f el))
      as (-> & -> & -> & -> & -> & -> & -> & -> & -> & ->).
    cbn. by rewrite !orb_assoc.
Qed.

(** The same for the local loop, which never sets the coast and cliff
    flags. *)
Lemma scanCentroid_flags elements f :
  let f' := foldl scanCentroid f elements in
  hasMilitary f' = hasMilitary f || anyTag militaryTag elements ∧
  hasPrisonOrGovernment f' =
    hasPrisonOrGovernment f || anyTag prisonOrGovernmentTag elements ∧
  hasHospital f' = hasHospital f || anyTag hospitalTag elements ∧
  hasMainRoad f' = hasMainRoad f || anyTag mainRoadTag elements ∧
  hasCliff f' = hasCliff f ∧
  hasCoast f' = hasCoast f ∧
  hasUrban f' = hasUrban f || anyTag urbanTag elements ∧
  hasSea f' = hasSea f || anyTag seaTag elements ∧
  hasNature f' = hasNature f || anyTag natureTag elements ∧
  hasRoad f' = hasRoad f || anyTag highwayTag elements.
Proof.
  cbv zeta. revert f. induction elements as [|el elements IH]; intros f.
  - cbn. by rewrite !orb_false_r.
  - cbn [foldl]. destruct (IH (scanCentroid f el))
      as (-> & -> & -> & -> & -> & -> & -> & -> & -> & ->).
    cbn. by rewrite !orb_assoc.
Qed.

(** Only the motorway and trunk classes count as a main road. *)
Lemma mainRoadTag_iff (tags : gmap string string) :
  mainRoadTag tags = true ↔
  tags !! "highway" = Some "motorway" ∨ tags !! "highway" = Some "trunk".
Proof.
  unfold mainRoadTag, highwayTag, tagSet, mainRoads.
  destruct (tags !! "highway") as [v|]; simpl.
  - rewrite andb_true_iff, orb_true_iff, negb_true_iff, !String.eqb_eq.
    split.
    + intros [_ [Hv|Hv]]; rewrite Hv; auto.
    + intros [Hv|Hv]; injection Hv as ->; auto.
  - split; [discriminate|]. intros [|]; discriminate.
Qed.

(** A failed upstream query leaves the area classifier without a result and
    the state as it was. *)
Lemma inferZoneTypeFromOverpass_fails h net s e :
  overpassFetch net = inl e →
  ∃ e', inferZoneTypeFromOverpass h3 h net s = (inl e', s).
Proof.
  intros He. unfold inferZoneTypeFromOverpass. rewrite He.
  destruct (cellToBoundary h3 h); eauto.
Qed.

(** The area classifier on the elements of a successful query. *)
Lemma inferZoneTypeFromOverpass_resolves h net s b elements :
  cellToBoundary h3 h = inr b → overpassFetch net = inr elements →
  ∃ iz,
    inferZoneTypeFromOverpass h3 h net s =
      (inr iz, if decide (zoneType iz = COAST) then markCoastAndBuffer h3 h s else s) ∧
    zoneType iz = firstMatch areaPriority INTERURBAN elements ∧
    z_hasRoad iz = Some (anyTag highwayTag elements).
Proof.
  intros Hb He. unfold inferZoneTypeFromOverpass. rewrite Hb, He.
  destruct (scanBBox_flags elements noFlags)
    as (-> & -> & -> & -> & -> & -> & -> & -> & -> & ->).
  cbn [noFlags hasMilitary hasPrisonOrGovernment hasHospital hasMainRoad hasCliff
       hasCoast hasUrban hasSea hasNature hasRoad orb firstMatch areaPriority].
  destruct (anyTag militaryTag elements); cbn [orb]; [resolved|].
  destruct (anyTag prisonOrGovernmentTag elements); [resolved|].
  destruct (anyTag hospitalTag elements); [resolved|].
  destruct (anyTag mainRoadTag elements); [resolved|].
  destruct (anyTag cliffTag elements); [resolved|].
  destruct (anyTag coastTag elements); [resolved|].
  destruct (anyTag urbanTag elements); [resolved|].
  destruct (anyTag seaTag elements); [resolved|].
  destruct (anyTag natureTag elements); resolved.
Qed.

(** The local classifier on the elements of a successful query. *)
Lemma inferZoneTypeAtCentroid_resolves h net ll elements :
  cellToLatLng h3 h = inr ll → overpassFetch net = inr elements →
  ∃ iz,
    inferZoneTypeAtCentroid h3 h net = inr iz ∧
    zoneType iz = firstMatch localPriority SEA elements ∧
    z_hasRoad iz = Some (anyTag highwayTag elements).
Proof.
  intros Hb He. unfold inferZoneTypeAtCentroid. rewrite Hb, He.
  destruct (scanCentroid_flags elements noFlags)
    as (-> & -> & -> & -> & _ & _ & -> & -> & -> & ->).
  cbn [noFlags hasMilitary hasPrisonOrGovernment hasHospital hasMainRoad
       hasUrban hasSea hasNature hasRoad orb firstMatch localPriority].
  destruct (anyTag militaryTag elements); cbn [orb]; [resolved|].
  destruct (anyTag prisonOrGovernmentTag elements); [resolved|].
  destruct (anyTag hospitalTag elements); [resolved|].
  destruct (anyTag mainRoadTag elements); [resolved|].
  destruct (anyTag urbanTag elements); [resolved|].
  destruct (anyTag seaTag elements); [resolved|].
  destruct (anyTag natureTag elements); resolved.
Qed.

Lemma firstMatch_none (rules : list Rule) dflt elements :
  (∀ rule, rule ∈ rules → anyTag rule.1 elements = false) →
  firstMatch rules dflt elements = dflt.
Proof.
  induction rules as [|[present z] rules IH]; intros Hnone; [done|].
  cbn [firstMatch]. pose proof (Hnone (present, z)) as Hp. cbn [fst] in Hp.
  rewrite Hp by left. apply IH. intros rule Hin. apply Hnone. by right.
Qed.

(** C5: on the features of a successful query both classifiers return the
    category of the first rule, in the fixed order military, prison or
    government, hospital, main road, cliff, coast, urban, sea, nature
    reserve, whose tag category is present; the local classifier has no
    cliff and no coast rule.  A highway tag of any class sets the
    road-presence flag of the result, and only the motorway and trunk
    classes count for the main-road rule.  When no rule applies the area
    classifier returns INTERURBAN and the local classifier SEA. *)
Theorem classifier_priority h net s b ll elements :
  cellToBoundary h3 h = inr b → cellToLatLng h3 h = inr ll →
  overpassFetch net = inr elements →
  (∃ iz, (inferZoneTypeFromOverpass h3 h net s).1 = inr iz ∧
         zoneType iz = firstMatch areaPriority INTERURBAN elements ∧
         z_hasRoad iz = Some (anyTag highwayTag elements)) ∧
  (∃ iz, inferZoneTypeAtCentroid h3 h net = inr iz ∧
         zoneType iz = firstMatch localPriority SEA elements ∧
         z_hasRoad iz = Some (anyTag highwayTag elements)) ∧
  (∀ tags : gmap string string,
     mainRoadTag tags = true ↔
     tags !! "highway" = Some "motorway" ∨ tags !! "highway" = Some "trunk") ∧
  ((∀ rule, rule ∈ areaPriority → anyTag rule.1 elements = false) →
   firstMatch areaPriority INTERURBAN elements = INTERURBAN ∧
   firstMatch localPriority SEA elements = SEA).
Proof.
  intros Hb Hll He. repeat split.
  - destruct (inferZoneTypeFromOverpass_resolves h net s b elements Hb He)
      as (iz & -> & Hz & Hr). by exists iz.
  - apply (inferZoneTypeAtCentroid_resolves h net ll elements Hll He).
  - apply mainRoadTag_iff.
  - apply mainRoadTag_iff.
  - by apply firstMatch_none.
  - apply firstMatch_none. intros rule Hin. apply H.
    unfold localPriority, areaPriority in *.
    repeat (apply elem_of_cons in Hin as [->|Hin]; [set_solver|]).
    by apply elem_of_nil in Hin.
Qed.

Lemma anyTag_true (p : gmap string string -> bool) elements el :
  el ∈ elements → p (default ∅ (el_tags el)) = true → anyTag p elements = true.
Proof.
  intros Hin Hp. apply existsb_exists. exists el. split; [|done].
  by apply list_elem_of_In.
Qed.

(** C8: when the area query returns a feature tagged natural=coastline and
    no feature of the military, prison or government, hospital, main road or
    cliff categories, the area classifier returns COAST, and the state it
    returns with holds, in the Coastal Buffer Set, every cell of the disk of
    radius 4 around the cell next to all cells the set held before. *)
Theorem coastline_marks_buffer h net s b elements disk :
  cellToBoundary h3 h = inr b → overpassFetch net = inr elements →
  (∃ el tags, el ∈ elements ∧ el_tags el = Some tags ∧
              tags !! "natural" = Some "coastline") →
  anyTag militaryTag elements = false →
  anyTag prisonOrGovernmentTag elements = false →
  anyTag hospitalTag elements = false →
  anyTag mainRoadTag elements = false →
  anyTag cliffTag elements = false →
  gridDisk h3 h 4 = inr disk →
  ∃ iz s',
    inferZoneTypeFromOverpass h3 h net s = (inr iz, s') ∧
    zoneType iz = COAST ∧
    coastBufferHexes s' = coastBufferHexes s ∪ list_to_set disk ∧
    (∀ c, c ∈ disk → c ∈ coastBufferHexes s').
Proof.
  intros Hb He (el & tags & Hin & Htags & Hcoast) Hmil Hpri Hhos Hroad Hcliff Hdisk.
  assert (Hc : anyTag coastTag elements = true).
  { apply (anyTag_true _ _ el Hin). rewrite Htags. cbn [default from_option].
    unfold coastTag, tagIs. by rewrite (bool_decide_eq_true_2 _ Hcoast). }
  destruct (inferZoneTypeFromOverpass_resolves h net s b elements Hb He)
    as (iz & Heq & Hz & _).
  assert (Hcoastal : zoneType iz = COAST).
  { rewrite Hz. cbn [firstMatch areaPriority].
    by rewrite Hmil, Hpri, Hhos, Hroad, Hcliff, Hc. }
  rewrite decide_True in Heq by done.
  exists iz, (markCoastAndBuffer h3 h s). split; [done|]. split; [done|].
  destruct (markCoastAndBuffer_spec h3 h s) as (_ & _ & _ & _ & Hbuf & _).
  rewrite Hdisk in Hbuf. split; [done|].
  intros c Hcin. rewrite Hbuf. apply elem_of_union_r. by apply elem_of_list_to_set.
Qed.

End Classifier.

(** ** The requests and the classification state *)

Section Requests.

Context (h3 : H3Lib) (trim toLowerCase : string -> string).

Implicit Types (s : Server) (h uid : string) (net : Upstream) (op : Op).

Lemma lastCoastWrite_collectTreasuryFee amount s :
  lastCoastWrite (fsLog (collectTreasuryFee amount s)) = lastCoastWrite (fsLog s).
Proof.
  unfold collectTreasuryFee. destruct (amount <=? 0); [done|].
  state_simpl. by rewrite lastCoastWrite_snoc.
Qed.

Lemma sameClassification_refl s : sameClassification s s.
Proof. by repeat split. Qed.

Lemma sameClassification_trans s1 s2 s3 :
  sameClassification s1 s2 → sameClassification s2 s3 → sameClassification s1 s3.
Proof. intros (? & ? & ?) (? & ? & ?). repeat split; congruence. Qed.

Lemma sameClassification_collectTreasuryFee amount s :
  sameClassification s (collectTreasuryFee amount s).
Proof.
  destruct (collectTreasuryFee_frame amount s) as (_ & ? & ? & _).
  repeat split; [done..|]. apply lastCoastWrite_collectTreasuryFee.
Qed.

Lemma sameClassification_foldl_claimOne uid now l s :
  sameClassification s (foldl (claimOne uid now) s l).
Proof.
  destruct (foldl_claimOne_frame uid now l s) as (? & ? & _ & Hlog).
  repeat split; [done..|]. by rewrite Hlog.
Qed.

Lemma sameClassification_foldl_stepOne uid now l s :
  sameClassification s (foldl (stepOne uid now) s l).
Proof.
  destruct (foldl_stepOne_frame uid now l s) as (? & ? & _ & Hlog).
  repeat split; [done..|]. by rewrite Hlog.
Qed.

(** Writes of the other files and updates of the other globals. *)
Lemma sameClassification_put_user uid u s : sameClassification s (put_user uid u s).
Proof. by repeat split. Qed.

Lemma sameClassification_with_miningEvents f s :
  sameClassification s (with_miningEvents f s).
Proof. by repeat split. Qed.

Lemma sameClassification_with_users f s : sameClassification s (with_users f s).
Proof. by repeat split. Qed.

Lemma sameClassification_saveUsers s : sameClassification s (saveUsers s).
Proof. repeat split; [done..|]. state_simpl. by rewrite lastCoastWrite_snoc. Qed.

Lemma sameClassification_saveMiningEvents s : sameClassification s (saveMiningEvents s).
Proof. repeat split; [done..|]. state_simpl. by rewrite lastCoastWrite_snoc. Qed.

Create HintDb quiet discriminated.

#[local] Hint Resolve sameClassification_refl sameClassification_collectTreasuryFee
  sameClassification_foldl_claimOne sameClassification_foldl_stepOne
  sameClassification_put_user sameClassification_with_miningEvents
  sameClassification_with_users sameClassification_saveUsers
  sameClassification_saveMiningEvents : quiet.

(** Walks a chain of updates from the outermost one inwards. *)
Local Ltac quiet_chain :=
  repeat first
    [ apply sameClassification_refl
    | eapply sameClassification_trans; [|solve [auto with quiet]] ].

Lemma mine_quiet auth body now s : sameClassification s (mine auth body now s).2.
Proof.
  unfold mine. repeat (case_match || case_decide); cbn [snd]; quiet_chain.
Qed.

Lemma spawn_quiet auth body now s : sameClassification s (spawn h3 auth body now s).2.
Proof.
  unfold spawn. repeat (case_match || case_decide); cbn [snd]; quiet_chain.
Qed.

Lemma driveSimulate_quiet auth center nets now s :
  sameClassification s (driveSimulate h3 auth center nets now s).2.
Proof.
  unfold driveSimulate. repeat (case_match || case_decide); cbn [snd]; quiet_chain.
Qed.

Lemma driveStep_quiet auth fromH3 toH3 nets now s :
  sameClassification s (driveStep h3 auth fromH3 toH3 nets now s).2.
Proof.
  unfold driveStep. repeat (case_match || case_decide); cbn [snd]; quiet_chain.
Qed.

Lemma register_quiet e p newId hash s :
  sameClassification s (register trim toLowerCase e p newId hash s).2.
Proof.
  unfold register, createUser. repeat (case_match || case_decide); cbn [snd]; quiet_chain.
Qed.

Lemma adminReset_quiet auth s : sameClassification s (adminReset auth s).2.
Proof.
  unfold adminReset. repeat (case_match || case_decide); cbn [snd]; quiet_chain.
Qed.

Lemma getHexClassifyCentroid_quiet h net s :
  sameClassification s (getHexClassifyCentroid h3 h net s).2.
Proof.
  unfold getHexClassifyCentroid. repeat (case_match || case_decide); cbn [snd]; quiet_chain.
Qed.

(** *** Growth of the buffer *)

Lemma bufferGrowth_refl s : bufferGrowth s s.
Proof. by repeat split. Qed.

Lemma bufferGrowth_trans s1 s2 s3 :
  bufferGrowth s1 s2 → bufferGrowth s2 s3 → bufferGrowth s1 s3.
Proof.
  intros (Hsub12 & Hch12 & Heq12) (Hsub23 & Hch23 & Heq23). repeat split.
  - by transitivity (coastBufferHexes s2).
  - intros Hne. destruct (decide (coastBufferHexes s3 = coastBufferHexes s2)) as [E|N].
    + rewrite (Heq23 E), E. apply Hch12. congruence.
    + by apply Hch23.
  - intros E31.
    assert (E21 : coastBufferHexes s2 = coastBufferHexes s1).
    { apply (anti_symm (⊆)); [|done]. by rewrite <- E31. }
    rewrite Heq23 by congruence. by apply Heq12.
Qed.

Lemma sameClassification_bufferGrowth s s' :
  sameClassification s s' → bufferGrowth s s'.
Proof.
  intros (_ & Hbuf & Hlog). repeat split; [by rewrite Hbuf|congruence|done].
Qed.

Lemma bufferGrowth_markCoastAndBuffer h s :
  bufferGrowth s (markCoastAndBuffer h3 h s).
Proof.
  pose proof (markCoastAndBuffer_grows h3 h s) as Hsub.
  destruct (markCoastAndBuffer_spec h3 h s) as (_ & _ & _ & _ & _ & Hlog).
  repeat split; [done| |]; intros Hcmp; rewrite Hlog.
  - rewrite decide_False by done. by rewrite lastCoastWrite_snoc.
  - by rewrite decide_True.
Qed.

(** The area classifier, whatever the query comes to: either it throws and
    the state is as it was, or the query succeeded and the state is the one
    left by the coast branch when the result is COAST. *)
Lemma inferZoneTypeFromOverpass_cases h net s :
  (∃ e, inferZoneTypeFromOverpass h3 h net s = (inl e, s)) ∨
  (∃ iz elements,
     overpassFetch net = inr elements ∧
     inferZoneTypeFromOverpass h3 h net s =
       (inr iz, if decide (zoneType iz = COAST) then markCoastAndBuffer h3 h s else s)).
Proof.
  destruct (overpassFetch net) as [e|elements] eqn:He.
  - left. by apply (inferZoneTypeFromOverpass_fails h3 h net s e).
  - destruct (cellToBoundary h3 h) as [e|b] eqn:Hb.
    + left. exists e. unfold inferZoneTypeFromOverpass. by rewrite Hb.
    + right. destruct (inferZoneTypeFromOverpass_resolves h3 h net s b elements Hb He)
        as (iz & Heq & _). by exists iz, elements.
Qed.

Lemma inferZoneTypeFromOverpass_growth h net s :
  hexCache (inferZoneTypeFromOverpass h3 h net s).2 = hexCache s ∧
  bufferGrowth s (inferZoneTypeFromOverpass h3 h net s).2.
Proof.
  destruct (inferZoneTypeFromOverpass_cases h net s)
    as [(e & ->)|(iz & elements & _ & ->)]; cbn [snd].
  - split; [done|apply bufferGrowth_refl].
  - case_decide; [|split; [done|apply bufferGrowth_refl]].
    split; [|apply bufferGrowth_markCoastAndBuffer].
    by destruct (markCoastAndBuffer_spec h3 h s) as (_ & -> & _).
Qed.

Lemma bufferGrowth_cache_write h (entry : HexCacheEntry) s :
  bufferGrowth s (saveHexCache (with_hexCache (fun c => <[h := entry]> c) s)).
Proof.
  repeat split; state_simpl; [done|congruence|].
  intros _. by rewrite lastCoastWrite_snoc.
Qed.

(** *** The cache *)

(** [GET /api/hex/:h3Index], whatever the query comes to. *)
Lemma getHex_cases h net s :
  (getHex h3 h net s).2 = s ∨
  (∃ iz elements s1,
     hexCache s !! h = None ∧ overpassFetch net = inr elements ∧
     inferZoneTypeFromOverpass h3 h net s = (inr iz, s1) ∧
     (getHex h3 h net s).2 =
       saveHexCache
         (with_hexCache
            (fun c => <[h := mkHexCacheEntry (zoneType iz) (debug iz)]> c) s1)).
Proof.
  unfold getHex, lookupHexCache. case_decide; [by left|].
  destruct (hexCache s !! h) as [entry|] eqn:Hc; [by left|].
  destruct (inheritedKey h); [by left|]. unfold getHexMiss.
  destruct (inferZoneTypeFromOverpass_cases h net s)
    as [(e & ->)|(iz & elements & He & ->)].
  - left. by destruct (fallbackZoneType h3 h).
  - right. by eexists iz, elements, _.
Qed.

Lemma getHex_growth h net s : bufferGrowth s (getHex h3 h net s).2.
Proof.
  destruct (getHex_cases h net s)
    as [->|(iz & elements & s1 & _ & _ & Hinf & ->)]; [apply bufferGrowth_refl|].
  eapply bufferGrowth_trans; [|apply bufferGrowth_cache_write].
  pose proof (inferZoneTypeFromOverpass_growth h net s) as [_ Hg].
  by rewrite Hinf in Hg.
Qed.

Lemma getHexOsm_growth h net s :
  hexCache (getHexOsm h3 h net s).2 = hexCache s ∧
  bufferGrowth s (getHexOsm h3 h net s).2.
Proof.
  pose proof (inferZoneTypeFromOverpass_growth h net s) as Hg.
  unfold getHexOsm.
  destruct (inferZoneTypeFromOverpass h3 h net s) as [[e|iz] s1]; cbn [snd] in *;
    [|done].
  by destruct (fallbackZoneType h3 h).
Qed.

Lemma handle_growth op s : bufferGrowth s (handle h3 trim toLowerCase op s).2.
Proof.
  destruct op; cbn [handle].
  - apply sameClassification_bufferGrowth, register_quiet.
  - apply sameClassification_bufferGrowth, mine_quiet.
  - apply sameClassification_bufferGrowth, spawn_quiet.
  - apply sameClassification_bufferGrowth, driveSimulate_quiet.
  - apply sameClassification_bufferGrowth, driveStep_quiet.
  - apply getHex_growth.
  - apply getHexOsm_growth.
  - apply sameClassification_bufferGrowth, getHexClassifyCentroid_quiet.
  - apply sameClassification_bufferGrowth, adminReset_quiet.
Qed.

Lemma serve_growth ops s : bufferGrowth s (serve h3 trim toLowerCase ops s).
Proof.
  unfold serve. revert s. induction ops as [|op ops IH]; intros s; cbn [foldl].
  - apply bufferGrowth_refl.
  - eapply bufferGrowth_trans; [apply handle_growth|apply IH].
Qed.

(** C2: [markCoastAndBuffer] keeps every cell the Coastal Buffer Set holds
    and attempts a write of the buffer file, with the new set, exactly when
    the set changed; and over every sequence of requests the set only grows,
    its size does not decrease, and a set that changed is the one handed to
    the latest write of the buffer file. *)
Theorem coast_buffer_only_grows (ops : list Op) (h : string) (s : Server) :
  (coastBufferHexes s ⊆ coastBufferHexes (markCoastAndBuffer h3 h s) ∧
   fsLog (markCoastAndBuffer h3 h s) =
     if decide (coastBufferHexes (markCoastAndBuffer h3 h s) = coastBufferHexes s)
     then fsLog s
     else fsLog s ++ [FsCoastBuffer (coastBufferHexes (markCoastAndBuffer h3 h s))]) ∧
  (coastBufferHexes s ⊆ coastBufferHexes (serve h3 trim toLowerCase ops s) ∧
   (size (coastBufferHexes s) ≤ size (coastBufferHexes (serve h3 trim toLowerCase ops s)))%nat ∧
   (coastBufferHexes (serve h3 trim toLowerCase ops s) ≠ coastBufferHexes s →
    lastCoastWrite (fsLog (serve h3 trim toLowerCase ops s)) =
      Some (coastBufferHexes (serve h3 trim toLowerCase ops s)))).
Proof.
  split.
  - split; [apply markCoastAndBuffer_grows|].
    by destruct (markCoastAndBuffer_spec h3 h s) as (_ & _ & _ & _ & _ & ?).
  - destruct (serve_growth ops s) as (Hsub & Hch & _).
    split; [done|]. split; [by apply subseteq_size|done].
Qed.

(** *** Fallback and the cache *)

Lemma fallbackZoneType_values h z :
  fallbackZoneType h3 h = inr z → z = SEA ∨ z = INTERURBAN.
Proof.
  unfold fallbackZoneType. destruct (cellToLatLng h3 h) as [e|[lat lng]]; [done|].
  destruct (Qgtb lat 73 || Qgtb (-73) lat); intros [= <-]; auto.
Qed.

Lemma inferZoneTypeAtCentroid_fails h net e :
  overpassFetch net = inl e → ∃ e', inferZoneTypeAtCentroid h3 h net = inl e'.
Proof.
  intros He. unfold inferZoneTypeAtCentroid. rewrite He.
  destruct (cellToLatLng h3 h); eauto.
Qed.

(** Which requests change the cache, and how. *)
Lemma handle_hexCache op s :
  hexCache (handle h3 trim toLowerCase op s).2 = hexCache s ∨
  (∃ h net iz elements,
     op = OpGetHex h net ∧ hexCache s !! h = None ∧
     overpassFetch net = inr elements ∧
     (inferZoneTypeFromOverpass h3 h net s).1 = inr iz ∧
     hexCache (handle h3 trim toLowerCase op s).2 =
       <[h := mkHexCacheEntry (zoneType iz) (debug iz)]> (hexCache s)).
Proof.
  destruct op; cbn [handle];
    try (left; first
      [ apply register_quiet | apply mine_quiet | apply spawn_quiet
      | apply driveSimulate_quiet | apply driveStep_quiet
      | apply getHexClassifyCentroid_quiet | apply adminReset_quiet
      | apply getHexOsm_growth ]).
  destruct (getHex_cases h net s)
    as [->|(iz & elements & s1 & Hnone & He & Hinf & ->)]; [by left|].
  right. exists h, net, iz, elements. rewrite Hinf. repeat split; [done..|].
  state_simpl. f_equal.
  pose proof (inferZoneTypeFromOverpass_growth h net s) as [Hc _].
  by rewrite Hinf in Hc.
Qed.

(** The cache-first route from its [await] on: a query that fails leaves
    the state as it is, a query that succeeds stores its result. *)
Lemma getHexMiss_cases h net s :
  (∃ e, overpassFetch net = inl e ∧ (getHexMiss h3 h net s).2 = s) ∨
  (∃ e, (inferZoneTypeFromOverpass h3 h net s) = (inl e, s) ∧
        (getHexMiss h3 h net s).2 = s) ∨
  (∃ iz elements,
     overpassFetch net = inr elements ∧
     (inferZoneTypeFromOverpass h3 h net s).1 = inr iz ∧
     hexCache (getHexMiss h3 h net s).2 =
       <[h := mkHexCacheEntry (zoneType iz) (debug iz)]> (hexCache s)).
Proof.
  unfold getHexMiss.
  destruct (inferZoneTypeFromOverpass_cases h net s)
    as [(e & Hi)|(iz & elements & He & Hi)]; rewrite Hi.
  - right. left. exists e. split; [done|]. by destruct (fallbackZoneType h3 h).
  - right. right. exists iz, elements. split; [done|]. split; [done|].
    state_simpl. f_equal. case_decide; [|done].
    by destruct (markCoastAndBuffer_spec h3 h s) as (_ & -> & _).
Qed.

Lemma getHexMiss_fails h net s e :
  overpassFetch net = inl e → (getHexMiss h3 h net s).2 = s.
Proof.
  intros He. unfold getHexMiss.
  destruct (inferZoneTypeFromOverpass_fails h3 h net s e He) as [e1 ->].
  by destruct (fallbackZoneType h3 h).
Qed.

(** C7, as amended: a classification call whose upstream query fails
    writes nothing.  The cache-first route, which reaches the query only for
    a cell it did not find in the cache, leaves the state as the requests
    that overlapped it left it; the osm and the centroid route leave the
    state as it was.  The osm and the centroid route return the
    latitude-based fallback category, and the cache-first route returns it
    too unless a cell cached as COAST lies within 3 rings, in which case it
    returns COAST.  The cache changes only in the cache-first route, and
    there only by the result of a query that succeeded. *)
Theorem fallback_leaves_cache h net e :
  overpassFetch net = inl e →
  (∀ (others : Interference) s,
     h ≠ "" → lookupHexCache h s = CacheMiss →
     (getHexAwait h3 others h net s).2 = others s ∧
     ∀ z, fallbackZoneType h3 h = inr z →
       let coastNearby :=
         match gridDisk h3 h 3 with
         | inr disk => existsb (cachedCoast (others s)) disk
         | inl _ => false
         end in
       ∃ dbg, (getHexAwait h3 others h net s).1 =
                RespHex h (if coastNearby then COAST else z) dbg None None) ∧
  (∀ s, (getHexOsm h3 h net s).2 = s ∧
        (getHexClassifyCentroid h3 h net s).2 = s ∧
        ∀ z, fallbackZoneType h3 h = inr z →
          (∃ dbg, (getHexOsm h3 h net s).1 = RespHex h z dbg None None) ∧
          (∃ dbg, (getHexClassifyCentroid h3 h net s).1 = RespHex h z dbg None None)) ∧
  (∀ (others : Interference) h' net' s,
     (getHexAwait h3 others h' net' s).2 = s ∨
     (getHexAwait h3 others h' net' s).2 = others s ∨
     (∃ iz elements,
        lookupHexCache h' s = CacheMiss ∧ overpassFetch net' = inr elements ∧
        (inferZoneTypeFromOverpass h3 h' net' (others s)).1 = inr iz ∧
        hexCache (getHexAwait h3 others h' net' s).2 =
          <[h' := mkHexCacheEntry (zoneType iz) (debug iz)]> (hexCache (others s)))) ∧
  (∀ op s,
     (∀ h' net', op ≠ OpGetHex h' net') →
     hexCache (handle h3 trim toLowerCase op s).2 = hexCache s).
Proof.
  intros He.
  destruct (inferZoneTypeAtCentroid_fails h net e He) as [e2 He2].
  split; [|split; [|split]].
  - intros others s Hh Hmiss. unfold getHexAwait.
    rewrite decide_False by done. rewrite Hmiss.
    split; [by apply (getHexMiss_fails h net (others s) e)|].
    intros z Hz. cbv zeta. unfold getHexMiss.
    destruct (inferZoneTypeFromOverpass_fails h3 h net (others s) e He) as [e1 ->].
    rewrite Hz. unfold getHexRespond, applyCoastBufferFromCache.
    cbn [zoneType debug ce_zoneType ce_debug fst].
    assert (nonOverridable z = false) as ->.
    { by destruct (fallbackZoneType_values h z Hz) as [-> | ->]. }
    destruct (gridDisk h3 h 3) as [?|disk]; [by eexists|].
    destruct (existsb (cachedCoast (others s)) disk); by eexists.
  - intros s.
    destruct (inferZoneTypeFromOverpass_fails h3 h net s e He) as [e1 He1].
    unfold getHexOsm, getHexClassifyCentroid. rewrite He1, He2.
    split; [by destruct (fallbackZoneType h3 h)|].
    split; [by destruct (fallbackZoneType h3 h)|].
    intros z ->. split; by eexists.
  - intros others h' net' s. unfold getHexAwait.
    case_decide; [by left|].
    destruct (lookupHexCache h' s) eqn:Hl; [by left|by left|].
    destruct (getHexMiss_cases h' net' (others s))
      as [(e' & _ & ->)|[(e' & _ & ->)|(iz & elements & Hf & Hi & Hc)]];
      [by right; left|by right; left|].
    right. right. by exists iz, elements.
  - intros op s Hop.
    destruct (handle_hexCache op s) as [?|(h' & net' & ? & ? & -> & _)]; [done|].
    by destruct (Hop h' net').
Qed.

End Requests.

(** ** Drive mode *)

Section Drive.

Context (h3 : H3Lib).

Implicit Types (s : Server) (uid idx : string) (l : list string) (u user : User).


Example floorTenth_values :
  floorTenth 6 = 0 ∧ floorTenth 9 = 0 ∧ floorTenth 10 = 1 ∧ floorTenth 25 = 2.
Proof. repeat split; reflexivity. Qed.

Lemma requireAuth_Some auth s uid user :
  requireAuth auth s = Some (uid, user) →
  auth = Some uid ∧ usersById s !! uid = Some user.
Proof.
  unfold requireAuth. destruct auth as [uid'|]; [|done].
  destruct (usersById s !! uid') as [u|] eqn:Hu; [|done].
  by intros [= -> ->].
Qed.






End Drive.


(** ** Registration *)

Section Registration.

Context (h3 : H3Lib) (trim toLowerCase : string -> string).

Implicit Types (s : Server) (uid : string) (u user : User).

Lemma register_cases e p newId hash s :
  (∃ r, register trim toLowerCase e p newId hash s = (r, s) ∧
        ∀ user, r ≠ RespRegistered user) ∨
  (∃ emailRaw,
     e = Some emailRaw ∧
     register trim toLowerCase e p newId hash s =
       (let user := mkUser newId (toLowerCase (trim emailRaw)) hash 10 1000
                      {[ DEFAULT_START_HEX ]} in
        (RespRegistered user, saveUsers (put_user newId user s)))).
Proof.
  unfold register, createUser.
  destruct e as [emailRaw|]; [|left; eauto].
  destruct (negb _); [left; eauto|].
  destruct p as [password|]; [|left; eauto].
  destruct (_ <? _)%nat; [left; eauto|].
  destruct (findUserByEmail _ _ _); [left; eauto|].
  right. by exists emailRaw.
Qed.

Lemma register_new_user e p newId hash s user s' :
  register trim toLowerCase e p newId hash s = (RespRegistered user, s') →
  ownedHexes user = {[ DEFAULT_START_HEX ]} ∧ balance user = 10 ∧
  id user = newId ∧ usersById s' = <[newId := user]> (usersById s).
Proof.
  destruct (register_cases e p newId hash s) as [(r & -> & Hr)|(emailRaw & _ & ->)].
  - intros [= -> _]. by destruct (Hr user).
  - cbv zeta. by intros [= <- <-].
Qed.

(** *** The start cell is never lost *)

Lemma holdsStart_insert uid u s s' :
  everyoneHoldsStart s → DEFAULT_START_HEX ∈ ownedHexes u →
  usersById s' = <[uid := u]> (usersById s) → everyoneHoldsStart s'.
Proof.
  intros Hinv Hu Heq uid' u'. rewrite Heq, lookup_insert.
  case_decide; [by intros [= <-]|apply Hinv].
Qed.

Lemma holdsStart_same_users s s' :
  everyoneHoldsStart s → usersById s' = usersById s → everyoneHoldsStart s'.
Proof. intros Hinv Heq uid u. rewrite Heq. apply Hinv. Qed.

Lemma holdsStart_claimOne uid now s idx :
  everyoneHoldsStart s → everyoneHoldsStart (claimOne uid now s idx).
Proof.
  intros Hinv. unfold claimOne. destruct (usersById s !! uid) as [u|] eqn:Hu; [|done].
  eapply holdsStart_insert; [done| |reflexivity]. cbn.
  apply elem_of_union_l. by eapply Hinv.
Qed.

Lemma holdsStart_stepOne uid now s idx :
  everyoneHoldsStart s → everyoneHoldsStart (stepOne uid now s idx).
Proof.
  intros Hinv. unfold stepOne. destruct (usersById s !! uid) as [u|] eqn:Hu; [|done].
  eapply holdsStart_insert; [done| |reflexivity]. cbn.
  apply elem_of_union_l. by eapply Hinv.
Qed.

Lemma holdsStart_foldl (step : Server → string → Server) l s :
  (∀ s idx, everyoneHoldsStart s → everyoneHoldsStart (step s idx)) →
  everyoneHoldsStart s → everyoneHoldsStart (foldl step s l).
Proof.
  intros Hstep. revert s. induction l as [|idx l IH]; intros s Hinv; [done|].
  cbn [foldl]. by apply IH, Hstep.
Qed.

Lemma holdsStart_mine auth body now s :
  everyoneHoldsStart s → everyoneHoldsStart (mine auth body now s).2.
Proof.
  intros Hinv. destruct (mine_cases auth body now s)
    as [(r & -> & _)|(uid & user & h & Hu & _ & _ & _ & _ & ->)]; [done|].
  eapply holdsStart_insert; [done| |reflexivity]. cbn.
  apply elem_of_union_l. by eapply Hinv.
Qed.

Lemma holdsStart_spawn auth body now s :
  everyoneHoldsStart s → everyoneHoldsStart (spawn h3 auth body now s).2.
Proof.
  intros Hinv. unfold spawn.
  destruct (requireAuth auth s) as [[uid user]|] eqn:Hauth; [|done].
  destruct (requireAuth_Some _ _ _ _ Hauth) as [_ Hu].
  repeat (case_match || case_decide); try done. cbn [snd].
  eapply holdsStart_insert; [| |reflexivity].
  - eapply holdsStart_same_users; [|apply collectTreasuryFee_frame].
    eapply holdsStart_insert; [exact Hinv| |reflexivity]. cbn. by eapply Hinv.
  - cbn. apply elem_of_union_l. by eapply Hinv.
Qed.

Lemma holdsStart_driveSimulate auth center nets now s :
  everyoneHoldsStart s → everyoneHoldsStart (driveSimulate h3 auth center nets now s).2.
Proof.
  intros Hinv. unfold driveSimulate.
  destruct (requireAuth auth s) as [[uid user]|] eqn:Hauth; [|done].
  destruct (requireAuth_Some _ _ _ _ Hauth) as [_ Hu].
  repeat (case_match || case_decide); try done; cbn [snd];
    (eapply holdsStart_same_users; [|reflexivity]);
    (apply holdsStart_foldl; [intros; by apply holdsStart_claimOne|]);
    (eapply holdsStart_same_users; [|apply collectTreasuryFee_frame]);
    (eapply holdsStart_insert; [exact Hinv| |reflexivity]); cbn; by eapply Hinv.
Qed.

Lemma holdsStart_driveStep auth fromH3 toH3 nets now s :
  everyoneHoldsStart s →
  everyoneHoldsStart (driveStep h3 auth fromH3 toH3 nets now s).2.
Proof.
  intros Hinv. unfold driveStep.
  destruct (requireAuth auth s) as [[uid user]|] eqn:Hauth; [|done].
  destruct (requireAuth_Some _ _ _ _ Hauth) as [_ Hu].
  repeat (case_match || case_decide); try done; cbn [snd];
    (eapply holdsStart_same_users; [|reflexivity]);
    (apply holdsStart_foldl; [intros; by apply holdsStart_stepOne|]);
    (eapply holdsStart_same_users; [|apply collectTreasuryFee_frame]);
    (eapply holdsStart_insert; [exact Hinv| |reflexivity]); cbn; by eapply Hinv.
Qed.

Lemma holdsStart_register e p newId hash s :
  everyoneHoldsStart s →
  everyoneHoldsStart (register trim toLowerCase e p newId hash s).2.
Proof.
  intros Hinv. destruct (register_cases e p newId hash s)
    as [(r & -> & _)|(emailRaw & _ & ->)]; [done|].
  eapply holdsStart_insert; [done| |reflexivity]. cbn. set_solver.
Qed.

Lemma holdsStart_adminReset auth s :
  everyoneHoldsStart s → everyoneHoldsStart (adminReset auth s).2.
Proof.
  intros Hinv. unfold adminReset. destruct (requireAuth auth s); [|done].
  intros uid' u'. state_simpl. rewrite lookup_fmap.
  destruct (usersById s !! uid') as [u|]; [|done].
  intros [= <-]. cbn. set_solver.
Qed.

Lemma getHex_users h net s : usersById (getHex h3 h net s).2 = usersById s.
Proof.
  destruct (getHex_cases h3 h net s)
    as [->|(iz & elements & s1 & _ & _ & Hinf & ->)]; [done|].
  state_simpl.
  destruct (inferZoneTypeFromOverpass_cases h3 h net s)
    as [(e & He)|(iz' & els & _ & He)]; rewrite He in Hinf;
    injection Hinf as _ <-; [done|].
  case_decide; [|done]. by destruct (markCoastAndBuffer_spec h3 h s) as (-> & _).
Qed.

Lemma getHexOsm_users h net s : usersById (getHexOsm h3 h net s).2 = usersById s.
Proof.
  unfold getHexOsm.
  destruct (inferZoneTypeFromOverpass_cases h3 h net s)
    as [(e & ->)|(iz & els & _ & ->)].
  - by destruct (fallbackZoneType h3 h).
  - cbn [snd]. case_decide; [|done].
    by destruct (markCoastAndBuffer_spec h3 h s) as (-> & _).
Qed.

Lemma getHexClassifyCentroid_users h net s :
  usersById (getHexClassifyCentroid h3 h net s).2 = usersById s.
Proof.
  unfold getHexClassifyCentroid. by repeat case_match.
Qed.

Lemma holdsStart_handle op s :
  everyoneHoldsStart s → everyoneHoldsStart (handle h3 trim toLowerCase op s).2.
Proof.
  intros Hinv. destruct op; cbn [handle].
  - by apply holdsStart_register.
  - by apply holdsStart_mine.
  - by apply holdsStart_spawn.
  - by apply holdsStart_driveSimulate.
  - by apply holdsStart_driveStep.
  - eapply holdsStart_same_users; [done|apply getHex_users].
  - eapply holdsStart_same_users; [done|apply getHexOsm_users].
  - eapply holdsStart_same_users; [done|apply getHexClassifyCentroid_users].
  - by apply holdsStart_adminReset.
Qed.

Lemma holdsStart_serve ops s :
  everyoneHoldsStart s → everyoneHoldsStart (serve h3 trim toLowerCase ops s).
Proof.
  unfold serve. revert s. induction ops as [|op ops IH]; intros s Hinv; [done|].
  cbn [foldl]. by apply IH, holdsStart_handle.
Qed.

(** C9: a successful registration creates an account whose owned set is
    the default start cell alone and whose balance is 10; after two
    successful registrations under distinct identifiers both accounts hold
    that cell; and in every state the server reaches from the empty one, any
    two distinct accounts both hold it. *)
Theorem registration_shares_start_cell :
  (∀ e p newId hash s user s',
     register trim toLowerCase e p newId hash s = (RespRegistered user, s') →
     ownedHexes user = {[ DEFAULT_START_HEX ]} ∧ balance user = 10 ∧
     usersById s' !! newId = Some user) ∧
  (∀ e1 p1 id1 hash1 e2 p2 id2 hash2 s u1 s1 u2 s2,
     register trim toLowerCase e1 p1 id1 hash1 s = (RespRegistered u1, s1) →
     register trim toLowerCase e2 p2 id2 hash2 s1 = (RespRegistered u2, s2) →
     id1 ≠ id2 →
     DEFAULT_START_HEX ∈ ownedBy s2 id1 ∧ DEFAULT_START_HEX ∈ ownedBy s2 id2) ∧
  (∀ ops uid1 uid2,
     let s := serve h3 trim toLowerCase ops emptyServer in
     uid1 ≠ uid2 → uid1 ∈ dom (usersById s) → uid2 ∈ dom (usersById s) →
     DEFAULT_START_HEX ∈ ownedBy s uid1 ∧ DEFAULT_START_HEX ∈ ownedBy s uid2).
Proof.
  split; [|split].
  - intros e p newId hash s user s' Hreg.
    destruct (register_new_user _ _ _ _ _ _ _ Hreg) as (? & ? & _ & ->).
    by rewrite lookup_insert_eq.
  - intros e1 p1 id1 hash1 e2 p2 id2 hash2 s u1 s1 u2 s2 H1 H2 Hne.
    destruct (register_new_user _ _ _ _ _ _ _ H1) as (Ho1 & _ & _ & Hs1).
    destruct (register_new_user _ _ _ _ _ _ _ H2) as (Ho2 & _ & _ & Hs2).
    unfold ownedBy. rewrite Hs2, Hs1.
    rewrite lookup_insert_ne by done. rewrite !lookup_insert_eq. cbn.
    rewrite Ho1, Ho2. set_solver.
  - intros ops uid1 uid2 s _ Hin1 Hin2.
    assert (Hinv : everyoneHoldsStart s).
    { apply holdsStart_serve. intros uid u Hu. cbn in Hu.
      by rewrite lookup_empty in Hu. }
    apply elem_of_dom in Hin1 as [u1 Hu1]. apply elem_of_dom in Hin2 as [u2 Hu2].
    unfold ownedBy. rewrite Hu1, Hu2. cbn. split; by eapply Hinv.
Qed.

End Registration.

(** * Worked examples *)

(** ** Ownership *)



(** ** Geolocation proof *)

(** The Mine handler never reads the geolocation fields. *)
Lemma mine_ignores_geolocation auth body body' now s :
  b_h3Index body = b_h3Index body' → mine auth body now s = mine auth body' now s.
Proof. intros Heq. unfold mine. by rewrite Heq. Qed.

(** C3, the code at the failing inputs: for the first account and the
    neighbour cell, a Mine call succeeds with no geolocation proof, with a
    proof 19 seconds old, with a proof of accuracy 50 m and with a proof
    whose coordinates resolve to another cell; the Spawn handler answers the
    same four bodies with GPS_REQUIRED, GPS_STALE, GPS_ACCURACY_LOW and
    GPS_MISMATCH. *)
Theorem mine_without_geolocation_proof :
  let missing := bareBody NEAR_HEX in
  let stale := gpsBody NEAR_HEX (320006 # 10000) in
  let vague :=
    mkClaimBody (Some NEAR_HEX) (Num (320006 # 10000)) (Num (348 # 10)) (Num 50) (Num 1000) in
  let elsewhere := gpsBody NEAR_HEX (32 # 1) in
  ((mine (Some "user-1") missing 2000 twoUsers).1 = RespMined 11 ∧
   (mine (Some "user-1") stale 20000 twoUsers).1 = RespMined 11 ∧
   (mine (Some "user-1") vague 2000 twoUsers).1 = RespMined 11 ∧
   (mine (Some "user-1") elsewhere 2000 twoUsers).1 = RespMined 11) ∧
  NEAR_HEX ∈ ownedBy (mine (Some "user-1") missing 2000 twoUsers).2 "user-1" ∧
  ((spawn fragmentH3 (Some "user-1") missing 2000 twoUsers).1 =
     RespFail GPS_REQUIRED 10 (Some false) ∧
   (spawn fragmentH3 (Some "user-1") stale 20000 twoUsers).1 =
     RespFail GPS_STALE 10 (Some false) ∧
   (spawn fragmentH3 (Some "user-1") vague 2000 twoUsers).1 =
     RespFail GPS_ACCURACY_LOW 10 (Some false) ∧
   (spawn fragmentH3 (Some "user-1") elsewhere 2000 twoUsers).1 =
     RespFail GPS_MISMATCH 10 (Some false)).
Proof.
  cbv zeta. split; [|split].
  - repeat split; vm_compute; reflexivity.
  - apply (bool_decide_unpack _). vm_compute. exact I.
  - repeat split; vm_compute; reflexivity.
Qed.

(** ** Spawn *)

(** C4, the code at the failing input: the second account has mined the
    neighbour cell; a Mine call of the first account for it is refused with
    OWNED_BY_OTHER, and a Spawn call of the first account for it, with a
    valid geolocation proof, succeeds: the cell joins the first account's
    owned set, the balance drops from 10 to 5 and the Treasury gains 5. *)
Theorem spawn_takes_owned_cell :
  let s := (mine (Some "user-2") (bareBody NEAR_HEX) 1 twoUsers).2 in
  let proof := gpsBody NEAR_HEX (320006 # 10000) in
  let call := spawn fragmentH3 (Some "user-1") proof 2000 s in
  NEAR_HEX ∈ ownedBy s "user-2" ∧
  (mine (Some "user-1") proof 2000 s).1 = RespFail OWNED_BY_OTHER 10 (Some false) ∧
  call.1 = RespSpawned 5 5 ∧
  NEAR_HEX ∈ ownedBy call.2 "user-1" ∧ NEAR_HEX ∈ ownedBy call.2 "user-2" ∧
  treasury call.2 = treasury s + 5.
Proof.
  cbv zeta. repeat split;
    first [ apply (bool_decide_unpack _); vm_compute; exact I
          | vm_compute; reflexivity ].
Qed.

(** ** Classification *)

(** C5, instance: a query that returns one primary road.  The area
    classifier answers INTERURBAN and the local one SEA, both with the
    road-presence flag set. *)
Lemma classifier_priority_witness :
  let net := upstreamAnswers [way [("highway", "primary")]] in
  overpassFetch net = inr [way [("highway", "primary")]] ∧
  (∃ iz, (inferZoneTypeFromOverpass fragmentH3 DEFAULT_START_HEX net emptyServer).1 = inr iz ∧
         zoneType iz = INTERURBAN ∧ z_hasRoad iz = Some true) ∧
  (∃ iz, inferZoneTypeAtCentroid fragmentH3 DEFAULT_START_HEX net = inr iz ∧
         zoneType iz = SEA ∧ z_hasRoad iz = Some true).
Proof.
  cbv zeta. split; [reflexivity|].
  destruct (classifier_priority fragmentH3 DEFAULT_START_HEX
              (upstreamAnswers [way [("highway", "primary")]]) emptyServer
              [] (32 # 1, 348 # 10)%Q [way [("highway", "primary")]]
              eq_refl eq_refl eq_refl)
    as ((iz & H1 & H2 & H3) & (iz' & H1' & H2' & H3') & _).
  split.
  - exists iz. split; [exact H1|]. rewrite H2, H3. split; vm_compute; reflexivity.
  - exists iz'. split; [exact H1'|]. rewrite H2', H3'. split; vm_compute; reflexivity.
Defined.

(** C8, instance: a query that returns one coastline way, on the empty
    server.  The result is COAST and the buffer holds both cells of the
    fragment. *)
Lemma coastline_marks_buffer_witness :
  let net := upstreamAnswers [way [("natural", "coastline")]] in
  gridDisk fragmentH3 DEFAULT_START_HEX 4 = inr [DEFAULT_START_HEX; NEAR_HEX] ∧
  ∃ iz s',
    inferZoneTypeFromOverpass fragmentH3 DEFAULT_START_HEX net emptyServer = (inr iz, s') ∧
    zoneType iz = COAST ∧
    coastBufferHexes s' = coastBufferHexes emptyServer ∪ list_to_set [DEFAULT_START_HEX; NEAR_HEX] ∧
    (∀ c, c ∈ [DEFAULT_START_HEX; NEAR_HEX] → c ∈ coastBufferHexes s').
Proof.
  cbv zeta. split; [reflexivity|].
  apply (coastline_marks_buffer fragmentH3 DEFAULT_START_HEX
           (upstreamAnswers [way [("natural", "coastline")]]) emptyServer
           [] [way [("natural", "coastline")]] [DEFAULT_START_HEX; NEAR_HEX]).
  - reflexivity.
  - reflexivity.
  - exists (way [("natural", "coastline")]), (list_to_map [("natural", "coastline")]).
    split; [left|]. split; [reflexivity|]. vm_compute. reflexivity.
  - vm_compute. reflexivity.
  - vm_compute. reflexivity.
  - vm_compute. reflexivity.
  - vm_compute. reflexivity.
  - vm_compute. reflexivity.
  - reflexivity.
Defined.

(** C7, counterexample to the statement as worded: the neighbour cell is
    cached as COAST, the query for the start cell fails at every attempt,
    and the latitude-based fallback category of the start cell is
    INTERURBAN; the route answers COAST. *)
Lemma fallback_category_counterexample :
  overpassFetch upstreamDown = inl "ECONNREFUSED" ∧
  hexCache coastCached !! DEFAULT_START_HEX = None ∧
  fallbackZoneType fragmentH3 DEFAULT_START_HEX = inr INTERURBAN ∧
  getHex fragmentH3 DEFAULT_START_HEX upstreamDown coastCached =
    (RespHex DEFAULT_START_HEX COAST
       [ "Overpass failed in /api/hex: ECONNREFUSED";
         "Using hash-based zoneType fallback for this hex";
         "Coast buffer: within 3 hexes of cached coastline" ]
       None None,
     coastCached) ∧
  (getHex fragmentH3 DEFAULT_START_HEX upstreamDown coastCached).1 ≠
    RespHex DEFAULT_START_HEX INTERURBAN
      [ "Overpass failed in /api/hex: ECONNREFUSED";
        "Using hash-based zoneType fallback for this hex" ]
      None None.
Proof.
  repeat split; try (vm_compute; reflexivity). vm_compute. discriminate.
Qed.

(** C7, instance of the amended statement: the query for the start cell
    fails while another request classifies the neighbour cell as coast.  The
    call leaves the state as that request left it, with no entry for the
    start cell, and answers COAST because of the neighbour's new entry; the
    osm route, on the cached state, answers INTERURBAN and changes
    nothing. *)
Lemma fallback_leaves_cache_witness :
  let others : Interference := fun s =>
    (getHex fragmentH3 NEAR_HEX (upstreamAnswers [way [("natural", "coastline")]]) s).2 in
  let call := getHexAwait fragmentH3 others DEFAULT_START_HEX upstreamDown emptyServer in
  overpassFetch upstreamDown = inl "ECONNREFUSED" ∧
  lookupHexCache DEFAULT_START_HEX emptyServer = CacheMiss ∧
  call.2 = others emptyServer ∧
  hexCache call.2 !! DEFAULT_START_HEX = None ∧
  (∃ dbg, call.1 = RespHex DEFAULT_START_HEX COAST dbg None None) ∧
  (∃ dbg, getHexOsm fragmentH3 DEFAULT_START_HEX upstreamDown coastCached =
            (RespHex DEFAULT_START_HEX INTERURBAN dbg None None, coastCached)).
Proof.
  cbv zeta.
  destruct (fallback_leaves_cache fragmentH3 (fun e => e) (fun e => e)
              DEFAULT_START_HEX upstreamDown "ECONNREFUSED" eq_refl)
    as (Hhex & Hosm & _).
  destruct (Hhex (fun s => (getHex fragmentH3 NEAR_HEX
                              (upstreamAnswers [way [("natural", "coastline")]]) s).2)
                 emptyServer) as [Hstate Hresp]; [discriminate|reflexivity|].
  destruct (Hresp INTERURBAN eq_refl) as [dbg Hdbg].
  destruct (Hosm coastCached) as (Hs & _ & Hz).
  destruct (Hz INTERURBAN eq_refl) as [[dbg' Hdbg'] _].
  split; [reflexivity|]. split; [reflexivity|]. split; [exact Hstate|].
  split; [rewrite Hstate; vm_compute; reflexivity|].
  split.
  - exists dbg. rewrite Hdbg. reflexivity.
  - exists dbg'. apply injective_projections; [exact Hdbg'|exact Hs].
Defined.

(** ** Coastal buffer *)

(** C2, instance: marking the start cell twice on the empty server writes
    the buffer file once. *)
Lemma coast_buffer_only_grows_witness :
  let s1 := markCoastAndBuffer fragmentH3 DEFAULT_START_HEX emptyServer in
  let s2 := markCoastAndBuffer fragmentH3 DEFAULT_START_HEX s1 in
  coastBufferHexes s1 ⊆ coastBufferHexes s2 ∧
  fsLog s2 = fsLog s1 ∧
  fsLog s1 = [FsCoastBuffer (coastBufferHexes s1)].
Proof.
  cbv zeta.
  destruct (coast_buffer_only_grows fragmentH3 (fun e => e) (fun e => e) []
              DEFAULT_START_HEX
              (markCoastAndBuffer fragmentH3 DEFAULT_START_HEX emptyServer))
    as ((Hsub & Hlog) & _).
  split; [exact Hsub|]. split; [|vm_compute; reflexivity].
  rewrite Hlog. apply decide_True. vm_compute. reflexivity.
Defined.

(** ** Drive mode *)



(** ** Registration *)

(** C9, instance: the two registrations of [twoUsers]. *)
Lemma registration_shares_start_cell_witness :
  "user-1" ≠ "user-2" ∧
  DEFAULT_START_HEX ∈ ownedBy twoUsers "user-1" ∧
  DEFAULT_START_HEX ∈ ownedBy twoUsers "user-2".
Proof.
  split; [discriminate|].
  destruct (registration_shares_start_cell fragmentH3 (fun e => e) (fun e => e))
    as (_ & _ & Hall).
  apply (Hall [ OpRegister (Some "ann@example.org") (Some "secret1") "user-1" "hash-1";
                OpRegister (Some "bob@example.org") (Some "secret2") "user-2" "hash-2" ]
              "user-1" "user-2").
  - discriminate.
  - apply (bool_decide_unpack _). vm_compute. exact I.
  - apply (bool_decide_unpack _). vm_compute. exact I.
Defined.

(** * Further properties *)

(** ** Upstream queries *)

Section Upstream.

Implicit Types (net : Upstream) (k j : nat) (elements : list OverpassElement).

(** What one pass of the loop does with an attempt that delivers nothing:
    before the fourth attempt it goes on to the next one, whatever the
    status or the error was. *)
Lemma overpassFetch_from_retries net remaining attempt :
  answered (net (endpointOf attempt) attempt) = None → (attempt < 3)%nat →
  overpassFetch_from net (S remaining) attempt =
  overpassFetch_from net remaining (S attempt).
Proof.
  intros Hnone Hlt. cbn [overpassFetch_from]. fold (endpointOf attempt).
  destruct (net (endpointOf attempt) attempt) as [els|status|message]; [done| |].
  - unfold maxAttempts. cbn [Nat.sub].
    destruct (Nat.ltb_spec attempt 3); [|lia]. by destruct (_ || _).
  - unfold maxAttempts. cbn [Nat.sub]. by destruct (Nat.ltb_spec attempt 3); [|lia].
Qed.

Lemma overpassFetch_from_last net :
  overpassFetch_from net 1%nat 3%nat =
  match answered (net (endpointOf 3%nat) 3%nat) with
  | Some elements => inr elements
  | None => inl (lastWords (net (endpointOf 3%nat) 3%nat))
  end.
Proof.
  cbn [overpassFetch_from]. fold (endpointOf 3%nat).
  destruct (net (endpointOf 3%nat) 3%nat) as [els|status|message]; cbn [answered lastWords];
    [done| |done].
  by destruct (_ || _).
Qed.

Lemma overpassFetch_from_answers net remaining attempt elements :
  answered (net (endpointOf attempt) attempt) = Some elements →
  overpassFetch_from net (S remaining) attempt = inr elements.
Proof.
  intros Hans. cbn [overpassFetch_from]. fold (endpointOf attempt).
  destruct (net (endpointOf attempt) attempt); cbn in Hans; congruence.
Qed.

Lemma overpassFetch_from_inr net remaining attempt elements :
  (attempt + remaining = 4)%nat →
  overpassFetch_from net remaining attempt = inr elements ↔
  ∃ k, (attempt ≤ k < 4)%nat ∧
       answered (net (endpointOf k) k) = Some elements ∧
       ∀ j, (attempt ≤ j < k)%nat → answered (net (endpointOf j) j) = None.
Proof.
  revert attempt. induction remaining as [|remaining IH]; intros attempt Hsum.
  - cbn. split; [done|]. intros (k & Hk & _). lia.
  - destruct (answered (net (endpointOf attempt) attempt)) as [els|] eqn:Hans.
    + rewrite (overpassFetch_from_answers _ _ _ _ Hans). split.
      * intros [= <-]. exists attempt. split; [lia|]. split; [done|]. intros j. lia.
      * intros (k & Hk & Hk1 & Hbefore). destruct (decide (k = attempt)) as [->|Hne].
        -- congruence.
        -- rewrite (Hbefore attempt) in Hans by lia. discriminate.
    + destruct (decide (attempt < 3)%nat) as [Hlt|Hge].
      * rewrite (overpassFetch_from_retries _ _ _ Hans Hlt), IH by lia. split.
        -- intros (k & Hk & Hk1 & Hbefore). exists k. split; [lia|]. split; [done|].
           intros j Hj. destruct (decide (j = attempt)) as [->|]; [done|].
           apply Hbefore. lia.
        -- intros (k & Hk & Hk1 & Hbefore). exists k.
           assert (k ≠ attempt) by (intros ->; congruence).
           split; [lia|]. split; [done|]. intros j Hj. apply Hbefore. lia.
      * assert (attempt = 3)%nat as -> by lia. assert (remaining = 0)%nat as -> by lia.
        rewrite overpassFetch_from_last, Hans. split; [done|].
        intros (k & Hk & Hk1 & _). assert (k = 3)%nat as -> by lia. congruence.
Qed.

Lemma overpassFetch_from_inl net remaining attempt message :
  (attempt + S remaining = 4)%nat →
  overpassFetch_from net (S remaining) attempt = inl message ↔
  (∀ k, (attempt ≤ k < 4)%nat → answered (net (endpointOf k) k) = None) ∧
  message = lastWords (net (endpointOf 3%nat) 3%nat).
Proof.
  revert attempt. induction remaining as [|remaining IH]; intros attempt Hsum.
  - assert (attempt = 3)%nat as -> by lia. rewrite overpassFetch_from_last.
    destruct (answered (net (endpointOf 3%nat) 3%nat)) as [els|] eqn:Hans.
    + split; [done|]. intros [Hnone _]. rewrite Hnone in Hans by lia. discriminate.
    + split.
      * intros [= <-]. split; [|done]. intros k Hk. by assert (k = 3)%nat as -> by lia.
      * by intros [_ ->].
  - destruct (answered (net (endpointOf attempt) attempt)) as [els|] eqn:Hans.
    + rewrite (overpassFetch_from_answers _ _ _ _ Hans). split; [done|].
      intros [Hnone _]. rewrite Hnone in Hans by lia. discriminate.
    + rewrite (overpassFetch_from_retries _ _ _ Hans) by lia. rewrite IH by lia. split.
      * intros [Hnone ->]. split; [|done]. intros k Hk.
        destruct (decide (k = attempt)) as [->|]; [done|]. apply Hnone. lia.
      * intros [Hnone ->]. split; [|done]. intros k Hk. apply Hnone. lia.
Qed.

(** X1: a query succeeds exactly when one of the four attempts is answered
    with a 2xx response, and it returns the elements of the first such
    attempt (none when the body has no [elements] field); attempt [k] goes
    to endpoint [k mod 3], and whatever the earlier attempts came to (a
    429, a 5xx, any other status, a network error) they were retried. *)
Theorem overpassFetch_first_answer net elements :
  overpassFetch net = inr elements ↔
  ∃ k, (k < 4)%nat ∧
       answered (net (endpointOf k) k) = Some elements ∧
       ∀ j, (j < k)%nat → answered (net (endpointOf j) j) = None.
Proof.
  unfold overpassFetch, maxAttempts. rewrite overpassFetch_from_inr by done. split.
  - intros (k & Hk & Hans & Hbefore). exists k. split; [lia|]. split; [done|].
    intros j Hj. apply Hbefore. lia.
  - intros (k & Hk & Hans & Hbefore). exists k. split; [lia|]. split; [done|].
    intros j Hj. apply Hbefore. lia.
Qed.

(** X2: a query throws exactly when none of the four attempts is answered
    with a 2xx response, and the error is the one of the fourth attempt:
    "exhausted retries" after a 429 or a 5xx, the status after any other
    status, the network error's own message otherwise. *)
Theorem overpassFetch_gives_up net message :
  overpassFetch net = inl message ↔
  (∀ k, (k < 4)%nat → answered (net (endpointOf k) k) = None) ∧
  message = lastWords (net (endpointOf 3%nat) 3%nat).
Proof.
  unfold overpassFetch, maxAttempts. rewrite overpassFetch_from_inl by done. split.
  - intros [Hnone ->]. split; [|done]. intros k Hk. apply Hnone. lia.
  - intros [Hnone ->]. split; [|done]. intros k Hk. apply Hnone. lia.
Qed.

End Upstream.

(** ** Classifier: widening, road class, road cells *)

Section ClassifierMore.

Context (h3 : H3Lib).

Implicit Types (s : Server) (h : string) (net : Upstream)
  (elements : list OverpassElement) (f : Flags) (base : InferredZone).

Lemma existsb_cachedCoast s disk :
  existsb (cachedCoast s) disk = true ↔
  ∃ idx entry, idx ∈ disk ∧ hexCache s !! idx = Some entry ∧ ce_zoneType entry = COAST.
Proof.
  rewrite existsb_exists. split.
  - intros (idx & Hin & Hc). unfold cachedCoast in Hc.
    destruct (hexCache s !! idx) as [entry|] eqn:He; [|done].
    exists idx, entry. split; [by apply list_elem_of_In|]. split; [done|].
    by apply bool_decide_eq_true_1 in Hc.
  - intros (idx & entry & Hin & He & Hc). exists idx. split; [by apply list_elem_of_In|].
    unfold cachedCoast. rewrite He. by apply bool_decide_eq_true_2.
Qed.

(** X3: the read-time coast widening returns the classification it is given
    when the category is MILITARY, PRISON, HOSPITAL, MAIN_ROAD or CLIFF;
    otherwise it changes at most the category, to COAST, and appends one
    evidence line, and it does so exactly when a cell of the disk of radius
    3 is cached as COAST; the road-presence flag and the road class pass
    through. *)
Theorem coast_widening h base s :
  let out := applyCoastBufferFromCache h3 h base s in
  (nonOverridable (zoneType base) = true → out = base) ∧
  (out = base ∨
   out = mkInferredZone COAST
           (debug base ++ ["Coast buffer: within 3 hexes of cached coastline"])
           (z_hasRoad base) (z_roadClass base)) ∧
  (out ≠ base →
   nonOverridable (zoneType base) = false ∧
   ∃ disk idx entry,
     gridDisk h3 h 3 = inr disk ∧ idx ∈ disk ∧
     hexCache s !! idx = Some entry ∧ ce_zoneType entry = COAST) ∧
  (∀ disk idx entry,
     nonOverridable (zoneType base) = false →
     gridDisk h3 h 3 = inr disk → idx ∈ disk →
     hexCache s !! idx = Some entry → ce_zoneType entry = COAST →
     zoneType out = COAST).
Proof.
  cbv zeta. unfold applyCoastBufferFromCache.
  destruct (nonOverridable (zoneType base)) eqn:Hno.
  { split; [done|]. split; [by left|]. split; done. }
  split; [done|].
  destruct (gridDisk h3 h 3) as [e|disk] eqn:Hd.
  { split; [by left|]. split; done. }
  destruct (existsb (cachedCoast s) disk) eqn:Hex.
  - apply existsb_cachedCoast in Hex as (idx & entry & Hin & He & Hc).
    split; [by right|]. split; [|done].
    intros _. split; [done|]. by exists disk, idx, entry.
  - split; [by left|]. split; [done|].
    intros disk' idx entry _ [= <-] Hin He Hc.
    assert (existsb (cachedCoast s) disk = true) as Hy
      by (apply existsb_cachedCoast; eauto).
    congruence.
Qed.

(** *** The road class *)

Lemma roadPriority_nonneg k : 0 <= roadPriority k.
Proof. unfold roadPriority. repeat case_match; lia. Qed.

Lemma roadPriority_pos k :
  0 < roadPriority k →
  k = "motorway" ∨ k = "trunk" ∨ k = "primary" ∨ k = "secondary".
Proof.
  unfold roadPriority.
  destruct (String.eqb_spec k "motorway"); [auto|].
  destruct (String.eqb_spec k "trunk"); [auto|].
  destruct (String.eqb_spec k "primary"); [auto|].
  destruct (String.eqb_spec k "secondary"); [auto|]. lia.
Qed.

Lemma strongerRoadClass_priority seen highway :
  priorityOf (strongerRoadClass seen highway) =
  Z.max (priorityOf seen) (roadPriority highway).
Proof.
  unfold strongerRoadClass. fold (priorityOf seen).
  destruct (Z.ltb_spec (priorityOf seen) (roadPriority highway)); cbn [priorityOf]; lia.
Qed.

Lemma roadClass_scanBBox elements f :
  roadClass (foldl scanBBox f elements) = foldl roadClassStep (roadClass f) elements.
Proof.
  revert f. induction elements as [|el elements IH]; intros f; [done|].
  cbn [foldl]. by rewrite IH.
Qed.

Lemma roadClass_scanCentroid elements f :
  roadClass (foldl scanCentroid f elements) = foldl roadClassStep (roadClass f) elements.
Proof.
  revert f. induction elements as [|el elements IH]; intros f; [done|].
  cbn [foldl]. by rewrite IH.
Qed.

Lemma roadClassStep_priority seen el :
  priorityOf (roadClassStep seen el) =
  Z.max (priorityOf seen) (bestRoadPriority [el]).
Proof.
  unfold roadClassStep, bestRoadPriority. cbn [foldr].
  destruct (highwayTag _).
  - rewrite strongerRoadClass_priority.
    pose proof (roadPriority_nonneg (default "" (default ∅ (el_tags el) !! "highway"))).
    lia.
  - assert (0 <= priorityOf seen); [|lia].
    destruct seen; cbn; [apply roadPriority_nonneg|done].
Qed.

Lemma bestRoadPriority_nonneg elements : 0 <= bestRoadPriority elements.
Proof.
  induction elements as [|el elements IH]; [done|].
  unfold bestRoadPriority. cbn [foldr]. fold (bestRoadPriority elements).
  destruct (highwayTag _); lia.
Qed.

Lemma bestRoadPriority_cons el elements :
  bestRoadPriority (el :: elements) =
  Z.max (bestRoadPriority [el]) (bestRoadPriority elements).
Proof.
  pose proof (bestRoadPriority_nonneg elements).
  unfold bestRoadPriority at 1 2. cbn [foldr]. fold (bestRoadPriority elements).
  destruct (highwayTag _); [|lia].
  pose proof (roadPriority_nonneg (default "" (default ∅ (el_tags el) !! "highway"))).
  lia.
Qed.

Lemma foldl_roadClassStep_priority elements seen :
  priorityOf (foldl roadClassStep seen elements) =
  Z.max (priorityOf seen) (bestRoadPriority elements).
Proof.
  revert seen. induction elements as [|el elements IH]; intros seen.
  - change (bestRoadPriority []) with 0. cbn [foldl].
    assert (0 <= priorityOf seen); [|lia].
    destruct seen; cbn; [apply roadPriority_nonneg|done].
  - cbn [foldl]. rewrite IH, roadClassStep_priority, (bestRoadPriority_cons el elements). lia.
Qed.

(** A class that is kept was seen: it is the value of some highway tag, and
    one of the four ranked classes. *)
Lemma foldl_roadClassStep_seen elements seen rc :
  foldl roadClassStep seen elements = Some rc →
  seen = Some rc ∨
  (0 < roadPriority rc ∧
   ∃ el tags, el ∈ elements ∧ el_tags el = Some tags ∧ tags !! "highway" = Some rc).
Proof.
  revert seen. induction elements as [|el elements IH]; intros seen Hrc; [by left|].
  cbn [foldl] in Hrc. destruct (IH _ Hrc) as [Hstep|(Hpos & el' & tags & Hin & Ht & Hhw)].
  - unfold roadClassStep in Hstep. destruct (highwayTag _) eqn:Hhw; [|by left].
    unfold strongerRoadClass in Hstep.
    destruct (Z.ltb_spec
                (match seen with Some rc0 => roadPriority rc0 | None => 0 end)
                (roadPriority (default "" (default ∅ (el_tags el) !! "highway"))))
      as [Hlt|_]; [|by left].
    injection Hstep as <-. right. split.
    { assert (0 <= match seen with Some rc0 => roadPriority rc0 | None => 0 end); [|lia].
      destruct seen; [apply roadPriority_nonneg|done]. }
    unfold highwayTag, tagSet in Hhw.
    destruct (el_tags el) as [tags|] eqn:Ht; simpl in Hhw |- *.
    + destruct (tags !! "highway") as [v|] eqn:Hv; [|done].
      exists el, tags. split; [left|]. by split.
    + by rewrite lookup_empty in Hhw.
  - right. split; [done|]. exists el', tags. split; [by right|]. by split.
Qed.

(** X4: the road class both classifiers report is the strongest one among
    the highway tags of the returned features, in the order motorway, trunk,
    primary, secondary: its priority is the highest priority present, it is
    the value of a highway tag of some feature, and no class is reported
    exactly when no feature has a highway tag of one of the four classes. *)
Theorem roadClass_is_strongest h net s b ll elements :
  cellToBoundary h3 h = inr b → cellToLatLng h3 h = inr ll →
  overpassFetch net = inr elements →
  ∃ area loc,
    (inferZoneTypeFromOverpass h3 h net s).1 = inr area ∧
    inferZoneTypeAtCentroid h3 h net = inr loc ∧
    z_roadClass area = z_roadClass loc ∧
    priorityOf (z_roadClass area) = bestRoadPriority elements ∧
    (z_roadClass area = None ↔ bestRoadPriority elements = 0) ∧
    (∀ rc, z_roadClass area = Some rc →
       (rc = "motorway" ∨ rc = "trunk" ∨ rc = "primary" ∨ rc = "secondary") ∧
       ∃ el tags, el ∈ elements ∧ el_tags el = Some tags ∧
                  tags !! "highway" = Some rc).
Proof.
  intros Hb Hll He.
  assert (Harea : ∃ area, (inferZoneTypeFromOverpass h3 h net s).1 = inr area ∧
            z_roadClass area = foldl roadClassStep None elements).
  { unfold inferZoneTypeFromOverpass. rewrite Hb, He.
    rewrite (roadClass_scanBBox elements noFlags). cbn [roadClass noFlags].
    repeat case_match; cbn [fst]; by eexists. }
  assert (Hloc : ∃ loc, inferZoneTypeAtCentroid h3 h net = inr loc ∧
            z_roadClass loc = foldl roadClassStep None elements).
  { unfold inferZoneTypeAtCentroid. rewrite Hll, He.
    rewrite (roadClass_scanCentroid elements noFlags). cbn [roadClass noFlags].
    repeat case_match; by eexists. }
  destruct Harea as (area & Ha & Hra), Hloc as (loc & Hl & Hrl).
  exists area, loc. split; [done|]. split; [done|]. split; [congruence|].
  pose proof (foldl_roadClassStep_priority elements None) as Hp.
  pose proof (bestRoadPriority_nonneg elements) as Hnn.
  cbn [priorityOf] in Hp. rewrite Z.max_r in Hp by done.
  rewrite Hra. split; [done|]. split.
  - split; [intros Hn; by rewrite Hn in Hp|].
    intros Hz. destruct (foldl roadClassStep None elements) as [rc|] eqn:Hrc; [|done].
    destruct (foldl_roadClassStep_seen _ _ _ Hrc) as [|(Hpos & _)]; [done|].
    cbn [priorityOf] in Hp. lia.
  - intros rc Hrc.
    destruct (foldl_roadClassStep_seen _ _ _ Hrc) as [|(Hpos & Hex)]; [done|].
    split; [by apply roadPriority_pos|done].
Qed.

(** X5: given the same features, the two classifiers return the same
    category whenever no feature carries a cliff or a coastline/beach tag
    and some rule applies; when no rule applies the area classifier returns
    INTERURBAN and the local one SEA; and the local classifier never returns
    CLIFF, COAST or INTERURBAN. *)
Theorem classifiers_agree h netA netL s b ll elements :
  cellToBoundary h3 h = inr b → cellToLatLng h3 h = inr ll →
  overpassFetch netA = inr elements → overpassFetch netL = inr elements →
  ∃ area loc,
    (inferZoneTypeFromOverpass h3 h netA s).1 = inr area ∧
    inferZoneTypeAtCentroid h3 h netL = inr loc ∧
    (anyTag cliffTag elements = false → anyTag coastTag elements = false →
     zoneType area = zoneType loc ∨
     (zoneType area = INTERURBAN ∧ zoneType loc = SEA ∧
      ∀ rule, rule ∈ areaPriority → anyTag rule.1 elements = false)) ∧
    zoneType loc ≠ CLIFF ∧ zoneType loc ≠ COAST ∧ zoneType loc ≠ INTERURBAN.
Proof.
  intros Hb Hll HeA HeL.
  destruct (inferZoneTypeFromOverpass_resolves h3 h netA s b elements Hb HeA)
    as (area & Ha & Hza & _).
  destruct (inferZoneTypeAtCentroid_resolves h3 h netL ll elements Hll HeL)
    as (loc & Hl & Hzl & _).
  exists area, loc. rewrite Ha. split; [done|]. split; [done|].
  rewrite Hza, Hzl. cbn [firstMatch areaPriority localPriority].
  destruct (anyTag militaryTag elements) eqn:H1; [by auto|].
  destruct (anyTag prisonOrGovernmentTag elements) eqn:H2; [by auto|].
  destruct (anyTag hospitalTag elements) eqn:H3; [by auto|].
  destruct (anyTag mainRoadTag elements) eqn:H4; [by auto|].
  destruct (anyTag urbanTag elements) eqn:H5.
  { split; [|done]. intros -> ->. by left. }
  destruct (anyTag seaTag elements) eqn:H6.
  { split; [|done]. intros -> ->. by left. }
  destruct (anyTag natureTag elements) eqn:H7.
  { split; [|done]. intros -> ->. by left. }
  split; [|done]. intros Hc1 Hc2. rewrite Hc1, Hc2. right.
  split; [done|]. split; [done|].
  intros rule Hin. unfold areaPriority in Hin.
  repeat (apply elem_of_cons in Hin as [->|Hin]; [done|]).
  by apply elem_of_nil in Hin.
Qed.

(** X6: drive mode keeps a candidate cell exactly when the caller does not
    own it, its centroid query succeeds and some returned feature has a
    non-empty highway tag, whatever the category of the cell. *)
Theorem claimable_iff_highway (user : User) (nets : string → Upstream) (idx : string) :
  claimable h3 user nets idx = true ↔
  (idx ∉ ownedHexes user) ∧
  ∃ ll elements,
    cellToLatLng h3 idx = inr ll ∧ overpassFetch (nets idx) = inr elements ∧
    anyTag highwayTag elements = true.
Proof.
  unfold claimable. case_decide as Hown.
  { split; [done|]. by intros [? _]. }
  destruct (cellToLatLng h3 idx) as [e|ll] eqn:Hll.
  { unfold inferZoneTypeAtCentroid. rewrite Hll. split; [done|].
    by intros (_ & ? & ? & ? & _). }
  destruct (overpassFetch (nets idx)) as [e|elements] eqn:He.
  { unfold inferZoneTypeAtCentroid. rewrite Hll, He. split; [done|].
    by intros (_ & ? & ? & _ & ? & _). }
  destruct (inferZoneTypeAtCentroid_resolves h3 idx (nets idx) ll elements Hll He)
    as (iz & -> & Hz & Hr).
  unfold isRoadHex. rewrite Hr, Hz. cbn [default from_option].
  assert (Hmain : firstMatch localPriority SEA elements = MAIN_ROAD →
                  anyTag highwayTag elements = true).
  { cbn [firstMatch localPriority].
    destruct (anyTag militaryTag elements); [done|].
    destruct (anyTag prisonOrGovernmentTag elements); [done|].
    destruct (anyTag hospitalTag elements); [done|].
    destruct (anyTag mainRoadTag elements) eqn:Hm; [|by repeat case_match].
    intros _. apply existsb_exists in Hm as (el & Hin & Hm).
    apply existsb_exists. exists el. split; [done|].
    unfold mainRoadTag in Hm. by apply andb_true_iff in Hm as [? _]. }
  split.
  - intros Hroad. split; [done|]. exists ll, elements. split; [done|]. split; [done|].
    apply orb_true_iff in Hroad as [Hm|]; [|done].
    apply Hmain. by apply bool_decide_eq_true_1 in Hm.
  - intros (_ & ll' & els' & _ & [= <-] & Hhw). rewrite Hhw. apply orb_true_r.
Qed.

End ClassifierMore.

(** ** The claim requests, case by case *)

Section Claims.

Context (h3 : H3Lib).

Implicit Types (s : Server) (uid h idx : string) (u user : User)
  (l cells : list string) (now : Z).

Lemma credited_nil u : credited 0 [] u = u.
Proof.
  destruct u as [i e p b ub o]. unfold credited. cbn. f_equal; [lia|set_solver].
Qed.

Lemma credited_credited a1 a2 l1 l2 u :
  credited a2 l2 (credited a1 l1 u) = credited (a1 + a2) (l1 ++ l2) u.
Proof.
  unfold credited. cbn. f_equal; [lia|]. rewrite list_to_set_app_L. set_solver.
Qed.

Lemma claimOne_credited uid now s idx u :
  usersById s !! uid = Some u →
  claimOne uid now s idx =
  with_miningEvents (fun evs => evs ++ [mkMiningEvent now uid idx])
    (put_user uid (credited 1 [idx] u) s).
Proof.
  intros Hu. unfold claimOne. rewrite Hu. do 2 f_equal.
  unfold credited, set_balance, set_ownedHexes. cbn. f_equal. set_solver.
Qed.

Lemma stepOne_credited uid now s idx u :
  usersById s !! uid = Some u →
  stepOne uid now s idx =
  with_miningEvents (fun evs => evs ++ [mkMiningEvent now uid idx])
    (put_user uid (credited 0 [idx] u) s).
Proof.
  intros Hu. unfold stepOne. rewrite Hu. do 2 f_equal.
  unfold credited, set_ownedHexes. destruct u. cbn. f_equal; [lia|set_solver].
Qed.

(** The two claiming loops in closed form. *)
Lemma foldl_claimOne_effect uid now l s u :
  usersById s !! uid = Some u →
  let s' := foldl (claimOne uid now) s l in
  usersById s' = <[uid := credited (Z.of_nat (length l)) l u]> (usersById s) ∧
  miningEvents s' = miningEvents s ++ (mkMiningEvent now uid <$> l) ∧
  hexCache s' = hexCache s ∧ coastBufferHexes s' = coastBufferHexes s ∧
  treasury s' = treasury s ∧ fsLog s' = fsLog s.
Proof.
  cbv zeta. revert s u. induction l as [|idx l IH]; intros s u Hu; cbn [foldl].
  - cbn. rewrite credited_nil, insert_id by done. by rewrite app_nil_r.
  - rewrite (claimOne_credited _ _ _ _ _ Hu).
    edestruct (IH (with_miningEvents (fun evs => evs ++ [mkMiningEvent now uid idx])
                     (put_user uid (credited 1 [idx] u) s)) (credited 1 [idx] u))
      as (-> & -> & -> & -> & -> & ->).
    { state_simpl. by rewrite lookup_insert_eq. }
    state_simpl. rewrite insert_insert_eq, credited_credited.
    repeat split; [|by rewrite <- app_assoc].
    do 2 f_equal. cbn [length]. lia.
Qed.

Lemma foldl_stepOne_effect uid now l s u :
  usersById s !! uid = Some u →
  let s' := foldl (stepOne uid now) s l in
  usersById s' = <[uid := credited 0 l u]> (usersById s) ∧
  miningEvents s' = miningEvents s ++ (mkMiningEvent now uid <$> l) ∧
  hexCache s' = hexCache s ∧ coastBufferHexes s' = coastBufferHexes s ∧
  treasury s' = treasury s ∧ fsLog s' = fsLog s.
Proof.
  cbv zeta. revert s u. induction l as [|idx l IH]; intros s u Hu; cbn [foldl].
  - cbn. rewrite credited_nil, insert_id by done. by rewrite app_nil_r.
  - rewrite (stepOne_credited _ _ _ _ _ Hu).
    edestruct (IH (with_miningEvents (fun evs => evs ++ [mkMiningEvent now uid idx])
                     (put_user uid (credited 0 [idx] u) s)) (credited 0 [idx] u))
      as (-> & -> & -> & -> & -> & ->).
    { state_simpl. by rewrite lookup_insert_eq. }
    state_simpl. rewrite insert_insert_eq, credited_credited.
    repeat split; by rewrite <- app_assoc.
Qed.

Lemma credited_set_balance a b l u :
  credited a l (set_balance (balance u + b) u) = credited (b + a) l u.
Proof. unfold credited, set_balance. cbn. f_equal. lia. Qed.

Lemma collectTreasuryFee_nonneg amount s :
  0 <= amount →
  usersById (collectTreasuryFee amount s) = usersById s ∧
  hexCache (collectTreasuryFee amount s) = hexCache s ∧
  coastBufferHexes (collectTreasuryFee amount s) = coastBufferHexes s ∧
  miningEvents (collectTreasuryFee amount s) = miningEvents s ∧
  treasury (collectTreasuryFee amount s) = treasury s + amount ∧
  (fsLog (collectTreasuryFee amount s) = fsLog s ++ [FsTreasury (treasury s + amount)] ∨
   (amount = 0 ∧ fsLog (collectTreasuryFee amount s) = fsLog s)).
Proof.
  intros Hpos. unfold collectTreasuryFee. destruct (Z.leb_spec amount 0).
  - assert (amount = 0) as -> by lia. repeat split; [lia|by right].
  - repeat split. by left.
Qed.

(** The end of every successful claim: the two saves. *)
Lemma claim_saved uid user amount paid cells now s s2 :
  usersById s2 = <[uid := credited amount cells user]> (usersById s) →
  miningEvents s2 = miningEvents s ++ (mkMiningEvent now uid <$> cells) →
  hexCache s2 = hexCache s → coastBufferHexes s2 = coastBufferHexes s →
  treasury s2 = treasury s + paid →
  (fsLog s2 = fsLog s ++ [FsTreasury (treasury s + paid)] ∨
   (paid = 0 ∧ fsLog s2 = fsLog s)) →
  claimEffect uid user amount paid cells now s (saveUsers (saveMiningEvents s2)) ∧
  claimWrites s (saveUsers (saveMiningEvents s2)).
Proof.
  intros Hu He Hc Hb Ht Hlog. split.
  - by repeat split.
  - unfold claimWrites. state_simpl. destruct Hlog as [Hlog|[-> Hlog]].
    + exists [FsTreasury (treasury s2)]. rewrite Hlog, Ht. split; [|by left].
      by rewrite <- !app_assoc.
    + exists []. rewrite Hlog. split; [|right; split; [done|lia]].
      by rewrite <- !app_assoc.
Qed.

(** [POST /api/mine], every outcome. *)
Lemma mine_outcome auth body now s :
  (∃ r, mine auth body now s = (r, s) ∧ ∀ bal, r ≠ RespMined bal) ∨
  (∃ uid user h,
     auth = Some uid ∧ usersById s !! uid = Some user ∧
     validIndex (b_h3Index body) = Some h ∧
     (h ∉ buildGlobalOwnedHexesSet s) ∧ (h ∉ coastBufferHexes s) ∧
     (mine auth body now s).1 = RespMined (balance user + 1) ∧
     claimEffect uid user 1 0 [h] now s (mine auth body now s).2 ∧
     claimWrites s (mine auth body now s).2).
Proof.
  destruct (mine_cases auth body now s)
    as [?|(uid & user & h & Hu & Ha & Hv & Hg & Hb & Heq)]; [by left|].
  right. exists uid, user, h. rewrite Heq. cbn [fst snd].
  repeat (split; [done|]).
  apply claim_saved; state_simpl; try done.
  - f_equal. unfold credited, set_balance, set_ownedHexes. cbn. f_equal. set_solver.
  - lia.
  - by right.
Qed.

(** [POST /api/spawn], every outcome. *)
Lemma spawn_outcome auth body now s :
  (∃ r, spawn h3 auth body now s = (r, s) ∧ ∀ bal cost, r ≠ RespSpawned bal cost) ∨
  (∃ uid user h lat lon accuracyM gpsAt,
     auth = Some uid ∧ usersById s !! uid = Some user ∧
     validIndex (b_h3Index body) = Some h ∧
     gpsProof body = Some (lat, lon, accuracyM, gpsAt) ∧
     Qgtb (inject_Z now - gpsAt) GPS_MINE_MAX_AGE_MS = false ∧
     Qgtb accuracyM GPS_MINE_ACCURACY_THRESHOLD_M = false ∧
     latLngToCell h3 lat lon 11 = inr h ∧
     (h ∉ ownedHexes user) ∧ SPAWN_COST_GHX <= balance user ∧
     (spawn h3 auth body now s).1 = RespSpawned (balance user - 5) 5 ∧
     claimEffect uid user (-5) 5 [h] now s (spawn h3 auth body now s).2 ∧
     claimWrites s (spawn h3 auth body now s).2).
Proof.
  unfold spawn.
  destruct (requireAuth auth s) as [[uid user]|] eqn:Hauth; [|left; eauto].
  destruct (requireAuth_Some _ _ _ _ Hauth) as [-> Hu].
  destruct (validIndex (b_h3Index body)) as [h|] eqn:Hv; [|left; eauto].
  destruct (gpsProof body) as [[[[lat lon] accuracyM] gpsAt]|] eqn:Hp; [|left; eauto].
  destruct (Qgtb (inject_Z now - gpsAt) GPS_MINE_MAX_AGE_MS) eqn:Hage; [left; eauto|].
  destruct (Qgtb accuracyM GPS_MINE_ACCURACY_THRESHOLD_M) eqn:Hacc; [left; eauto|].
  destruct (latLngToCell h3 lat lon 11) as [e|gpsHex] eqn:Hcell; [left; eauto|].
  case_decide; [left; eauto|]. case_decide as Hsame; [subst gpsHex|left; eauto].
  case_decide as Hown; [left; eauto|].
  destruct (Z.ltb_spec (balance user) SPAWN_COST_GHX); [left; eauto|].
  right. exists uid, user, h, lat, lon, accuracyM, gpsAt. cbn [fst snd].
  repeat (split; [done|]).
  apply claim_saved; unfold collectTreasuryFee; change (SPAWN_COST_GHX <=? 0) with false;
    state_simpl; try done.
  - rewrite insert_insert_eq. f_equal.
    unfold credited, set_ownedHexes, set_balance, SPAWN_COST_GHX. cbn.
    f_equal; try lia; set_solver.
  - by left.
Qed.

(** [POST /api/drive/simulate], every outcome. *)
Lemma driveSimulate_outcome auth center nets now s :
  (∃ r, driveSimulate h3 auth center nets now s = (r, s) ∧
        ∀ n c b l, r ≠ RespDriveSimulate n c b l) ∨
  (∃ uid user c ll candidates,
     auth = Some uid ∧ usersById s !! uid = Some user ∧
     validIndex center = Some c ∧ cellToLatLng h3 c = inr ll ∧
     DRIVE_COST_GHX <= balance user ∧
     gridDisk h3 c DRIVE_DISK_K = inr candidates ∧
     let claimed := filter (fun idx => claimable h3 user nets idx) candidates in
     claimed ≠ [] ∧
     (driveSimulate h3 auth center nets now s).1 =
       RespDriveSimulate (length claimed) 5
         (balance user + (Z.of_nat (length claimed) - 5)) claimed ∧
     claimEffect uid user (Z.of_nat (length claimed) - 5) 5 claimed now s
       (driveSimulate h3 auth center nets now s).2 ∧
     claimWrites s (driveSimulate h3 auth center nets now s).2).
Proof.
  unfold driveSimulate.
  destruct (requireAuth auth s) as [[uid user]|] eqn:Hauth; [|left; eauto].
  destruct (requireAuth_Some _ _ _ _ Hauth) as [-> Hu].
  destruct (validIndex center) as [c|] eqn:Hv; [|left; eauto].
  destruct (cellToLatLng h3 c) as [e|ll] eqn:Hll; [left; eauto|].
  destruct (Z.ltb_spec (balance user) DRIVE_COST_GHX); [left; eauto|].
  destruct (gridDisk h3 c DRIVE_DISK_K) as [e|candidates] eqn:Hd; [left; eauto|].
  destruct (filter _ candidates) as [|idx l] eqn:Hf; [left; eauto|].
  right. exists uid, user, c, ll, candidates. cbv zeta. rewrite Hf. cbn [fst snd].
  repeat (split; [done|]).
  set (user1 := set_balance (balance user - DRIVE_COST_GHX) user).
  set (s1 := collectTreasuryFee DRIVE_COST_GHX (put_user uid user1 s)).
  destruct (collectTreasuryFee_nonneg DRIVE_COST_GHX (put_user uid user1 s))
    as (Hu1 & Hc1 & Hb1 & He1 & Ht1 & Hl1); [done|]. fold s1 in Hu1, Hc1, Hb1, He1, Ht1, Hl1.
  destruct (foldl_claimOne_effect uid now (idx :: l) s1 user1)
    as (Hu2 & He2 & Hc2 & Hb2 & Ht2 & Hl2).
  { rewrite Hu1. state_simpl. by rewrite lookup_insert_eq. }
  assert (Hcred : credited (Z.of_nat (length (idx :: l))) (idx :: l) user1 =
                  credited (Z.of_nat (length (idx :: l)) - 5) (idx :: l) user).
  { unfold user1, credited, set_balance, DRIVE_COST_GHX. cbn. f_equal. lia. }
  split.
  { f_equal. state_simpl. rewrite Hu2, lookup_insert_eq, Hcred. cbn. lia. }
  apply claim_saved.
  - rewrite Hu2, Hu1, Hcred. state_simpl. by rewrite insert_insert_eq.
  - by rewrite He2, He1.
  - by rewrite Hc2, Hc1.
  - by rewrite Hb2, Hb1.
  - by rewrite Ht2, Ht1.
  - left. rewrite Hl2. by destruct Hl1 as [->|[? _]].
Qed.

(** [POST /api/drive/step], every outcome. *)
Lemma driveStep_outcome auth fromField toField nets now s :
  (∃ r, driveStep h3 auth fromField toField nets now s = (r, s) ∧
        ∀ l n g f d b, r ≠ RespDriveStep l n g f d b) ∨
  (∃ uid user fromH3 toH3 llFrom llTo,
     auth = Some uid ∧ usersById s !! uid = Some user ∧
     validIndex fromField = Some fromH3 ∧ validIndex toField = Some toH3 ∧
     fromH3 ≠ toH3 ∧
     cellToLatLng h3 fromH3 = inr llFrom ∧ cellToLatLng h3 toH3 = inr llTo ∧
     let mined := newlyMinedOf h3 user nets (drivePath h3 fromH3 toH3) toH3 in
     let N := Z.of_nat (length mined) in
     mined ≠ [] ∧
     (driveStep h3 auth fromField toField nets now s).1 =
       RespDriveStep mined N N (N / 10) (N - N / 10) (balance user + (N - N / 10)) ∧
     claimEffect uid user (N - N / 10) (N / 10) mined now s
       (driveStep h3 auth fromField toField nets now s).2 ∧
     claimWrites s (driveStep h3 auth fromField toField nets now s).2).
Proof.
  unfold driveStep.
  destruct (requireAuth auth s) as [[uid user]|] eqn:Hauth; [|left; eauto].
  destruct (requireAuth_Some _ _ _ _ Hauth) as [-> Hu].
  destruct (validIndex fromField) as [fromH3|] eqn:Hvf; [|left; eauto 10].
  destruct (validIndex toField) as [toH3|] eqn:Hvt; [|left; eauto 10].
  case_decide as Hne; [left; eauto 10|].
  destruct (cellToLatLng h3 fromH3) as [e|llFrom] eqn:HllF; [left; eauto 10|].
  destruct (cellToLatLng h3 toH3) as [e|llTo] eqn:HllT; [left; eauto 10|].
  fold (drivePath h3 fromH3 toH3).
  set (mined := newlyMinedOf h3 user nets (drivePath h3 fromH3 toH3) toH3).
  set (N := Z.of_nat (length mined)).
  destruct (Z.eqb_spec N 0) as [HN|HN]; [left; eauto 10|].
  right. exists uid, user, fromH3, toH3, llFrom, llTo. cbv zeta. cbn [fst snd].
  fold mined. fold N.
  repeat (split; [done|]).
  split. { intros Hnil. apply HN. unfold N. by rewrite Hnil. }
  split; [done|].
  assert (0 <= N / 10) as Hfee by (apply Z.div_pos; lia).
  set (user1 := set_balance (balance user + (N - N / 10)) user).
  set (s1 := collectTreasuryFee (N / 10) (put_user uid user1 s)).
  destruct (collectTreasuryFee_nonneg (N / 10) (put_user uid user1 s) Hfee)
    as (Hu1 & Hc1 & Hb1 & He1 & Ht1 & Hl1). fold s1 in Hu1, Hc1, Hb1, He1, Ht1, Hl1.
  destruct (foldl_stepOne_effect uid now mined s1 user1)
    as (Hu2 & He2 & Hc2 & Hb2 & Ht2 & Hl2).
  { rewrite Hu1. state_simpl. by rewrite lookup_insert_eq. }
  apply claim_saved.
  - rewrite Hu2, Hu1. unfold user1. rewrite credited_set_balance. state_simpl.
    rewrite insert_insert_eq. do 2 f_equal. lia.
  - by rewrite He2, He1.
  - by rewrite Hc2, Hc1.
  - by rewrite Hb2, Hb1.
  - by rewrite Ht2, Ht1.
  - rewrite Hl2. destruct Hl1 as [->|[E ->]]; [by left|by right].
Qed.

End Claims.

(** ** What every request does to the accounts and to the files *)

Section Accounts.

Context (h3 : H3Lib) (trim toLowerCase : string -> string).

Implicit Types (s : Server) (uid h : string) (u user : User) (op : Op).

Lemma inferZoneTypeFromOverpass_accounts h net s :
  accountsUntouched s (inferZoneTypeFromOverpass h3 h net s).2.
Proof.
  destruct (inferZoneTypeFromOverpass_cases h3 h net s)
    as [(e & ->)|(iz & els & _ & ->)]; cbn [snd]; [done|].
  case_decide; [|done].
  by destruct (markCoastAndBuffer_spec h3 h s) as (? & _ & ? & ? & _).
Qed.

Lemma getHex_accounts h net s : accountsUntouched s (getHex h3 h net s).2.
Proof.
  destruct (getHex_cases h3 h net s)
    as [->|(iz & els & s1 & _ & _ & Hinf & ->)]; [done|].
  pose proof (inferZoneTypeFromOverpass_accounts h net s) as Ha.
  rewrite Hinf in Ha. exact Ha.
Qed.

Lemma getHexOsm_accounts h net s : accountsUntouched s (getHexOsm h3 h net s).2.
Proof.
  pose proof (inferZoneTypeFromOverpass_accounts h net s) as Ha.
  unfold getHexOsm. destruct (inferZoneTypeFromOverpass h3 h net s) as [[e|iz] s1];
    [|exact Ha].
  by destruct (fallbackZoneType h3 h).
Qed.

Lemma getHexClassifyCentroid_pure h net s :
  (getHexClassifyCentroid h3 h net s).2 = s.
Proof. unfold getHexClassifyCentroid. by repeat case_match. Qed.

(** The accounts under every request: untouched, or one claim by an
    existing account, or one new account, or the reset. *)
Lemma handle_accounts op s :
  let s' := (handle h3 trim toLowerCase op s).2 in
  accountsUntouched s s' ∨
  (∃ uid user amount paid cells now,
     usersById s !! uid = Some user ∧
     claimEffect uid user amount paid cells now s s' ∧
     0 <= paid ∧ (0 <= balance user → 0 <= balance user + amount)) ∨
  (∃ newId user,
     usersById s' = <[newId := user]> (usersById s) ∧ id user = newId ∧
     balance user = 10 ∧ treasury s' = treasury s ∧
     miningEvents s' = miningEvents s) ∨
  (usersById s' = set_ownedHexes {[ DEFAULT_START_HEX ]} <$> usersById s ∧
   treasury s' = treasury s ∧ miningEvents s' = miningEvents s).
Proof.
  cbv zeta. destruct op; cbn [handle].
  - destruct (register_cases trim toLowerCase emailField passwordField newId hash s)
      as [(r & -> & _)|(emailRaw & _ & ->)]; [by left|].
    right; right; left. by eexists newId, _.
  - destruct (mine_outcome auth body now s)
      as [(r & -> & _)|(uid & user & h & _ & Hu & _ & _ & _ & _ & Heff & _)]; [by left|].
    right; left. exists uid, user, 1, 0, [h], now.
    split; [exact Hu|]. split; [exact Heff|]. split; lia.
  - destruct (spawn_outcome h3 auth body now s)
      as [(r & -> & _)|(uid & user & h & ? & ? & ? & ? & _ & Hu & _ & _ & _ & _ & _
                        & _ & Hbal & _ & Heff & _)]; [by left|].
    right; left. exists uid, user, (-5), 5, [h], now.
    split; [exact Hu|]. split; [exact Heff|]. unfold SPAWN_COST_GHX in Hbal.
    split; lia.
  - destruct (driveSimulate_outcome h3 auth centerH3Index nets now s)
      as [(r & -> & _)|(uid & user & c & ll & cands & _ & Hu & _ & _ & Hbal & _
                        & _ & _ & Heff & _)]; [by left|].
    right; left. eexists uid, user, _, 5, _, now.
    split; [exact Hu|]. split; [exact Heff|]. unfold DRIVE_COST_GHX in Hbal.
    split; lia.
  - destruct (driveStep_outcome h3 auth fromH3 toH3 nets now s)
      as [(r & -> & _)|(uid & user & f & t & ? & ? & _ & Hu & _ & _ & _ & _ & _
                        & _ & _ & Heff & _)]; [by left|].
    right; left. eexists uid, user, _, _, _, now.
    split; [exact Hu|]. split; [exact Heff|]. split.
    + apply Z.div_pos; lia.
    + intros Hb.
      set (N := Z.of_nat (length (newlyMinedOf h3 user nets (drivePath h3 f t) t))).
      assert (N / 10 <= N); [|lia].
      apply Z.div_le_upper_bound; lia.
  - left. apply getHex_accounts.
  - left. apply getHexOsm_accounts.
  - left. by rewrite getHexClassifyCentroid_pure.
  - unfold adminReset. destruct (requireAuth auth s); [|by left].
    right; right; right. done.
Qed.

(** *** Treasury and events *)

Lemma handle_ledger op s :
  treasury s <= treasury (handle h3 trim toLowerCase op s).2 ∧
  miningEvents s `prefix_of` miningEvents (handle h3 trim toLowerCase op s).2.
Proof.
  destruct (handle_accounts op s)
    as [(_ & -> & ->)|[(uid & user & amount & paid & cells & now & _ & Heff & Hpaid & _)
       |[(newId & user & _ & _ & _ & -> & ->)|(_ & -> & ->)]]]; try done.
  destruct Heff as (_ & -> & -> & _). split; [lia|]. by apply prefix_app_r.
Qed.

(** X7: over every sequence of requests the Treasury balance never
    decreases and the mining events recorded so far stay, in order, at the
    head of the list: events are only appended. *)
Theorem ledger_only_grows (ops : list Op) (s : Server) :
  treasury s <= treasury (serve h3 trim toLowerCase ops s) ∧
  miningEvents s `prefix_of` miningEvents (serve h3 trim toLowerCase ops s).
Proof.
  unfold serve. revert s. induction ops as [|op ops IH]; intros s; cbn [foldl]; [done|].
  destruct (handle_ledger op s) as [Ht He], (IH (handle h3 trim toLowerCase op s).2)
    as [Ht' He'].
  split; [lia|]. by etransitivity.
Qed.

(** *** Balances *)



(** *** Keys *)

Lemma handle_wellKeyed op s :
  wellKeyed (usersById s) → wellKeyed (usersById (handle h3 trim toLowerCase op s).2).
Proof.
  intros Hk k u'.
  destruct (handle_accounts op s)
    as [(-> & _)|[(uid & user & amount & paid & cells & now & Hu & Heff & _ & _)
       |[(newId & user & -> & Hid & _)|(-> & _)]]].
  - apply Hk.
  - destruct Heff as (-> & _). rewrite lookup_insert. case_decide as Hc.
    + intros [= <-]. cbn. subst k. by apply Hk.
    + apply Hk.
  - rewrite lookup_insert. case_decide as Hc; [|apply Hk]. intros [= <-]. congruence.
  - rewrite lookup_fmap. destruct (usersById s !! k) as [u|] eqn:Hu; [|done].
    intros [= <-]. cbn. by apply Hk.
Qed.

Lemma serve_wellKeyed ops s :
  wellKeyed (usersById s) → wellKeyed (usersById (serve h3 trim toLowerCase ops s)).
Proof.
  unfold serve. revert s. induction ops as [|op ops IH]; intros s Hs; [done|].
  cbn [foldl]. by apply IH, handle_wellKeyed.
Qed.

(** *** Files *)

Lemma sameGlobals_applyFs s s' w :
  sameGlobals s s' → sameGlobals (applyFs s w) (applyFs s' w).
Proof. intros (? & ? & ? & ? & ?). destruct w; by repeat split. Qed.

Lemma sameGlobals_foldl_applyFs ws s s' :
  sameGlobals s s' → sameGlobals (foldl applyFs s ws) (foldl applyFs s' ws).
Proof.
  revert s s'. induction ws as [|w ws IH]; intros s s' Hs; [done|].
  cbn [foldl]. by apply IH, sameGlobals_applyFs.
Qed.

Lemma sameGlobals_trans s1 s2 s3 :
  sameGlobals s1 s2 → sameGlobals s2 s3 → sameGlobals s1 s3.
Proof. intros (? & ? & ? & ? & ?) (? & ? & ? & ? & ?). repeat split; congruence. Qed.

(** It is enough that the request's own writes, replayed on the globals
    before the request, give the globals after it. *)
Lemma writesThrough_intro s s' ws :
  fsLog s' = fsLog s ++ ws → sameGlobals (foldl applyFs s ws) s' →
  writesThrough s s'.
Proof.
  intros Hlog Hre init Hinit. unfold onFile. rewrite Hlog, foldl_app.
  eapply sameGlobals_trans; [|exact Hre]. by apply sameGlobals_foldl_applyFs.
Qed.

Lemma writesThrough_refl s : writesThrough s s.
Proof. by intros init. Qed.

Lemma writesThrough_trans s1 s2 s3 :
  writesThrough s1 s2 → writesThrough s2 s3 → writesThrough s1 s3.
Proof. intros H12 H23 init Hinit. by apply H23, H12. Qed.

Lemma claim_writesThrough uid user amount paid cells now s s' :
  claimEffect uid user amount paid cells now s s' → claimWrites s s' →
  writesThrough s s'.
Proof.
  intros (Hu & Ht & He & Hc & Hb) (tw & Hlog & Htw).
  eapply writesThrough_intro; [exact Hlog|].
  rewrite foldl_app. destruct Htw as [->|[-> Hsame]]; cbn; by repeat split.
Qed.

Lemma markCoastAndBuffer_writesThrough h s :
  writesThrough s (markCoastAndBuffer h3 h s).
Proof.
  destruct (markCoastAndBuffer_spec h3 h s) as (Hu & Hc & Ht & He & _ & Hlog).
  case_decide as Hsame.
  - eapply (writesThrough_intro _ _ []); [by rewrite app_nil_r|]. by repeat split.
  - eapply writesThrough_intro; [exact Hlog|]. by repeat split.
Qed.

Lemma inferZoneTypeFromOverpass_writesThrough h net s :
  writesThrough s (inferZoneTypeFromOverpass h3 h net s).2.
Proof.
  destruct (inferZoneTypeFromOverpass_cases h3 h net s)
    as [(e & ->)|(iz & els & _ & ->)]; cbn [snd]; [apply writesThrough_refl|].
  case_decide; [apply markCoastAndBuffer_writesThrough|apply writesThrough_refl].
Qed.

Lemma handle_writesThrough op s :
  writesThrough s (handle h3 trim toLowerCase op s).2.
Proof.
  destruct op; cbn [handle].
  - destruct (register_cases trim toLowerCase emailField passwordField newId hash s)
      as [(r & -> & _)|(emailRaw & _ & ->)]; [apply writesThrough_refl|].
    by eapply writesThrough_intro.
  - destruct (mine_outcome auth body now s)
      as [(r & -> & _)|(uid & user & h & _ & _ & _ & _ & _ & _ & Heff & Hw)];
      [apply writesThrough_refl|by eapply claim_writesThrough].
  - destruct (spawn_outcome h3 auth body now s)
      as [(r & -> & _)|(uid & user & h & ? & ? & ? & ? & _ & _ & _ & _ & _ & _ & _
                        & _ & _ & _ & Heff & Hw)];
      [apply writesThrough_refl|by eapply claim_writesThrough].
  - destruct (driveSimulate_outcome h3 auth centerH3Index nets now s)
      as [(r & -> & _)|(uid & user & c & ll & cands & _ & _ & _ & _ & _ & _
                        & _ & _ & Heff & Hw)];
      [apply writesThrough_refl|by eapply claim_writesThrough].
  - destruct (driveStep_outcome h3 auth fromH3 toH3 nets now s)
      as [(r & -> & _)|(uid & user & f & t & ? & ? & _ & _ & _ & _ & _ & _ & _
                        & _ & _ & Heff & Hw)];
      [apply writesThrough_refl|by eapply claim_writesThrough].
  - destruct (getHex_cases h3 h net s)
      as [->|(iz & els & s1 & _ & _ & Hinf & ->)]; [apply writesThrough_refl|].
    eapply writesThrough_trans.
    + pose proof (inferZoneTypeFromOverpass_writesThrough h net s) as Hw.
      rewrite Hinf in Hw. exact Hw.
    + by eapply writesThrough_intro.
  - pose proof (inferZoneTypeFromOverpass_writesThrough h net s) as Hw.
    unfold getHexOsm. destruct (inferZoneTypeFromOverpass h3 h net s) as [[e|iz] s1];
      [|exact Hw].
    by destruct (fallbackZoneType h3 h).
  - rewrite getHexClassifyCentroid_pure. apply writesThrough_refl.
  - unfold adminReset. destruct (requireAuth auth s); [|apply writesThrough_refl].
    by eapply writesThrough_intro.
Qed.

(** X10: every global is written through to its file.  When the values in
    the five data files (as the writes attempted so far leave them, starting
    from [init]) are the values of the five globals, the same holds after
    every sequence of requests: each request that changes a global also
    writes it, with its final value. *)
Theorem files_hold_the_globals (ops : list Op) (init s : Server) :
  sameGlobals (onFile init (fsLog s)) s →
  sameGlobals (onFile init (fsLog (serve h3 trim toLowerCase ops s)))
              (serve h3 trim toLowerCase ops s).
Proof.
  unfold serve. revert s. induction ops as [|op ops IH]; intros s Hs; [done|].
  cbn [foldl]. apply IH. by apply handle_writesThrough.
Qed.

End Accounts.

(** ** Start-up and restart *)

Section Restart.

Context (h3 : H3Lib) (trim toLowerCase : string -> string).

Implicit Types (s : Server) (d : Disk) (users : gmap string User)
  (log : list FsWrite) (u : User).


Lemma loadStep_wellKeyed entries m :
  wellKeyed m → wellKeyed (foldl loadStep m entries).
Proof.
  revert m. induction entries as [|entry entries IH]; intros m Hm; [done|].
  cbn [foldl]. apply IH. destruct entry as [st|]; [|done].
  intros k u. cbn. rewrite lookup_insert. case_decide; [|apply Hm].
  by intros [= <-].
Qed.

Lemma loadUsers_wellKeyed d demoHash : wellKeyed (loadUsers d demoHash).1.
Proof.
  unfold loadUsers. destruct (usersFile d) as [| |entries].
  - destruct (legacyDemoUserFile d) as [| |legacy]; cbn [fst];
      try (intros k u Hu; by rewrite lookup_empty in Hu).
    intros k u Hu. apply lookup_singleton_Some in Hu as [<- <-]. done.
  - intros k u Hu. cbn in Hu. by rewrite lookup_empty in Hu.
  - cbn [fst]. apply (loadStep_wellKeyed (default [] entries) ∅).
    intros k u Hu. by rewrite lookup_empty in Hu.
Qed.




(** X9: every account is stored under its own identifier: whatever the data
    directory holds, the users map [loadUsers] builds is keyed by the [id]
    fields of its accounts, and every sequence of requests after start-up
    keeps it so. *)
Theorem accounts_keyed_by_id (ops : list Op) (d : Disk) (demoHash : string) :
  wellKeyed (loadUsers d demoHash).1 ∧
  wellKeyed (usersById (serve h3 trim toLowerCase ops (startup d demoHash))).
Proof.
  split; [apply loadUsers_wellKeyed|].
  apply serve_wellKeyed. unfold startup.
  pose proof (loadUsers_wellKeyed d demoHash) as Hk.
  by destruct (loadUsers d demoHash).
Qed.


(** *** Reading back what was written *)









(** *** The users maps in the log *)

Lemma logKeyed_app log ws :
  logKeyed log → (∀ users, FsUsers users ∈ ws → wellKeyed users) → logKeyed (log ++ ws).
Proof. intros Hl Hw users Hin. apply elem_of_app in Hin as [?|?]; auto. Qed.








End Restart.

(** ** Mine, Spawn and drive mode: effects *)

Section ClaimEffects.

Context (h3 : H3Lib) (trim toLowerCase : string -> string).

Implicit Types (s : Server) (uid h c : string) (u user : User) (now : Z).

Lemma validIndex_Some o h : validIndex o = Some h → o = Some h ∧ h ≠ "".
Proof.
  unfold validIndex. destruct o as [h'|]; [|done]. case_decide; [done|].
  by intros [= <-].
Qed.


(** X14: Mine is idempotent: after a Mine call that succeeded, the same
    call again, at any later clock, answers ALREADY_MINED with the balance
    the first call left and changes nothing. *)
Theorem mine_twice auth body now now' s bal :
  (mine auth body now s).1 = RespMined bal →
  mine auth body now' (mine auth body now s).2 =
    (RespFail ALREADY_MINED bal (Some true), (mine auth body now s).2).
Proof.
  clear h3 trim toLowerCase.
  intros Hresp. destruct (mine_outcome auth body now s)
    as [(r & Heq & Hr)|(uid & user & h & -> & Hu & Hv & Hg & Hb & Hr & Heff & _)].
  { rewrite Heq in Hresp. cbn in Hresp. by destruct (Hr bal). }
  destruct Heff as (Hus & _). rewrite Hr in Hresp. injection Hresp as <-.
  unfold mine at 1. unfold requireAuth. rewrite Hus, lookup_insert_eq, Hv.
  rewrite decide_True; [done|]. cbn. set_solver.
Qed.

(** X15: a cell of the coastal buffer is never mined: once a cell is in the
    buffer, no Mine call for it succeeds, whatever requests were served in
    between. *)
Theorem buffered_cell_never_mined (ops : list Op) auth body now s c bal :
  c ∈ coastBufferHexes s → b_h3Index body = Some c →
  (mine auth body now (serve h3 trim toLowerCase ops s)).1 ≠ RespMined bal.
Proof.
  intros Hin Hb Hresp.
  destruct (serve_growth h3 trim toLowerCase ops s) as (Hsub & _).
  destruct (mine_outcome auth body now (serve h3 trim toLowerCase ops s))
    as [(r & Heq & Hr)|(uid & user & h & _ & _ & Hv & _ & Hnot & _)].
  - rewrite Heq in Hresp. cbn in Hresp. by destruct (Hr bal).
  - apply validIndex_Some in Hv as [Hv _]. rewrite Hb in Hv. injection Hv as <-.
    apply Hnot, Hsub, Hin.
Qed.






(** A claim by [uid]: nothing happened, or the record of [uid] was
    credited. *)
Lemma claim_others uid other s s' :
  s' = s ∨ (∃ user amount paid cells now,
              usersById s !! uid = Some user ∧
              claimEffect uid user amount paid cells now s s') →
  other ≠ uid → usersById s' !! other = usersById s !! other.
Proof.
  intros [->|(user & amount & paid & cells & now & _ & (-> & _))] Hne; [done|].
  by rewrite lookup_insert_ne.
Qed.

Lemma claim_caller uid u s s' :
  s' = s ∨ (∃ user amount paid cells now,
              usersById s !! uid = Some user ∧
              claimEffect uid user amount paid cells now s s') →
  usersById s !! uid = Some u →
  ∃ u', usersById s' !! uid = Some u' ∧ id u' = id u ∧ email u' = email u ∧
        passwordHash u' = passwordHash u ∧ usdtBalance u' = usdtBalance u ∧
        ownedHexes u ⊆ ownedHexes u'.
Proof.
  clear h3 trim toLowerCase.
  intros [->|(user & amount & paid & cells & now & Hu' & (-> & _))] Hu.
  - by exists u.
  - rewrite Hu in Hu'. injection Hu' as <-. eexists. rewrite lookup_insert_eq.
    split; [done|]. cbn. repeat split. set_solver.
Qed.

Lemma claims_by_caller uid body now center fromField toField nets s :
  let claim (s' : Server) :=
    s' = s ∨ (∃ user amount paid cells now,
                usersById s !! uid = Some user ∧
                claimEffect uid user amount paid cells now s s') in
  claim (mine (Some uid) body now s).2 ∧
  claim (spawn h3 (Some uid) body now s).2 ∧
  claim (driveSimulate h3 (Some uid) center nets now s).2 ∧
  claim (driveStep h3 (Some uid) fromField toField nets now s).2.
Proof.
  cbv zeta. split; [|split; [|split]].
  - destruct (mine_outcome (Some uid) body now s)
      as [(r & -> & _)|(uid' & user & h & [= <-] & Hu & _ & _ & _ & _ & Heff & _)];
      [by left|right]. by eexists user, _, _, _, _.
  - destruct (spawn_outcome h3 (Some uid) body now s)
      as [(r & -> & _)|(uid' & user & h & ? & ? & ? & ? & [= <-] & Hu & _ & _ & _ & _
                        & _ & _ & _ & _ & Heff & _)];
      [by left|right]. by eexists user, _, _, _, _.
  - destruct (driveSimulate_outcome h3 (Some uid) center nets now s)
      as [(r & -> & _)|(uid' & user & c & ll & cands & [= <-] & Hu & _ & _ & _ & _
                        & _ & _ & Heff & _)];
      [by left|right]. by eexists user, _, _, _, _.
  - destruct (driveStep_outcome h3 (Some uid) fromField toField nets now s)
      as [(r & -> & _)|(uid' & user & f & t & ? & ? & [= <-] & Hu & _ & _ & _ & _ & _
                        & _ & _ & Heff & _)];
      [by left|right]. by eexists user, _, _, _, _.
Qed.

(** X19: a claim request touches only the caller's account.  Mine, Spawn,
    DriveSimulate and DriveStep by the account [uid] leave the record of
    every other account as it was, balance included; of the caller's record
    they keep the identifier, the address, the password hash and the USDT
    balance, and they never remove a cell from its owned set. *)
Theorem claims_touch_only_the_caller uid u other body now center fromField toField nets s :
  usersById s !! uid = Some u → other ≠ uid →
  let after (s' : Server) :=
    usersById s' !! other = usersById s !! other ∧
    ∃ u', usersById s' !! uid = Some u' ∧ id u' = id u ∧ email u' = email u ∧
          passwordHash u' = passwordHash u ∧ usdtBalance u' = usdtBalance u ∧
          ownedHexes u ⊆ ownedHexes u' in
  after (mine (Some uid) body now s).2 ∧
  after (spawn h3 (Some uid) body now s).2 ∧
  after (driveSimulate h3 (Some uid) center nets now s).2 ∧
  after (driveStep h3 (Some uid) fromField toField nets now s).2.
Proof.
  clear trim toLowerCase.
  intros Hu Hne. cbv zeta.
  destruct (claims_by_caller uid body now center fromField toField nets s)
    as (H1 & H2 & H3 & H4).
  repeat split;
    first [ by eapply claim_others | by eapply claim_caller ].
Qed.

End ClaimEffects.

Section Listing.

Implicit Types (s : Server) (c uid : string) (u user : User).

Lemma othersSet_spec user (users : gmap string User) c :
  c ∈ map_fold (fun _ other acc =>
                  if decide (id other = id user) then acc
                  else (ownedHexes other ∖ ownedHexes user) ∪ acc)
               (∅ : gset string) users ↔
  (c ∉ ownedHexes user) ∧
  ∃ k u, users !! k = Some u ∧ id u ≠ id user ∧ c ∈ ownedHexes u.
Proof.
  apply (map_fold_weak_ind
           (fun r (m : gmap string User) =>
              c ∈ r ↔ (c ∉ ownedHexes user) ∧
                      ∃ k u, m !! k = Some u ∧ id u ≠ id user ∧ c ∈ ownedHexes u)).
  - split; [set_solver|]. intros (_ & k & u & Hu & _). by rewrite lookup_empty in Hu.
  - intros i x m r Hi IH. split.
    + case_decide as Hid.
      * rewrite IH. intros (Hc & k & u & Hu & Hne & Hin). split; [done|].
        exists k, u. split; [|done].
        rewrite lookup_insert_ne; [done|]. intros ->. congruence.
      * rewrite elem_of_union, IH, elem_of_difference.
        intros [[Hin Hc]|(Hc & k & u & Hu & Hne & Hin)]; (split; [done|]).
        -- exists i, x. by rewrite lookup_insert_eq.
        -- exists k, u. split; [|done].
           rewrite lookup_insert_ne; [done|]. intros ->. congruence.
    + intros (Hc & k & u & Hu & Hne & Hin).
      destruct (decide (i = k)) as [->|Hik].
      * rewrite lookup_insert_eq in Hu. injection Hu as ->.
        rewrite decide_False by done. set_solver.
      * rewrite lookup_insert_ne in Hu by done.
        assert (c ∈ r) by (apply IH; eauto 10).
        case_decide; set_solver.
Qed.

(** X20: the listing of owned cells splits the ownership table.  For an
    authenticated caller, [mine] is the caller's owned set, [others] holds
    exactly the cells that some other account owns and the caller does not;
    the two parts share no cell, and together they are the set of all owned
    cells that [buildGlobalOwnedHexesSet] computes.  The table is keyed by
    account identifier, as it is in every state the server reaches. *)
Theorem ownedHexesGlobal_partition auth s mineSet othersSet :
  wellKeyed (usersById s) →
  ownedHexesGlobal auth s = Some (mineSet, othersSet) →
  mineSet ## othersSet ∧
  mineSet ∪ othersSet = buildGlobalOwnedHexesSet s ∧
  ∃ uid, auth = Some uid ∧ mineSet = ownedBy s uid ∧
         ∀ c, c ∈ othersSet ↔
              (c ∉ mineSet) ∧
              ∃ k u, k ≠ uid ∧ usersById s !! k = Some u ∧ c ∈ ownedHexes u.
Proof.
  intros Hkeys. unfold ownedHexesGlobal.
  destruct (requireAuth auth s) as [[uid user]|] eqn:Hauth; [|done].
  apply requireAuth_Some in Hauth as [-> Hu]. intros [= <- <-].
  assert (Hothers : ∀ c,
    c ∈ map_fold (fun _ other acc =>
                    if decide (id other = id user) then acc
                    else (ownedHexes other ∖ ownedHexes user) ∪ acc)
                 (∅ : gset string) (usersById s) ↔
    (c ∉ ownedHexes user) ∧
    ∃ k u, k ≠ uid ∧ usersById s !! k = Some u ∧ c ∈ ownedHexes u).
  { intros c. rewrite othersSet_spec. split.
    - intros (Hc & k & u & Hk & Hne & Hin). split; [done|]. exists k, u.
      split; [|done]. intros ->. rewrite Hu in Hk. by injection Hk as <-.
    - intros (Hc & k & u & Hne & Hk & Hin). split; [done|]. exists k, u.
      split; [done|]. split; [|done].
      rewrite (Hkeys _ _ Hk), (Hkeys _ _ Hu). done. }
  split; [|split].
  - intros c Hc Ho. apply Hothers in Ho as [Hn _]. done.
  - apply set_eq. intros c.
    rewrite elem_of_union, Hothers, elem_of_buildGlobalOwnedHexesSet. split.
    + intros [Hc|(_ & k & u & _ & Hk & Hin)]; eauto.
    + intros (k & u & Hk & Hin).
      destruct (decide (c ∈ ownedHexes user)) as [|Hn]; [by left|right].
      split; [done|]. exists k, u. split; [|done].
      intros ->. rewrite Hu in Hk. by injection Hk as <-.
  - exists uid. split; [done|]. split; [|exact Hothers].
    unfold ownedBy. by rewrite Hu.
Qed.

End Listing.

Section Routes.

Context (h3 : H3Lib) (trim toLowerCase : string → string).

Implicit Types (s : Server) (c h uid : string) (u user : User).

Lemma filter_none {A} (P : A → Prop) `{!∀ x, Decision (P x)} (l : list A) :
  (∀ x, x ∈ l → ¬ P x) → filter P l = [].
Proof.
  intros Hno. destruct (filter P l) as [|x l'] eqn:Hf; [done|].
  assert (x ∈ filter P l) as Hx by (rewrite Hf; left).
  apply list_elem_of_filter in Hx as [HP Hx]. by destruct (Hno x Hx).
Qed.

(** X21: what a reset clears and what it keeps.  For an authenticated
    caller the reset leaves every account with the start cell alone, so all
    owned cells collapse to that one cell; it keeps the set of accounts,
    every balance, address and password hash, the Treasury and the mining
    events, so units earned from cleared cells are not taken back; and a
    second reset finds nothing to clear and reports 0.  Without
    authentication nothing changes. *)
Theorem adminReset_clears_cells_only auth s :
  let s' := (adminReset auth s).2 in
  (requireAuth auth s = None → adminReset auth s = (RespError 401 UNAUTHENTICATED, s)) ∧
  (requireAuth auth s ≠ None →
     (∀ k, usersById s' !! k = None ↔ usersById s !! k = None) ∧
     (∀ k u', usersById s' !! k = Some u' →
        ownedHexes u' = {[ DEFAULT_START_HEX ]} ∧
        ∃ u, usersById s !! k = Some u ∧ id u' = id u ∧ email u' = email u ∧
             passwordHash u' = passwordHash u ∧ balance u' = balance u ∧
             usdtBalance u' = usdtBalance u) ∧
     buildGlobalOwnedHexesSet s' = {[ DEFAULT_START_HEX ]} ∧
     treasury s' = treasury s ∧ miningEvents s' = miningEvents s ∧
     hexCache s' = hexCache s ∧ coastBufferHexes s' = coastBufferHexes s ∧
     (adminReset auth s').1 = RespReset 0 ∧
     usersById (adminReset auth s').2 = usersById s').
Proof.
  cbv zeta. split.
  { unfold adminReset. by intros ->. }
  intros Hauth.
  destruct (requireAuth auth s) as [[uid user]|] eqn:Ha; [clear Hauth|done].
  apply requireAuth_Some in Ha as [-> Hu].
  assert (Hs' : usersById (adminReset (Some uid) s).2 =
                set_ownedHexes {[ DEFAULT_START_HEX ]} <$> usersById s).
  { unfold adminReset, requireAuth. rewrite Hu. by state_simpl. }
  assert (Hlook : ∀ k u', usersById (adminReset (Some uid) s).2 !! k = Some u' →
            ownedHexes u' = {[ DEFAULT_START_HEX ]} ∧
            ∃ u, usersById s !! k = Some u ∧ id u' = id u ∧ email u' = email u ∧
                 passwordHash u' = passwordHash u ∧ balance u' = balance u ∧
                 usdtBalance u' = usdtBalance u).
  { intros k u'. rewrite Hs', lookup_fmap.
    destruct (usersById s !! k) as [u|]; [|done]. intros [= <-].
    split; [done|]. by exists u. }
  split; [|split; [exact Hlook|]].
  { intros k. rewrite Hs', lookup_fmap. by destruct (usersById s !! k). }
  split.
  { apply set_eq. intros c. rewrite elem_of_buildGlobalOwnedHexesSet. split.
    - intros (k & u' & Hk & Hc). apply Hlook in Hk as [Ho _]. by rewrite <- Ho.
    - intros Hc. exists uid, (set_ownedHexes {[ DEFAULT_START_HEX ]} user).
      split; [|done]. by rewrite Hs', lookup_fmap, Hu. }
  assert (Hrest : treasury (adminReset (Some uid) s).2 = treasury s ∧
                  miningEvents (adminReset (Some uid) s).2 = miningEvents s ∧
                  hexCache (adminReset (Some uid) s).2 = hexCache s ∧
                  coastBufferHexes (adminReset (Some uid) s).2 = coastBufferHexes s).
  { unfold adminReset, requireAuth. rewrite Hu. by state_simpl. }
  destruct Hrest as (Ht & He & Hc & Hb).
  split; [exact Ht|]. split; [exact He|]. split; [exact Hc|]. split; [exact Hb|].
  set (s' := (adminReset (Some uid) s).2) in *.
  assert (Hu' : usersById s' !! uid = Some (set_ownedHexes {[ DEFAULT_START_HEX ]} user)).
  { by rewrite Hs', lookup_fmap, Hu. }
  clearbody s'. unfold adminReset, requireAuth. rewrite Hu'. state_simpl. split.
  - f_equal. rewrite filter_none; [done|].
    intros [k u'] Hin. apply elem_of_map_to_list in Hin.
    apply Hlook in Hin as [Ho _]. cbn. rewrite Ho, size_singleton. by intros [].
  - apply map_eq. intros k. rewrite lookup_fmap.
    destruct (usersById s' !! k) as [u'|] eqn:Hk; [|done].
    apply Hlook in Hk as [Ho _]. cbn. f_equal. destruct u'. cbn in Ho.
    unfold set_ownedHexes. cbn. by rewrite Ho.
Qed.



(** X24: classification is free.  The three classification routes never
    change an account, the Treasury or the mining events, whatever the map
    service answers; the centroid route changes nothing at all, so its
    answer is never cached; and the area routes write to the cache and
    coast-buffer files only. *)
Theorem classification_is_free h net s :
  accountsUntouched s (getHex h3 h net s).2 ∧
  accountsUntouched s (getHexOsm h3 h net s).2 ∧
  (getHexClassifyCentroid h3 h net s).2 = s ∧
  hexCache (getHexOsm h3 h net s).2 = hexCache s ∧
  (∀ op, op = OpGetHex h net ∨ op = OpGetHexOsm h net →
         ∀ w, w ∈ fsLog (handle h3 trim toLowerCase op s).2 →
              w ∈ fsLog s ∨ (∃ cache, w = FsHexCache cache) ∨
              (∃ buffer, w = FsCoastBuffer buffer)).
Proof.
  split; [apply getHex_accounts|]. split; [apply getHexOsm_accounts|].
  split; [apply getHexClassifyCentroid_pure|].
  assert (Hinfer : ∀ w, w ∈ fsLog (inferZoneTypeFromOverpass h3 h net s).2 →
            w ∈ fsLog s ∨ ∃ b, w = FsCoastBuffer b).
  { intros w. destruct (inferZoneTypeFromOverpass_cases h3 h net s)
      as [(e & ->)|(iz & elements & _ & ->)]; [by left|].
    cbn [snd]. case_decide; [|by left].
    destruct (markCoastAndBuffer_spec h3 h s) as (_ & _ & _ & _ & _ & ->).
    case_decide; [by left|].
    rewrite elem_of_app, list_elem_of_singleton. intros [?| ->]; eauto. }
  assert (HinferC : hexCache (inferZoneTypeFromOverpass h3 h net s).2 = hexCache s).
  { destruct (inferZoneTypeFromOverpass_cases h3 h net s)
      as [(e & ->)|(iz & elements & _ & ->)]; [done|].
    cbn [snd]. case_decide; [|done].
    by destruct (markCoastAndBuffer_spec h3 h s) as (_ & -> & _). }
  split.
  { unfold getHexOsm.
    destruct (inferZoneTypeFromOverpass h3 h net s) as [[e|iz] s1] eqn:Hi;
      cbn [snd] in *; [|done]. by destruct (fallbackZoneType h3 h). }
  intros op [->| ->] w; cbn [handle].
  - unfold getHex, lookupHexCache, getHexMiss, getHexRespond. case_decide; [by left|].
    destruct (hexCache s !! h); [by left|].
    destruct (inheritedKey h); [by left|].
    destruct (inferZoneTypeFromOverpass h3 h net s) as [[e|iz] s1] eqn:Hi;
      cbn [snd] in *.
    + destruct (fallbackZoneType h3 h); cbn [snd]; intros Hw;
        destruct (Hinfer w Hw) as [?|?]; eauto.
    + state_simpl. rewrite elem_of_app, list_elem_of_singleton.
      intros [Hw| ->]; [|eauto]. destruct (Hinfer w Hw) as [?|?]; eauto.
  - unfold getHexOsm.
    destruct (inferZoneTypeFromOverpass h3 h net s) as [[e|iz] s1] eqn:Hi;
      cbn [snd] in *.
    + destruct (fallbackZoneType h3 h); cbn [snd]; intros Hw;
        destruct (Hinfer w Hw) as [?|?]; eauto.
    + intros Hw. destruct (Hinfer w Hw) as [?|?]; eauto.
Qed.

End Routes.

Section Identity.

Context (h3 : H3Lib) (trim toLowerCase : string → string).

Implicit Types (s : Server) (c h uid k : string) (u user : User).

Lemma claim_identity k u s s' :
  s' = s ∨ (∃ uid user amount paid cells now,
              usersById s !! uid = Some user ∧
              claimEffect uid user amount paid cells now s s') →
  usersById s !! k = Some u →
  ∃ u', usersById s' !! k = Some u' ∧ id u' = id u ∧ email u' = email u ∧ passwordHash u' = passwordHash u.
Proof.
  intros [->|(uid & user & amount & paid & cells & now & Hu' & (-> & _))] Hu.
  - by exists u.
  - destruct (decide (uid = k)) as [->|Hne].
    + rewrite Hu in Hu'. injection Hu' as <-. eexists.
      rewrite lookup_insert_eq. by split.
    + exists u. by rewrite lookup_insert_ne.
Qed.

Lemma handle_identity op s k u :
  (∀ e0 p0 h0, op ≠ OpRegister e0 p0 k h0) →
  usersById s !! k = Some u →
  ∃ u', usersById (handle h3 trim toLowerCase op s).2 !! k = Some u' ∧
        id u' = id u ∧ email u' = email u ∧ passwordHash u' = passwordHash u.
Proof.
  intros Hfresh Hu.
  assert (Hsame : ∀ s', usersById s' = usersById s →
            ∃ u', usersById s' !! k = Some u' ∧ id u' = id u ∧ email u' = email u ∧ passwordHash u' = passwordHash u).
  { intros s' ->. by exists u. }
  destruct op; cbn [handle].
  - destruct (register_cases trim toLowerCase emailField passwordField newId hash s)
      as [(r & -> & _)|(emailRaw & -> & ->)]; [by apply Hsame|].
    cbn [snd]. state_simpl. exists u. rewrite lookup_insert_ne; [done|].
    intros ->. by eapply Hfresh.
  - apply (claim_identity k u s); [|done].
    destruct (mine_outcome auth body now s)
      as [(r & -> & _)|(uid' & user & h & _ & Hu' & _ & _ & _ & _ & Heff & _)];
      [by left|right]. by eexists uid', user, _, _, _, _.
  - apply (claim_identity k u s); [|done].
    destruct (spawn_outcome h3 auth body now s)
      as [(r & -> & _)|(uid' & user & h & ? & ? & ? & ? & _ & Hu' & _ & _ & _ & _
                        & _ & _ & _ & _ & Heff & _)];
      [by left|right]. by eexists uid', user, _, _, _, _.
  - apply (claim_identity k u s); [|done].
    destruct (driveSimulate_outcome h3 auth centerH3Index nets now s)
      as [(r & -> & _)|(uid' & user & c & ll & cands & _ & Hu' & _ & _ & _ & _
                        & _ & _ & Heff & _)];
      [by left|right]. by eexists uid', user, _, _, _, _.
  - apply (claim_identity k u s); [|done].
    destruct (driveStep_outcome h3 auth fromH3 toH3 nets now s)
      as [(r & -> & _)|(uid' & user & f & t & ? & ? & _ & Hu' & _ & _ & _ & _ & _
                        & _ & _ & Heff & _)];
      [by left|right]. by eexists uid', user, _, _, _, _.
  - apply Hsame, getHex_accounts.
  - apply Hsame, getHexOsm_accounts.
  - apply Hsame. by rewrite getHexClassifyCentroid_pure.
  - unfold adminReset. destruct (requireAuth auth s); [|by apply Hsame].
    state_simpl. eexists. rewrite lookup_fmap, Hu. by split.
Qed.

Lemma serve_identity ops s k u :
  (∀ e0 p0 h0, OpRegister e0 p0 k h0 ∉ ops) →
  usersById s !! k = Some u →
  ∃ u', usersById (serve h3 trim toLowerCase ops s) !! k = Some u' ∧
        id u' = id u ∧ email u' = email u ∧ passwordHash u' = passwordHash u.
Proof.
  revert s u. induction ops as [|op ops IH]; intros s u Hfresh Hu.
  { by exists u. }
  cbn. destruct (handle_identity op s k u) as (u1 & Hu1 & Hi1 & He1 & Hp1); [|done|].
  { intros e0 p0 h0 ->. eapply Hfresh. left. }
  destruct (IH (handle h3 trim toLowerCase op s).2 u1) as (u2 & Hu2 & Hi2 & He2 & Hp2);
    [|done|].
  { intros e0 p0 h0 Hin. eapply Hfresh. right. exact Hin. }
  exists u2. split; [done|]. split; [congruence|]. split; congruence.
Qed.

(** X25: an account keeps its identity.  Whatever requests are served, an
    account that exists is never removed, and its identifier, address and
    password hash never change, as long as no later registration is handed
    the same fresh identifier again ([createUser] stores the new account
    under that identifier without looking). *)
Theorem account_identity_is_stable ops s k u :
  (∀ e0 p0 h0, OpRegister e0 p0 k h0 ∉ ops) →
  usersById s !! k = Some u →
  ∃ u', usersById (serve h3 trim toLowerCase ops s) !! k = Some u' ∧
        id u' = id u ∧ email u' = email u ∧ passwordHash u' = passwordHash u.
Proof. apply serve_identity. Qed.

(** X26: an address registers once.  After a registration has succeeded, a
    later registration whose address has the same trimmed, lower-case form
    is refused with a 400 answer and changes nothing, whatever was served in
    between; with a well-formed address and password the answer is
    EMAIL_IN_USE.  The duplicate test lower-cases the stored address again,
    so this rests on lower-casing being idempotent. *)
Theorem address_registers_once
    e p newId hash s user s1 ops e' p' newId' hash' :
  (∀ x, toLowerCase (toLowerCase x) = toLowerCase x) →
  register trim toLowerCase (Some e) p newId hash s = (RespRegistered user, s1) →
  (∀ e0 p0 h0, OpRegister e0 p0 newId h0 ∉ ops) →
  toLowerCase (trim e') = toLowerCase (trim e) →
  let s2 := serve h3 trim toLowerCase ops s1 in
  ∃ reason,
    register trim toLowerCase (Some e') p' newId' hash' s2 = (RespError 400 reason, s2) ∧
    (reason = INVALID_EMAIL ∨ reason = INVALID_PASSWORD ∨ reason = EMAIL_IN_USE) ∧
    (includes (Ascii.ascii_of_nat 64) e' = true →
     (∃ pw, p' = Some pw ∧ (6 <= jsLength pw)%nat) →
     reason = EMAIL_IN_USE).
Proof.
  intros Hidem Hreg Hfresh Hsame. cbv zeta.
  assert (Hstored : usersById s1 !! newId = Some user ∧
                    email user = toLowerCase (trim e)).
  { destruct (register_cases trim toLowerCase (Some e) p newId hash s)
      as [(r & Heq & Hr)|(emailRaw & [= <-] & Heq)]; rewrite Heq in Hreg.
    - injection Hreg as -> _. by destruct (Hr user).
    - cbv zeta in Hreg. injection Hreg as <- <-. state_simpl.
      by rewrite lookup_insert_eq. }
  destruct Hstored as [Hu Hemail].
  destruct (serve_identity ops s1 newId user Hfresh Hu) as (u' & Hu' & _ & He' & _).
  set (s2 := serve h3 trim toLowerCase ops s1) in *.
  assert (Hfound : findUserByEmail trim toLowerCase e' s2 = true).
  { unfold findUserByEmail. apply existsb_exists. exists (newId, u'). split.
    - apply list_elem_of_In. by apply elem_of_map_to_list.
    - cbn. apply String.eqb_eq. by rewrite He', Hemail, Hidem. }
  unfold register. rewrite Hfound.
  destruct (includes (Ascii.ascii_of_nat 64) e') eqn:Hat; cbn [negb].
  - destruct p' as [pw|].
    + destruct (jsLength pw <? 6)%nat eqn:Hlen.
      * exists INVALID_PASSWORD. split; [done|]. split; [auto|].
        intros _ (pw' & [= <-] & Hlong). apply Nat.ltb_lt in Hlen. lia.
      * exists EMAIL_IN_USE. by auto.
    + exists INVALID_PASSWORD. split; [done|]. split; [auto|].
      by intros _ (pw' & [=] & _).
  - exists INVALID_EMAIL. split; [done|]. split; [auto|]. done.
Qed.

End Identity.

(** * Further worked examples *)

(** X4, instance: three roads in one answer; the primary one is kept. *)
Lemma roadClass_is_strongest_witness :
  let elements := [ way [("highway", "residential")];
                    way [("highway", "primary")];
                    way [("highway", "secondary")] ] in
  let net := upstreamAnswers elements in
  overpassFetch net = inr elements ∧
  ∃ area loc,
    (inferZoneTypeFromOverpass fragmentH3 DEFAULT_START_HEX net emptyServer).1 = inr area ∧
    inferZoneTypeAtCentroid fragmentH3 DEFAULT_START_HEX net = inr loc ∧
    z_roadClass area = Some "primary" ∧ z_roadClass loc = Some "primary".
Proof.
  cbv zeta. split; [reflexivity|].
  destruct (roadClass_is_strongest fragmentH3 DEFAULT_START_HEX
              (upstreamAnswers [ way [("highway", "residential")];
                                 way [("highway", "primary")];
                                 way [("highway", "secondary")] ])
              emptyServer [] (32 # 1, 348 # 10)%Q
              [ way [("highway", "residential")];
                way [("highway", "primary")];
                way [("highway", "secondary")] ]
              eq_refl eq_refl eq_refl)
    as (area & loc & Ha & Hl & Hsame & _).
  exists area, loc. split; [exact Ha|]. split; [exact Hl|].
  rewrite <- Hsame. assert (z_roadClass area = Some "primary") as ->; [|done].
  vm_compute in Ha. injection Ha as <-. reflexivity.
Defined.

(** X5, instance: a hospital next to a residential street.  Both
    classifiers answer HOSPITAL. *)
Lemma classifiers_agree_witness :
  let elements := [ way [("highway", "residential")];
                    way [("amenity", "hospital")] ] in
  let net := upstreamAnswers elements in
  overpassFetch net = inr elements ∧
  ∃ area loc,
    (inferZoneTypeFromOverpass fragmentH3 DEFAULT_START_HEX net emptyServer).1 = inr area ∧
    inferZoneTypeAtCentroid fragmentH3 DEFAULT_START_HEX net = inr loc ∧
    zoneType area = zoneType loc ∧ zoneType loc = HOSPITAL.
Proof.
  cbv zeta. split; [reflexivity|].
  destruct (classifiers_agree fragmentH3 DEFAULT_START_HEX
              (upstreamAnswers [ way [("highway", "residential")];
                                 way [("amenity", "hospital")] ])
              (upstreamAnswers [ way [("highway", "residential")];
                                 way [("amenity", "hospital")] ])
              emptyServer [] (32 # 1, 348 # 10)%Q
              [ way [("highway", "residential")]; way [("amenity", "hospital")] ]
              eq_refl eq_refl eq_refl eq_refl)
    as (area & loc & Ha & Hl & Hagree & _).
  exists area, loc. split; [exact Ha|]. split; [exact Hl|].
  assert (zoneType loc = HOSPITAL) as Hz.
  { vm_compute in Hl. injection Hl as <-. reflexivity. }
  split; [|exact Hz].
  destruct (Hagree eq_refl eq_refl) as [Heq|(_ & Hsea & _)]; [exact Heq|].
  rewrite Hz in Hsea. discriminate.
Defined.


(** X10, instance: from empty files and an empty server, two registrations
    and a Mine call. *)
Lemma files_hold_the_globals_witness :
  let ops := [ OpRegister (Some "ann@example.org") (Some "secret1") "user-1" "hash-1";
               OpRegister (Some "bob@example.org") (Some "secret2") "user-2" "hash-2";
               OpMine (Some "user-2") (bareBody NEAR_HEX) 1 ] in
  let s := serve fragmentH3 (fun e => e) (fun e => e) ops emptyServer in
  sameGlobals (onFile emptyServer (fsLog emptyServer)) emptyServer ∧
  sameGlobals (onFile emptyServer (fsLog s)) s.
Proof.
  cbv zeta.
  assert (sameGlobals (onFile emptyServer (fsLog emptyServer)) emptyServer) as H0.
  { unfold sameGlobals. split; [|split; [|split; [|split]]]; reflexivity. }
  split; [exact H0|].
  apply (files_hold_the_globals fragmentH3 (fun e => e) (fun e => e) _
           emptyServer emptyServer H0).
Defined.



(** X14, instance: the same Mine call again, later. *)
Lemma mine_twice_witness :
  (mine (Some "user-2") (bareBody NEAR_HEX) 1 twoUsers).1 = RespMined 11 ∧
  mine (Some "user-2") (bareBody NEAR_HEX) 7
       (mine (Some "user-2") (bareBody NEAR_HEX) 1 twoUsers).2 =
    (RespFail ALREADY_MINED 11 (Some true),
     (mine (Some "user-2") (bareBody NEAR_HEX) 1 twoUsers).2).
Proof.
  assert ((mine (Some "user-2") (bareBody NEAR_HEX) 1 twoUsers).1 = RespMined 11) as Hm.
  { vm_compute. reflexivity. }
  split; [exact Hm|].
  apply (mine_twice (Some "user-2") (bareBody NEAR_HEX) 1 7 twoUsers 11 Hm).
Defined.

(** X15, instance: the neighbouring cell is in the buffer; after a reset of
    the owned cells the first account still cannot mine it. *)
Lemma buffered_cell_never_mined_witness :
  NEAR_HEX ∈ coastBufferHexes contested ∧
  (mine (Some "user-1") (bareBody NEAR_HEX) 9
        (serve fragmentH3 (fun e => e) (fun e => e)
               [OpAdminReset (Some "user-1")] contested)).1 ≠ RespMined 11.
Proof.
  assert (NEAR_HEX ∈ coastBufferHexes contested) as Hin.
  { apply (bool_decide_unpack _). vm_compute. exact I. }
  split; [exact Hin|].
  apply (buffered_cell_never_mined fragmentH3 (fun e => e) (fun e => e)
           [OpAdminReset (Some "user-1")] (Some "user-1") (bareBody NEAR_HEX) 9
           contested NEAR_HEX 11 Hin eq_refl).
Defined.

(** X19, instance: the first account claims; the record of the second stays
    as it was. *)
Lemma claims_touch_only_the_caller_witness :
  usersById twoUsers !! "user-1" = Some ann ∧ "user-2" ≠ "user-1" ∧
  usersById (spawn fragmentH3 (Some "user-1") (gpsBody NEAR_HEX (320006 # 10000)) 1
                   twoUsers).2 !! "user-2" =
    usersById twoUsers !! "user-2" ∧
  usersById (driveStep fragmentH3 (Some "user-1") (Some DEFAULT_START_HEX)
                       (Some NEAR_HEX) streetsEverywhere 2 twoUsers).2 !! "user-2" =
    usersById twoUsers !! "user-2".
Proof.
  assert (usersById twoUsers !! "user-1" = Some ann) as Hu by (vm_compute; reflexivity).
  assert ("user-2" ≠ "user-1") as Hne by discriminate.
  split; [exact Hu|]. split; [exact Hne|].
  destruct (claims_touch_only_the_caller fragmentH3 "user-1" ann "user-2"
              (gpsBody NEAR_HEX (320006 # 10000)) 1 None (Some DEFAULT_START_HEX)
              (Some NEAR_HEX) streetsEverywhere twoUsers Hu Hne)
    as (_ & (Hspawn & _) & _ & _).
  destruct (claims_touch_only_the_caller fragmentH3 "user-1" ann "user-2"
              (bareBody NEAR_HEX) 2 None (Some DEFAULT_START_HEX)
              (Some NEAR_HEX) streetsEverywhere twoUsers Hu Hne)
    as (_ & _ & _ & (Hstep & _)).
  split; [exact Hspawn|exact Hstep].
Defined.

(** X20, instance: the first account holds the start cell, the second the
    start cell and the neighbouring one.  The first account is shown the
    neighbouring cell as another's; the shared start cell is listed as its
    own only. *)
Lemma ownedHexesGlobal_partition_witness :
  wellKeyed (usersById contested) ∧
  ownedHexesGlobal (Some "user-1") contested =
    Some ({[ DEFAULT_START_HEX ]}, {[ NEAR_HEX ]}) ∧
  ({[ DEFAULT_START_HEX ]} : gset string) ∪ {[ NEAR_HEX ]} =
    buildGlobalOwnedHexesSet contested.
Proof.
  assert (wellKeyed (usersById contested)) as Hk.
  { change (map_Forall (fun k u => id u = k) (usersById contested)).
    apply (bool_decide_unpack _). vm_compute. exact I. }
  assert (ownedHexesGlobal (Some "user-1") contested =
            Some ({[ DEFAULT_START_HEX ]}, {[ NEAR_HEX ]})) as Hl.
  { vm_compute. reflexivity. }
  split; [exact Hk|]. split; [exact Hl|].
  destruct (ownedHexesGlobal_partition (Some "user-1") contested
              {[ DEFAULT_START_HEX ]} {[ NEAR_HEX ]} Hk Hl) as (_ & Hall & _).
  exact Hall.
Defined.



(** X25, instance: the first account through a reset and a Mine call. *)
Lemma account_identity_is_stable_witness :
  let ops := [ OpAdminReset (Some "user-2");
               OpMine (Some "user-1") (bareBody NEAR_HEX) 5 ] in
  (∀ e0 p0 h0, OpRegister e0 p0 "user-1" h0 ∉ ops) ∧
  usersById twoUsers !! "user-1" = Some ann ∧
  ∃ u', usersById (serve fragmentH3 (fun e => e) (fun e => e) ops twoUsers) !! "user-1" =
          Some u' ∧
        id u' = "user-1" ∧ email u' = "ann@example.org" ∧ passwordHash u' = "hash-1".
Proof.
  cbv zeta.
  assert (∀ e0 p0 h0,
            OpRegister e0 p0 "user-1" h0 ∉
              [ OpAdminReset (Some "user-2");
                OpMine (Some "user-1") (bareBody NEAR_HEX) 5 ]) as Hfresh.
  { intros e0 p0 h0 Hin.
    apply elem_of_cons in Hin as [Hin|Hin]; [discriminate|].
    apply elem_of_cons in Hin as [Hin|Hin]; [discriminate|].
    by apply elem_of_nil in Hin. }
  assert (usersById twoUsers !! "user-1" = Some ann) as Hu by (vm_compute; reflexivity).
  split; [exact Hfresh|]. split; [exact Hu|].
  apply (account_identity_is_stable fragmentH3 (fun e => e) (fun e => e) _
           twoUsers "user-1" ann Hfresh Hu).
Defined.

(** X26, instance: the first address again, after another registration and
    a reset. *)
Lemma address_registers_once_witness :
  let first := register (fun e => e) (fun e => e) (Some "ann@example.org")
                        (Some "secret1") "user-1" "hash-1" emptyServer in
  let ops := [ OpRegister (Some "bob@example.org") (Some "secret2") "user-2" "hash-2";
               OpAdminReset (Some "user-1") ] in
  let s2 := serve fragmentH3 (fun e => e) (fun e => e) ops first.2 in
  first = (RespRegistered ann, first.2) ∧
  (∀ e0 p0 h0, OpRegister e0 p0 "user-1" h0 ∉ ops) ∧
  register (fun e => e) (fun e => e) (Some "ann@example.org") (Some "another")
           "user-3" "hash-3" s2 =
    (RespError 400 EMAIL_IN_USE, s2).
Proof.
  cbv zeta.
  assert (register (fun e => e) (fun e => e) (Some "ann@example.org")
                   (Some "secret1") "user-1" "hash-1" emptyServer =
          (RespRegistered ann,
           (register (fun e => e) (fun e => e) (Some "ann@example.org")
                     (Some "secret1") "user-1" "hash-1" emptyServer).2)) as Hreg.
  { vm_compute. reflexivity. }
  assert (∀ e0 p0 h0,
            OpRegister e0 p0 "user-1" h0 ∉
              [ OpRegister (Some "bob@example.org") (Some "secret2") "user-2" "hash-2";
                OpAdminReset (Some "user-1") ]) as Hfresh.
  { intros e0 p0 h0 Hin.
    apply elem_of_cons in Hin as [Hin|Hin]; [discriminate|].
    apply elem_of_cons in Hin as [Hin|Hin]; [discriminate|].
    by apply elem_of_nil in Hin. }
  split; [exact Hreg|]. split; [exact Hfresh|].
  destruct (address_registers_once fragmentH3 (fun e => e) (fun e => e)
              "ann@example.org" (Some "secret1") "user-1" "hash-1" emptyServer ann _
              [ OpRegister (Some "bob@example.org") (Some "secret2") "user-2" "hash-2";
                OpAdminReset (Some "user-1") ]
              "ann@example.org" (Some "another") "user-3" "hash-3"
              (fun x => eq_refl) Hreg Hfresh eq_refl)
    as (reason & Heq & _ & Hwf).
  assert (reason = EMAIL_IN_USE) as Hr.
  { apply Hwf; [reflexivity|]. exists "another". split; [reflexivity|]. vm_compute. lia. }
  rewrite Hr in Heq. exact Heq.
Defined.
